(** * SwiftBench: metrics pipeline, rate limiter, request loop and CLI gates

    A shallow embedding of the TypeScript sources of swiftbench
    (histogram.ts, aggregator.ts, loop.ts, rate-limiter.ts, flags.ts,
    commands/run.ts) together with the properties of its design document.

    Conventions of the embedding.
    - JavaScript numbers that hold counts, byte totals and latencies in
      microseconds are integers in the program (latencies come from a
      BigInt division); they are modelled as [Z].  Quantities that are
      fractional in the program (percentiles, means, tokens, clock
      readings in milliseconds) are rationals [Q]: every binary64 number
      is one.  Where a result of the program depends on how an operation
      rounds (the target count of a percentile, the displayed latencies,
      the error rate of the threshold gate, the token bucket of
      [acquire]), the result of each arithmetic operation is rounded to
      binary64 by [Double.round]; overflow to infinity does not occur in
      these computations and is not modelled.  The mean, the clock
      arithmetic of the lifecycle and of the ramp, and the idealised
      token bucket used for the rate bound of [tryAcquire] are computed
      exactly.
    - A [Uint32Array] is a [list Z] of fixed length whose stores wrap
      modulo 2^32; a read out of range yields [None] (JS [undefined]) and
      a store out of range is dropped.
    - A JS object or [Map] keyed by status code is a [gmap Z Z]. *)

From Stdlib Require Import ZArith QArith Qround Qminmax Qabs Qpower Lqa Lia.
From Stdlib Require Import String Ascii.
From stdpp Require Import base list gmap strings.

Local Open Scope Z_scope.

(** ** constants.ts *)

Module Constants.

Definition DEFAULT_CONNECTIONS : Z := 50.
Definition DEFAULT_DURATION_SEC : Z := 10.
Definition DEFAULT_TIMEOUT_MS : Z := 5000.
Definition MAX_WORKERS : Z := 8.
Definition HISTOGRAM_BUCKETS : Z := 10000.
Definition MAX_LATENCY_US : Z := 10000000.
Definition BUCKET_WIDTH_US : Z := MAX_LATENCY_US / HISTOGRAM_BUCKETS.
Definition METRICS_INTERVAL_MS : Z := 1000.
Definition SUCCESS_STATUS_CODES : list Z := [200; 201; 202; 204; 301; 302; 304].

(** [Number.MAX_SAFE_INTEGER] *)
Definition MAX_SAFE_INTEGER : Z := 2 ^ 53 - 1.

(** [EXIT_CODES] *)
Definition SUCCESS : Z := 0.
Definition THRESHOLD_EXCEEDED : Z := 1.
Definition ERROR : Z := 2.

End Constants.

(** ** JavaScript primitives used by the sources *)

Module Js.

(** A number that may be [NaN] (the results of [parseInt], [parseFloat]). *)
Inductive Num : Type :=
  | NaN
  | Val (q : Q).

(** [x < y] on rationals. *)
Definition Qltb (x y : Q) : bool := negb (Qle_bool y x).

(** [x > y] where [y] may be [NaN]: a comparison with [NaN] is false. *)
Definition gt (x : Q) (y : Num) : bool :=
  match y with
  | NaN => false
  | Val q => Qltb q x
  end.

(** Truncation towards zero. *)
Definition Qtrunc (x : Q) : Z := Z.quot (Qnum x) (Zpos (Qden x)).

(** The remainder [x % y]: the quotient is truncated towards zero. *)
Definition rem (x y : Q) : Q := (x - y * inject_Z (Qtrunc (x / y)))%Q.

(** [s.includes(sub)] *)
Definition includes (sub s : string) : bool :=
  match String.index 0 sub s with Some _ => true | None => false end.

(** [s.startsWith(p)] *)
Definition startsWith (p s : string) : bool := String.prefix p s.

(** [s.indexOf(sub)]; [None] stands for -1. *)
Definition indexOf (sub s : string) : option nat := String.index 0 sub s.

(** [s.substring(from, to)] and [s.substring(from)] for in-range indices. *)
Definition substring (from to : nat) (s : string) : string :=
  String.substring from (to - from) s.
Definition substringFrom (from : nat) (s : string) : string :=
  String.substring from (String.length s - from) s.

Definition isSpace (c : ascii) : bool :=
  let n := nat_of_ascii c in
  (n =? 32)%nat || ((9 <=? n)%nat && (n <=? 13)%nat).

Fixpoint trimStart (s : string) : string :=
  match s with
  | EmptyString => EmptyString
  | String c s' => if isSpace c then trimStart s' else s
  end.

Definition reverse (s : string) : string :=
  string_of_list_ascii (List.rev (list_ascii_of_string s)).

(** [s.trim()] on ASCII white space. *)
Definition trim (s : string) : string :=
  reverse (trimStart (reverse (trimStart s))).

Definition upper (c : ascii) : ascii :=
  let n := nat_of_ascii c in
  if (97 <=? n)%nat && (n <=? 122)%nat then ascii_of_nat (n - 32) else c.

(** [s.toUpperCase()] on ASCII letters. *)
Fixpoint toUpperCase (s : string) : string :=
  match s with
  | EmptyString => EmptyString
  | String c s' => String (upper c) (toUpperCase s')
  end.

End Js.

(** ** IEEE 754 binary64 rounding *)

Module Double.

(** 2^e *)
Definition pow2 (e : Z) : Q := (2 ^ e)%Q.

(** ⌊log2 x⌋ for x > 0 *)
Definition ilog2 (x : Q) : Z :=
  let e := Z.log2 (Qnum x) - Z.log2 (Zpos (Qden x)) in
  if Qle_bool (pow2 e) x then e else e - 1.

(** The exponent of the unit in the last place of the binary64 numbers
    around [x]: 53 significant bits, and 2^-1074 for the subnormal
    numbers. *)
Definition ulp_exp (x : Q) : Z := Z.max (ilog2 (Qabs x) - 52) (-1074).

(** The integer nearest to [x], the even one of the two when [x] is half
    way. *)
Definition nearest_even (x : Q) : Z :=
  let f := Qfloor x in
  match (x - inject_Z f ?= 1 # 2)%Q with
  | Lt => f
  | Gt => f + 1
  | Eq => if Z.even f then f else f + 1
  end.

(** The binary64 number nearest to [x] (round to nearest, ties to even). *)
Definition round (x : Q) : Q :=
  if Qeq_bool x 0 then 0%Q
  else (inject_Z (nearest_even (x / pow2 (ulp_exp x))) * pow2 (ulp_exp x))%Q.

(** [x] is a binary64 number. *)
Definition representable (x : Q) : Prop := (round x == x)%Q.

End Double.

(** ** core/metrics/histogram.ts *)

Module Histogram.
Import Constants.

Record t : Type := mk
  { buckets : list Z;   (* Uint32Array(HISTOGRAM_BUCKETS) *)
    count : Z;
    min : Z;
    max : Z;
    sum : Z }.

(** Store conversion of a [Uint32Array] element. *)
Definition wrap32 (z : Z) : Z := z mod 2 ^ 32.

(** [buckets[i]] : [undefined] outside [0, length). *)
Definition bucket_get (bs : list Z) (i : Z) : option Z :=
  if i <? 0 then None else bs !! Z.to_nat i.

(** [buckets[i] = v] : dropped outside [0, length). *)
Definition bucket_set (bs : list Z) (i v : Z) : list Z :=
  if i <? 0 then bs else <[Z.to_nat i := wrap32 v]> bs.

(** [new Histogram()] *)
Definition empty : t :=
  {| buckets := replicate (Z.to_nat HISTOGRAM_BUCKETS) 0;
     count := 0;
     min := MAX_SAFE_INTEGER;
     max := 0;
     sum := 0 |}.

(** The index [record] selects: [safeIndex]. *)
Definition safeIndex (valueUs : Z) : Z :=
  let clampedValue := Z.min valueUs (MAX_LATENCY_US - 1) in
  let bucketIndex := clampedValue / BUCKET_WIDTH_US in
  Z.min bucketIndex (HISTOGRAM_BUCKETS - 1).

(** [record(valueUs)] *)
Definition record (valueUs : Z) (h : t) : t :=
  let buckets' :=
    match bucket_get (buckets h) (safeIndex valueUs) with
    | Some current => bucket_set (buckets h) (safeIndex valueUs) (current + 1)
    | None => buckets h
    end in
  {| buckets := buckets';
     count := count h + 1;
     min := if valueUs <? min h then valueUs else min h;
     max := if max h <? valueUs then valueUs else max h;
     sum := sum h + valueUs |}.

(** A run of [record] calls, first element first. *)
Definition record_all (vs : list Z) (h : t) : t :=
  foldl (fun acc v => record v acc) h vs.

Definition getCount (h : t) : Z := count h.
Definition getMin (h : t) : Z := if 0 <? count h then min h else 0.
Definition getMax (h : t) : Z := max h.
Definition getSum (h : t) : Z := sum h.

(** [getMean()] : [sum / count], or 0 for an empty histogram. *)
Definition getMean (h : t) : Q :=
  if 0 <? count h then (inject_Z (sum h) / inject_Z (count h))%Q else 0%Q.

(** [(i + 0.5) * BUCKET_WIDTH_US] *)
Definition midpoint (i : Z) : Q :=
  ((inject_Z i + (1 # 2)) * inject_Z BUCKET_WIDTH_US)%Q.

(** [Math.ceil((percentile / 100) * this.count)]: the quotient and the
    product are rounded to binary64, [Math.ceil] is exact. *)
Definition targetCount (percentile : Q) (h : t) : Z :=
  Qceiling (Double.round (Double.round (percentile / 100) * inject_Z (count h)))%Q.

(** The [for] loop of [getPercentile]: [n] iterations remain, [i] is the
    loop index, [cumulative] the running total. *)
Fixpoint percentile_loop (bs : list Z) (target : Z) (n : nat) (i cumulative : Z) : Q :=
  match n with
  | O => inject_Z MAX_LATENCY_US
  | S n' =>
      let cumulative' :=
        match bucket_get bs i with
        | Some bucketValue => cumulative + bucketValue
        | None => cumulative
        end in
      if target <=? cumulative' then midpoint i
      else percentile_loop bs target n' (i + 1) cumulative'
  end.

(** [getPercentile(percentile)] *)
Definition getPercentile (percentile : Q) (h : t) : Q :=
  if count h =? 0 then 0%Q
  else percentile_loop (buckets h) (targetCount percentile h)
         (Z.to_nat HISTOGRAM_BUCKETS) 0 0.

(** The [for] loop of [getStdDev], returning [(sumSquaredDiff, counted)]. *)
Fixpoint stddev_loop (bs : list Z) (mean : Q) (n : nat) (i : Z) (acc : Q * Z) : Q * Z :=
  match n with
  | O => acc
  | S n' =>
      let acc' :=
        match bucket_get bs i with
        | Some bucketCount =>
            if 0 <? bucketCount then
              let diff := (midpoint i - mean)%Q in
              ((fst acc + diff * diff * inject_Z bucketCount)%Q, snd acc + bucketCount)
            else acc
        | None => acc
        end in
      stddev_loop bs mean n' (i + 1) acc'
  end.

Section StdDev.
(** [Math.sqrt] is a runtime primitive; it is a parameter of the model. *)
Variable Math_sqrt : Q -> Q.

(** [getStdDev()] *)
Definition getStdDev (h : t) : Q :=
  if count h <? 2 then 0%Q
  else
    let '(sumSquaredDiff, counted) :=
      stddev_loop (buckets h) (getMean h) (Z.to_nat HISTOGRAM_BUCKETS) 0 (0%Q, 0) in
    Math_sqrt (sumSquaredDiff / inject_Z counted)%Q.
End StdDev.

(** [HistogramData] has the fields of the histogram; [export()] copies them. *)
Definition export (h : t) : t :=
  {| buckets := buckets h; count := count h; min := min h; max := max h; sum := sum h |}.

(** One iteration of the [for] loop of [import]. *)
Definition import_step (incoming : list Z) (bs : list Z) (i : nat) : list Z :=
  match bucket_get bs (Z.of_nat i) with
  | Some current =>
      bucket_set bs (Z.of_nat i) (current + default 0 (bucket_get incoming (Z.of_nat i)))
  | None => bs
  end.

(** [import(data)] *)
Definition import (data : t) (h : t) : t :=
  {| buckets := foldl (import_step (buckets data)) (buckets h)
                  (seq 0 (Z.to_nat HISTOGRAM_BUCKETS));
     count := count h + count data;
     min := if 0 <? count data then (if min data <? min h then min data else min h) else min h;
     max := if 0 <? count data then (if max h <? max data then max data else max h) else max h;
     sum := sum h + sum data |}.

(** [this.merge(other)] *)
Definition merge (other : t) (h : t) : t := import (export other) h.

(** [reset()] *)
Definition reset (h : t) : t :=
  {| buckets := replicate (length (buckets h)) 0;
     count := 0; min := MAX_SAFE_INTEGER; max := 0; sum := 0 |}.

(** Σ buckets *)
Definition bucket_total (bs : list Z) : Z := foldr Z.add 0 bs.

(** The cumulative count of the buckets [0 .. i]. *)
Definition cumulative (bs : list Z) (i : Z) : Z :=
  bucket_total (take (Z.to_nat (i + 1)) bs).

(** Shape of the bucket array: the constructor's length, Uint32 contents. *)
Definition shape_ok (h : t) : Prop :=
  length (buckets h) = Z.to_nat HISTOGRAM_BUCKETS /\
  Forall (fun b => 0 <= b < 2 ^ 32) (buckets h).

(** The states a histogram object can be in: a count that is not
    negative, and the initial [min] and [max] as long as nothing is counted. *)
Definition well_formed (h : t) : Prop :=
  shape_ok h /\
  0 <= count h /\ min h <= MAX_SAFE_INTEGER /\ 0 <= max h /\
  (count h = 0 -> min h = MAX_SAFE_INTEGER /\ max h = 0).

End Histogram.


(** ** core/scheduler/rate-limiter.ts *)

Module RateLimiter.

(** The token bucket over the rationals: [refill], [tryAcquire] and
    [getTokens] with exact arithmetic.  [RateLimiter64] below is the
    limiter in binary64, with [acquire]. *)

Record t : Type := mk
  { ratePerSecond : Q;
    intervalMs : Q;
    tokens : Q;
    lastRefill : Q }.

(** [new RateLimiter(ratePerSecond)], constructed when the clock reads [now]. *)
Definition create (rate now : Q) : t :=
  {| ratePerSecond := rate;
     intervalMs := (1000 / rate)%Q;
     tokens := rate;
     lastRefill := now |}.

(** [refill()], when [performance.now()] reads [now]. *)
Definition refill (now : Q) (l : t) : t :=
  let elapsed := (now - lastRefill l)%Q in
  let tokensToAdd := ((elapsed / 1000) * ratePerSecond l)%Q in
  if Qle_bool 1 tokensToAdd then
    {| ratePerSecond := ratePerSecond l;
       intervalMs := intervalMs l;
       tokens := Qmin (ratePerSecond l) (tokens l + tokensToAdd)%Q;
       lastRefill := now |}
  else l.

(** [this.tokens -= 1] *)
Definition spend (l : t) : t :=
  {| ratePerSecond := ratePerSecond l;
     intervalMs := intervalMs l;
     tokens := (tokens l - 1)%Q;
     lastRefill := lastRefill l |}.

(** [tryAcquire()], when [performance.now()] reads [now]. *)
Definition tryAcquire (now : Q) (l : t) : t * bool :=
  let l1 := refill now l in
  if Qle_bool 1 (tokens l1) then (spend l1, true) else (l1, false).

(** [getTokens()] *)
Definition getTokens (now : Q) (l : t) : t * Q :=
  let l1 := refill now l in (l1, tokens l1).

(** [createRateLimiter(rate)] *)
Definition createRateLimiter (rate : option Q) (now : Q) : option t :=
  match rate with
  | None => None
  | Some r => if Qle_bool r 0 then None else Some (create r now)
  end.

(** tokens ∈ [0, capacity], capacity = rate; [intervalMs] is [1000 / rate]. *)
Definition inv (l : t) : Prop :=
  (0 <= tokens l)%Q /\ (tokens l <= ratePerSecond l)%Q /\
  (intervalMs l == 1000 / ratePerSecond l)%Q.

End RateLimiter.

(** ** core/scheduler/rate-limiter.ts in binary64 *)

Module RateLimiter64.

(** The limiter with the result of every arithmetic operation rounded to
    binary64, as the program computes it.  The rate and the clock readings
    are binary64 numbers; the remainder [%] of two of them is exact. *)
Record t : Type := mk
  { ratePerSecond : Q;
    intervalMs : Q;
    tokens : Q;
    lastRefill : Q }.

(** [new RateLimiter(ratePerSecond)], constructed when the clock reads [now]. *)
Definition create (rate now : Q) : t :=
  {| ratePerSecond := rate;
     intervalMs := Double.round (1000 / rate)%Q;
     tokens := rate;
     lastRefill := now |}.

(** [refill()], when [performance.now()] reads [now]. *)
Definition refill (now : Q) (l : t) : t :=
  let elapsed := Double.round (now - lastRefill l)%Q in
  let tokensToAdd := Double.round (Double.round (elapsed / 1000) * ratePerSecond l)%Q in
  if Qle_bool 1 tokensToAdd then
    {| ratePerSecond := ratePerSecond l;
       intervalMs := intervalMs l;
       tokens := Qmin (ratePerSecond l) (Double.round (tokens l + tokensToAdd)%Q);
       lastRefill := now |}
  else l.

(** [this.tokens -= 1] *)
Definition spend (l : t) : t :=
  {| ratePerSecond := ratePerSecond l;
     intervalMs := intervalMs l;
     tokens := Double.round (tokens l - 1)%Q;
     lastRefill := lastRefill l |}.

(** [waitTime] of [acquire], when [performance.now()] reads [now]. *)
Definition waitTime (now : Q) (l : t) : Q :=
  Double.round
    (intervalMs l - Js.rem (Double.round (now - lastRefill l)) (intervalMs l))%Q.

(** The duration handed to [sleep]: [Math.max(0, waitTime)]. *)
Definition sleepMs (now : Q) (l : t) : Q := Qmax 0 (waitTime now l).

(** The three clock readings an [acquire] call can make: in the first
    [refill], in the computation of [waitTime], and in the [refill] that
    follows the sleep. *)
Record Clock : Type := mkClock
  { atEntry : Q;
    atWait : Q;
    atWake : Q }.

(** [acquire()].  The result carries the sleep that was requested, if any. *)
Definition acquire (c : Clock) (l : t) : t * option Q :=
  let l1 := refill (atEntry c) l in
  if Qle_bool 1 (tokens l1) then (spend l1, None)
  else
    let ms := sleepMs (atWait c) l1 in
    let l2 := refill (atWake c) l1 in
    (spend l2, Some ms).

(** [tryAcquire()], when [performance.now()] reads [now]. *)
Definition tryAcquire (now : Q) (l : t) : t * bool :=
  let l1 := refill now l in
  if Qle_bool 1 (tokens l1) then (spend l1, true) else (l1, false).

(** tokens ≤ capacity, where capacity = rate is a binary64 number. *)
Definition below_capacity (l : t) : Prop :=
  (tokens l <= ratePerSecond l)%Q /\ Double.representable (ratePerSecond l).

(** tokens ∈ [0, capacity] *)
Definition inv (l : t) : Prop := (0 <= tokens l)%Q /\ below_capacity l.

End RateLimiter64.

(** ** types.ts, core/worker/messages.ts *)

Module Types.

Record ErrorBreakdown : Type := mkErrors
  { timeouts : Z;
    connectionErrors : Z;
    byStatusCode : gmap Z Z }.

Record MetricsSnapshot : Type := mkSnapshot
  { workerId : Z;
    requests : Z;
    successful : Z;
    failed : Z;
    bytes : Z;
    latencies : list Z;
    errors : ErrorBreakdown }.

Record LatencyStats : Type := mkLatency
  { min : Q; max : Q; mean : Q; stddev : Q;
    p50 : Q; p75 : Q; p90 : Q; p95 : Q; p99 : Q; p999 : Q }.

Inductive WorkerResponse : Type :=
  | ready (workerId : Z)
  | metrics (payload : MetricsSnapshot)
  | done (payload : MetricsSnapshot)
  | error (workerId : Z) (message : string).

(** [createEmptyErrorBreakdown()] *)
Definition createEmptyErrorBreakdown : ErrorBreakdown :=
  {| timeouts := 0; connectionErrors := 0; byStatusCode := ∅ |}.

(** [createEmptyMetricsSnapshot(workerId)] *)
Definition createEmptyMetricsSnapshot (id : Z) : MetricsSnapshot :=
  {| workerId := id; requests := 0; successful := 0; failed := 0; bytes := 0;
     latencies := []; errors := createEmptyErrorBreakdown |}.

(** Σ byStatusCode[·] *)
Definition status_total (m : gmap Z Z) : Z :=
  map_fold (fun _ n acc => n + acc) 0 m.

End Types.

(** ** core/http/client.ts *)

Module HttpClient.

Record HttpResponse : Type := mkResponse
  { statusCode : Z;
    bytes : Z;
    latencyUs : Z }.

(** A value caught by [catch (err: unknown)]: an [Error] object with its
    [name] and [message], or some other thrown value. *)
Inductive Thrown : Type :=
  | ErrorObject (name message : string)
  | OtherValue.

(** What one call of [client.execute] does: it returns or it throws. *)
Inductive Outcome : Type :=
  | Responded (response : HttpResponse)
  | Threw (err : Thrown).

(** The errors with which the undici pool rejects a request that exceeds
    the [headersTimeout], the [bodyTimeout] that [execute] passes
    ([this.timeout]) or the connect timeout: objects of undici's classes
    [HeadersTimeoutError], [BodyTimeoutError] and [ConnectTimeoutError],
    with the [name] and the default [message] these classes set. *)
Definition HeadersTimeoutError : Thrown :=
  ErrorObject "HeadersTimeoutError" "Headers Timeout Error".
Definition BodyTimeoutError : Thrown :=
  ErrorObject "BodyTimeoutError" "Body Timeout Error".
Definition ConnectTimeoutError : Thrown :=
  ErrorObject "ConnectTimeoutError" "Connect Timeout Error".

End HttpClient.

(** ** core/worker/loop.ts *)

Module RequestLoop.
Import Constants HttpClient.

Record LoopState : Type := mkState
  { running : bool;
    requests : Z;
    successful : Z;
    failed : Z;
    bytes : Z;
    latencies : list Z;
    errors : Types.ErrorBreakdown }.

(** [createInitialState()] *)
Definition createInitialState : LoopState :=
  {| running := true; requests := 0; successful := 0; failed := 0; bytes := 0;
     latencies := [];
     errors := {| Types.timeouts := 0; Types.connectionErrors := 0;
                  Types.byStatusCode := ∅ |} |}.

(** The test of the [catch] block:
    [err instanceof Error && (err.message.includes('timeout') || err.name === 'TimeoutError')]. *)
Definition isTimeoutError (err : Thrown) : bool :=
  match err with
  | ErrorObject name message => Js.includes "timeout" message || String.eqb name "TimeoutError"
  | OtherValue => false
  end.

(** [SUCCESS_STATUS_CODES.has(code)] *)
Definition isSuccessStatus (code : Z) : bool :=
  bool_decide (code ∈ SUCCESS_STATUS_CODES).

(** [executeRequest()], given what [client.execute] did. *)
Definition executeRequest (o : Outcome) (st : LoopState) : LoopState :=
  match o with
  | Responded response =>
      if isSuccessStatus (statusCode response) then
        {| running := running st;
           requests := requests st + 1;
           successful := successful st + 1;
           failed := failed st;
           bytes := bytes st + HttpClient.bytes response;
           latencies := latencies st ++ [latencyUs response];
           errors := errors st |}
      else
        let count := default 0 (Types.byStatusCode (errors st) !! statusCode response) in
        {| running := running st;
           requests := requests st + 1;
           successful := successful st;
           failed := failed st + 1;
           bytes := bytes st + HttpClient.bytes response;
           latencies := latencies st ++ [latencyUs response];
           errors :=
             {| Types.timeouts := Types.timeouts (errors st);
                Types.connectionErrors := Types.connectionErrors (errors st);
                Types.byStatusCode :=
                  <[statusCode response := count + 1]> (Types.byStatusCode (errors st)) |} |}
  | Threw err =>
      {| running := running st;
         requests := requests st + 1;
         successful := successful st;
         failed := failed st + 1;
         bytes := bytes st;
         latencies := latencies st;
         errors :=
           if isTimeoutError err then
             {| Types.timeouts := Types.timeouts (errors st) + 1;
                Types.connectionErrors := Types.connectionErrors (errors st);
                Types.byStatusCode := Types.byStatusCode (errors st) |}
           else
             {| Types.timeouts := Types.timeouts (errors st);
                Types.connectionErrors := Types.connectionErrors (errors st) + 1;
                Types.byStatusCode := Types.byStatusCode (errors st) |} |}
  end.

(** [getSnapshot()] for the worker [id]: a copy of the current state. *)
Definition getSnapshot (id : Z) (st : LoopState) : Types.MetricsSnapshot :=
  {| Types.workerId := id;
     Types.requests := requests st;
     Types.successful := successful st;
     Types.failed := failed st;
     Types.bytes := bytes st;
     Types.latencies := latencies st;
     Types.errors :=
       {| Types.timeouts := Types.timeouts (errors st);
          Types.connectionErrors := Types.connectionErrors (errors st);
          Types.byStatusCode := Types.byStatusCode (errors st) |} |}.

(** A run of completed request cycles, first outcome first. *)
Definition cycles (outcomes : list Outcome) (st : LoopState) : LoopState :=
  foldl (fun acc o => executeRequest o acc) st outcomes.

(** The state while [client.execute] is pending: [this.state.requests++]
    has run, the rest of [executeRequest] has not. *)
Definition inFlight (st : LoopState) : LoopState :=
  {| running := running st;
     requests := requests st + 1;
     successful := successful st;
     failed := failed st;
     bytes := bytes st;
     latencies := latencies st;
     errors := errors st |}.

(** What happens to a running loop, in the order it happens: a request
    cycle completes without the timer firing meanwhile ([executeRequest]);
    the [setInterval] timer of [startMetricsReporting] fires between two
    cycles and hands [getSnapshot()] to the callback; or the timer fires
    [ticks] times while [client.execute] is pending, each time handing
    over a snapshot of the state in flight, and the cycle then completes. *)
Inductive Event : Type :=
  | Cycle (o : Outcome)
  | Tick
  | Pending (ticks : nat) (o : Outcome).

(** The loop state and the snapshots handed to the metrics callback so far. *)
Definition step (id : Z) (acc : LoopState * list Types.MetricsSnapshot) (ev : Event)
  : LoopState * list Types.MetricsSnapshot :=
  match ev with
  | Cycle o => (executeRequest o (fst acc), snd acc)
  | Tick => (fst acc, snd acc ++ [getSnapshot id (fst acc)])
  | Pending ticks o =>
      (executeRequest o (fst acc),
       snd acc ++ replicate ticks (getSnapshot id (inFlight (fst acc))))
  end.

(** [run()]: the snapshots reported while the loop ran, and the final
    snapshot it returns. *)
Definition run (id : Z) (events : list Event)
  : list Types.MetricsSnapshot * Types.MetricsSnapshot :=
  let acc := foldl (step id) (createInitialState, []) events in
  (snd acc, getSnapshot id (fst acc)).

(** The request cycles during which the timer does not fire. *)
Definition isCycle (ev : Event) : bool :=
  match ev with Cycle _ => true | Tick | Pending _ _ => false end.

(** The events in which a request is executed. *)
Definition isRequest (ev : Event) : bool :=
  match ev with Cycle _ | Pending _ _ => true | Tick => false end.

Definition executed (events : list Event) : Z :=
  Z.of_nat (length (List.filter isRequest events)).

End RequestLoop.

(** ** core/worker/worker.ts *)

Module Worker.

(** [handleStart(config)]: every reported snapshot is sent as a [metrics]
    message, the final one as [done]. *)
Definition handleStart (id : Z) (events : list RequestLoop.Event) : list Types.WorkerResponse :=
  let '(reported, finalSnapshot) := RequestLoop.run id events in
  map Types.metrics reported ++ [Types.done finalSnapshot].

End Worker.

(** ** core/metrics/percentiles.ts *)

Module Percentiles.

Section WithSqrt.
Variable Math_sqrt : Q -> Q.

(** [calculatePercentiles(histogram)]; [toMs] divides in binary64, and the
    literal [99.9] is the binary64 number nearest to 999/10. *)
Definition calculatePercentiles (histogram : Histogram.t) : Types.LatencyStats :=
  let toMs (us : Q) : Q := Double.round (us / 1000)%Q in
  {| Types.min := toMs (inject_Z (Histogram.getMin histogram));
     Types.max := toMs (inject_Z (Histogram.getMax histogram));
     Types.mean := toMs (Histogram.getMean histogram);
     Types.stddev := toMs (Histogram.getStdDev Math_sqrt histogram);
     Types.p50 := toMs (Histogram.getPercentile 50 histogram);
     Types.p75 := toMs (Histogram.getPercentile 75 histogram);
     Types.p90 := toMs (Histogram.getPercentile 90 histogram);
     Types.p95 := toMs (Histogram.getPercentile 95 histogram);
     Types.p99 := toMs (Histogram.getPercentile 99 histogram);
     Types.p999 := toMs (Histogram.getPercentile (Double.round (999 # 10)) histogram) |}.
End WithSqrt.

(** [Math.round(x)]: the nearest integer, ties towards +∞. *)
Definition Math_round (x : Q) : Z := Qfloor (x + (1 # 2))%Q.

(** [roundTo(value, decimals)]: the product and the quotient are rounded
    to binary64, [Math.round] is exact; [Math.pow(10, decimals)] is the
    exact power for the decimals in use (0 ≤ decimals ≤ 22). *)
Definition roundTo (value : Q) (decimals : Z) : Q :=
  let factor := inject_Z (10 ^ decimals) in
  Double.round (inject_Z (Math_round (Double.round (value * factor))) / factor)%Q.

(** [formatLatencyStats(stats)], [decimals] at its default 2. *)
Definition formatLatencyStats (stats : Types.LatencyStats) : Types.LatencyStats :=
  {| Types.min := roundTo (Types.min stats) 2;
     Types.max := roundTo (Types.max stats) 2;
     Types.mean := roundTo (Types.mean stats) 2;
     Types.stddev := roundTo (Types.stddev stats) 2;
     Types.p50 := roundTo (Types.p50 stats) 2;
     Types.p75 := roundTo (Types.p75 stats) 2;
     Types.p90 := roundTo (Types.p90 stats) 2;
     Types.p95 := roundTo (Types.p95 stats) 2;
     Types.p99 := roundTo (Types.p99 stats) 2;
     Types.p999 := roundTo (Types.p999 stats) 2 |}.

End Percentiles.

(** ** core/metrics/aggregator.ts *)

Module MetricsAggregator.

Record t : Type := mk
  { histogram : Histogram.t;
    totalRequests : Z;
    successfulRequests : Z;
    failedRequests : Z;
    totalBytes : Z;
    timeouts : Z;
    connectionErrors : Z;
    statusCodes : gmap Z Z }.

Record AggregatedMetrics : Type := mkMetrics
  { m_totalRequests : Z;
    m_successfulRequests : Z;
    m_failedRequests : Z;
    m_totalBytes : Z;
    m_latency : Types.LatencyStats;
    m_errors : Types.ErrorBreakdown }.

(** [new MetricsAggregator()] *)
Definition empty : t :=
  {| histogram := Histogram.empty;
     totalRequests := 0; successfulRequests := 0; failedRequests := 0;
     totalBytes := 0; timeouts := 0; connectionErrors := 0;
     statusCodes := ∅ |}.

(** The body of the loop over [Object.entries(snapshot.errors.byStatusCode)].
    The key of an entry is the decimal string of a status code and
    [parseInt(code, 10)] reads the code back, so entries are keyed by the
    code itself. *)
Definition addStatus (statusCode count : Z) (codes : gmap Z Z) : gmap Z Z :=
  let existing := default 0 (codes !! statusCode) in
  <[statusCode := existing + count]> codes.

(** [addSnapshot(snapshot)] *)
Definition addSnapshot (snapshot : Types.MetricsSnapshot) (a : t) : t :=
  {| histogram := Histogram.record_all (Types.latencies snapshot) (histogram a);
     totalRequests := totalRequests a + Types.requests snapshot;
     successfulRequests := successfulRequests a + Types.successful snapshot;
     failedRequests := failedRequests a + Types.failed snapshot;
     totalBytes := totalBytes a + Types.bytes snapshot;
     timeouts := timeouts a + Types.timeouts (Types.errors snapshot);
     connectionErrors := connectionErrors a + Types.connectionErrors (Types.errors snapshot);
     statusCodes :=
       map_fold addStatus (statusCodes a) (Types.byStatusCode (Types.errors snapshot)) |}.

(** A run of [addSnapshot] calls, first element first. *)
Definition addAll (snapshots : list Types.MetricsSnapshot) (a : t) : t :=
  foldl (fun acc s => addSnapshot s acc) a snapshots.

Section WithSqrt.
Variable Math_sqrt : Q -> Q.

(** [getMetrics()] *)
Definition getMetrics (a : t) : AggregatedMetrics :=
  let byStatusCode : gmap Z Z :=
    map_fold (fun code count acc => <[code := count]> acc) ∅ (statusCodes a) in
  {| m_totalRequests := totalRequests a;
     m_successfulRequests := successfulRequests a;
     m_failedRequests := failedRequests a;
     m_totalBytes := totalBytes a;
     m_latency :=
       Percentiles.formatLatencyStats
         (Percentiles.calculatePercentiles Math_sqrt (histogram a));
     m_errors :=
       {| Types.timeouts := timeouts a;
          Types.connectionErrors := connectionErrors a;
          Types.byStatusCode := byStatusCode |} |}.
End WithSqrt.

End MetricsAggregator.

(** ** core/orchestrator/orchestrator.ts *)

Module Orchestrator.

(** The part of [BenchResult] computed from the run; the fields that echo
    the configuration and describe the host are left out. *)
Record Requests : Type := mkRequests { total : Z; successful : Z; failed : Z }.
Record Throughput : Type := mkThroughput { rps : Q; bytesPerSecond : Z; totalBytes : Z }.
Record BenchResult : Type := mkResult
  { requests : Requests;
    throughput : Throughput;
    latency : Types.LatencyStats;
    errors : Types.ErrorBreakdown }.

(** The orchestrator's aggregator and its count of finished workers. *)
Record t : Type := mk
  { aggregator : MetricsAggregator.t;
    completedWorkers : Z;
    failure : option string }.

Definition init : t :=
  {| aggregator := MetricsAggregator.empty; completedWorkers := 0; failure := None |}.

(** [handleWorkerMessage(workerId, message)] *)
Definition handleWorkerMessage (message : Types.WorkerResponse) (o : t) : t :=
  match message with
  | Types.ready _ => o
  | Types.metrics payload =>
      {| aggregator := MetricsAggregator.addSnapshot payload (aggregator o);
         completedWorkers := completedWorkers o;
         failure := failure o |}
  | Types.done payload =>
      {| aggregator := MetricsAggregator.addSnapshot payload (aggregator o);
         completedWorkers := completedWorkers o + 1;
         failure := failure o |}
  | Types.error _ message =>
      {| aggregator := aggregator o;
         completedWorkers := completedWorkers o;
         failure := Some message |}
  end.

Definition handleAll (messages : list Types.WorkerResponse) (o : t) : t :=
  foldl (fun acc m => handleWorkerMessage m acc) o messages.

Section WithSqrt.
Variable Math_sqrt : Q -> Q.

(** [finalize()], for a run that took [durationSec] seconds. *)
Definition finalize (durationSec : Q) (o : t) : BenchResult :=
  let metrics := MetricsAggregator.getMetrics Math_sqrt (aggregator o) in
  {| requests :=
       {| total := MetricsAggregator.m_totalRequests metrics;
          successful := MetricsAggregator.m_successfulRequests metrics;
          failed := MetricsAggregator.m_failedRequests metrics |};
     throughput :=
       {| rps :=
            (inject_Z (Percentiles.Math_round
               ((inject_Z (MetricsAggregator.m_totalRequests metrics) / durationSec) * 100))
             / 100)%Q;
          bytesPerSecond :=
            Percentiles.Math_round
              (inject_Z (MetricsAggregator.m_totalBytes metrics) / durationSec)%Q;
          totalBytes := MetricsAggregator.m_totalBytes metrics |};
     latency := MetricsAggregator.m_latency metrics;
     errors := MetricsAggregator.m_errors metrics |}.
End WithSqrt.

End Orchestrator.

(** ** cli/flags.ts *)

Module Flags.
Import Constants.
Local Open Scope string_scope.

Record ParsedFlags : Type := mkFlags
  { urls : list string;
    method : string;
    connections : Js.Num;
    duration : Js.Num;
    rate : option Js.Num;
    timeout : Js.Num;
    rampUp : option Js.Num;
    warmup : option Js.Num;
    headers : gmap string string;
    body : option string;
    http2 : bool;
    output : string;
    outputFile : option string;
    p99Threshold : option Js.Num;
    errorRateThreshold : option Js.Num;
    compare : bool;
    help : bool;
    version : bool }.

(** Assignments [flags.f = v]. *)
Definition set_urls (v : list string) (flags : ParsedFlags) : ParsedFlags :=
  {| urls := v; method := method flags; connections := connections flags; duration := duration flags; rate := rate flags; timeout := timeout flags; rampUp := rampUp flags; warmup := warmup flags; headers := headers flags; body := body flags; http2 := http2 flags; output := output flags; outputFile := outputFile flags; p99Threshold := p99Threshold flags; errorRateThreshold := errorRateThreshold flags; compare := compare flags; help := help flags; version := version flags |}.
Definition set_method (v : string) (flags : ParsedFlags) : ParsedFlags :=
  {| urls := urls flags; method := v; connections := connections flags; duration := duration flags; rate := rate flags; timeout := timeout flags; rampUp := rampUp flags; warmup := warmup flags; headers := headers flags; body := body flags; http2 := http2 flags; output := output flags; outputFile := outputFile flags; p99Threshold := p99Threshold flags; errorRateThreshold := errorRateThreshold flags; compare := compare flags; help := help flags; version := version flags |}.
Definition set_connections (v : Js.Num) (flags : ParsedFlags) : ParsedFlags :=
  {| urls := urls flags; method := method flags; connections := v; duration := duration flags; rate := rate flags; timeout := timeout flags; rampUp := rampUp flags; warmup := warmup flags; headers := headers flags; body := body flags; http2 := http2 flags; output := output flags; outputFile := outputFile flags; p99Threshold := p99Threshold flags; errorRateThreshold := errorRateThreshold flags; compare := compare flags; help := help flags; version := version flags |}.
Definition set_duration (v : Js.Num) (flags : ParsedFlags) : ParsedFlags :=
  {| urls := urls flags; method := method flags; connections := connections flags; duration := v; rate := rate flags; timeout := timeout flags; rampUp := rampUp flags; warmup := warmup flags; headers := headers flags; body := body flags; http2 := http2 flags; output := output flags; outputFile := outputFile flags; p99Threshold := p99Threshold flags; errorRateThreshold := errorRateThreshold flags; compare := compare flags; help := help flags; version := version flags |}.
Definition set_rate (v : option Js.Num) (flags : ParsedFlags) : ParsedFlags :=
  {| urls := urls flags; method := method flags; connections := connections flags; duration := duration flags; rate := v; timeout := timeout flags; rampUp := rampUp flags; warmup := warmup flags; headers := headers flags; body := body flags; http2 := http2 flags; output := output flags; outputFile := outputFile flags; p99Threshold := p99Threshold flags; errorRateThreshold := errorRateThreshold flags; compare := compare flags; help := help flags; version := version flags |}.
Definition set_timeout (v : Js.Num) (flags : ParsedFlags) : ParsedFlags :=
  {| urls := urls flags; method := method flags; connections := connections flags; duration := duration flags; rate := rate flags; timeout := v; rampUp := rampUp flags; warmup := warmup flags; headers := headers flags; body := body flags; http2 := http2 flags; output := output flags; outputFile := outputFile flags; p99Threshold := p99Threshold flags; errorRateThreshold := errorRateThreshold flags; compare := compare flags; help := help flags; version := version flags |}.
Definition set_rampUp (v : option Js.Num) (flags : ParsedFlags) : ParsedFlags :=
  {| urls := urls flags; method := method flags; connections := connections flags; duration := duration flags; rate := rate flags; timeout := timeout flags; rampUp := v; warmup := warmup flags; headers := headers flags; body := body flags; http2 := http2 flags; output := output flags; outputFile := outputFile flags; p99Threshold := p99Threshold flags; errorRateThreshold := errorRateThreshold flags; compare := compare flags; help := help flags; version := version flags |}.
Definition set_warmup (v : option Js.Num) (flags : ParsedFlags) : ParsedFlags :=
  {| urls := urls flags; method := method flags; connections := connections flags; duration := duration flags; rate := rate flags; timeout := timeout flags; rampUp := rampUp flags; warmup := v; headers := headers flags; body := body flags; http2 := http2 flags; output := output flags; outputFile := outputFile flags; p99Threshold := p99Threshold flags; errorRateThreshold := errorRateThreshold flags; compare := compare flags; help := help flags; version := version flags |}.
Definition set_headers (v : gmap string string) (flags : ParsedFlags) : ParsedFlags :=
  {| urls := urls flags; method := method flags; connections := connections flags; duration := duration flags; rate := rate flags; timeout := timeout flags; rampUp := rampUp flags; warmup := warmup flags; headers := v; body := body flags; http2 := http2 flags; output := output flags; outputFile := outputFile flags; p99Threshold := p99Threshold flags; errorRateThreshold := errorRateThreshold flags; compare := compare flags; help := help flags; version := version flags |}.
Definition set_body (v : option string) (flags : ParsedFlags) : ParsedFlags :=
  {| urls := urls flags; method := method flags; connections := connections flags; duration := duration flags; rate := rate flags; timeout := timeout flags; rampUp := rampUp flags; warmup := warmup flags; headers := headers flags; body := v; http2 := http2 flags; output := output flags; outputFile := outputFile flags; p99Threshold := p99Threshold flags; errorRateThreshold := errorRateThreshold flags; compare := compare flags; help := help flags; version := version flags |}.
Definition set_http2 (v : bool) (flags : ParsedFlags) : ParsedFlags :=
  {| urls := urls flags; method := method flags; connections := connections flags; duration := duration flags; rate := rate flags; timeout := timeout flags; rampUp := rampUp flags; warmup := warmup flags; headers := headers flags; body := body flags; http2 := v; output := output flags; outputFile := outputFile flags; p99Threshold := p99Threshold flags; errorRateThreshold := errorRateThreshold flags; compare := compare flags; help := help flags; version := version flags |}.
Definition set_output (v : string) (flags : ParsedFlags) : ParsedFlags :=
  {| urls := urls flags; method := method flags; connections := connections flags; duration := duration flags; rate := rate flags; timeout := timeout flags; rampUp := rampUp flags; warmup := warmup flags; headers := headers flags; body := body flags; http2 := http2 flags; output := v; outputFile := outputFile flags; p99Threshold := p99Threshold flags; errorRateThreshold := errorRateThreshold flags; compare := compare flags; help := help flags; version := version flags |}.
Definition set_outputFile (v : option string) (flags : ParsedFlags) : ParsedFlags :=
  {| urls := urls flags; method := method flags; connections := connections flags; duration := duration flags; rate := rate flags; timeout := timeout flags; rampUp := rampUp flags; warmup := warmup flags; headers := headers flags; body := body flags; http2 := http2 flags; output := output flags; outputFile := v; p99Threshold := p99Threshold flags; errorRateThreshold := errorRateThreshold flags; compare := compare flags; help := help flags; version := version flags |}.
Definition set_p99Threshold (v : option Js.Num) (flags : ParsedFlags) : ParsedFlags :=
  {| urls := urls flags; method := method flags; connections := connections flags; duration := duration flags; rate := rate flags; timeout := timeout flags; rampUp := rampUp flags; warmup := warmup flags; headers := headers flags; body := body flags; http2 := http2 flags; output := output flags; outputFile := outputFile flags; p99Threshold := v; errorRateThreshold := errorRateThreshold flags; compare := compare flags; help := help flags; version := version flags |}.
Definition set_errorRateThreshold (v : option Js.Num) (flags : ParsedFlags) : ParsedFlags :=
  {| urls := urls flags; method := method flags; connections := connections flags; duration := duration flags; rate := rate flags; timeout := timeout flags; rampUp := rampUp flags; warmup := warmup flags; headers := headers flags; body := body flags; http2 := http2 flags; output := output flags; outputFile := outputFile flags; p99Threshold := p99Threshold flags; errorRateThreshold := v; compare := compare flags; help := help flags; version := version flags |}.
Definition set_compare (v : bool) (flags : ParsedFlags) : ParsedFlags :=
  {| urls := urls flags; method := method flags; connections := connections flags; duration := duration flags; rate := rate flags; timeout := timeout flags; rampUp := rampUp flags; warmup := warmup flags; headers := headers flags; body := body flags; http2 := http2 flags; output := output flags; outputFile := outputFile flags; p99Threshold := p99Threshold flags; errorRateThreshold := errorRateThreshold flags; compare := v; help := help flags; version := version flags |}.
Definition set_help (v : bool) (flags : ParsedFlags) : ParsedFlags :=
  {| urls := urls flags; method := method flags; connections := connections flags; duration := duration flags; rate := rate flags; timeout := timeout flags; rampUp := rampUp flags; warmup := warmup flags; headers := headers flags; body := body flags; http2 := http2 flags; output := output flags; outputFile := outputFile flags; p99Threshold := p99Threshold flags; errorRateThreshold := errorRateThreshold flags; compare := compare flags; help := v; version := version flags |}.
Definition set_version (v : bool) (flags : ParsedFlags) : ParsedFlags :=
  {| urls := urls flags; method := method flags; connections := connections flags; duration := duration flags; rate := rate flags; timeout := timeout flags; rampUp := rampUp flags; warmup := warmup flags; headers := headers flags; body := body flags; http2 := http2 flags; output := output flags; outputFile := outputFile flags; p99Threshold := p99Threshold flags; errorRateThreshold := errorRateThreshold flags; compare := compare flags; help := help flags; version := v |}.

(** [BenchConfig] and [ThresholdConfig] of types.ts; an optional field is
    an [option]. *)
Record ThresholdConfig : Type := mkThresholds
  { th_p99 : option Js.Num;
    th_p95 : option Js.Num;
    th_errorRate : option Js.Num;
    th_minRps : option Js.Num }.

Record BenchConfig : Type := mkConfig
  { c_url : string;
    c_method : option string;
    c_headers : option (gmap string string);
    c_body : option string;
    c_connections : option Js.Num;
    c_duration : option Js.Num;
    c_rate : option Js.Num;
    c_timeout : option Js.Num;
    c_rampUp : option Js.Num;
    c_warmup : option Js.Num;
    c_http2 : option bool;
    c_output : option string;
    c_outputFile : option string;
    c_thresholds : option ThresholdConfig;
    c_info : option bool }.

Section Parse.
(** [parseInt(s, 10)] and [parseFloat(s)] are runtime primitives; they are
    parameters of the model. *)
Variable parseInt10 : string -> Js.Num.
Variable parseFloat : string -> Js.Num.

(** The initial value of [flags] in [parseFlags]. *)
Definition defaults : ParsedFlags :=
  {| urls := [];
     method := "GET";
     connections := Js.Val (inject_Z DEFAULT_CONNECTIONS);
     duration := Js.Val (inject_Z DEFAULT_DURATION_SEC);
     rate := None;
     timeout := Js.Val (inject_Z DEFAULT_TIMEOUT_MS);
     rampUp := None;
     warmup := None;
     headers := ∅;
     body := None;
     http2 := false;
     output := "console";
     outputFile := None;
     p99Threshold := None;
     errorRateThreshold := None;
     compare := false;
     help := false;
     version := false |}.

(** The [-H] branch: the header is stored when it has a colon after its
    first character. *)
Definition addHeader (header : string) (flags : ParsedFlags) : ParsedFlags :=
  match Js.indexOf ":" header with
  | Some (S k) =>
      let key := Js.trim (Js.substring 0 (S k) header) in
      let value := Js.trim (Js.substringFrom (S k + 1) header) in
      set_headers (<[key := value]> (headers flags)) flags
  | _ => flags
  end.

(** One iteration of the [while] loop of [parseFlags] on [arg = args[i]],
    with [next = args[i + 1]] ([None] when there is none).  The boolean
    tells whether the branch read [args[++i]].  The [arg === undefined]
    branch cannot be taken for an index below [args.length]. *)
Definition parse_arg (arg : string) (next : option string) (flags : ParsedFlags)
  : ParsedFlags * bool :=
  if (arg =? "-h") || (arg =? "--help") then (set_help true flags, false)
  else if (arg =? "-v") || (arg =? "--version") then (set_version true flags, false)
  else if arg =? "--compare" then (set_compare true flags, false)
  else if (arg =? "-c") || (arg =? "--connections") then
    (set_connections (parseInt10 (default "50" next)) flags, true)
  else if (arg =? "-d") || (arg =? "--duration") then
    (set_duration (parseInt10 (default "10" next)) flags, true)
  else if arg =? "--rate" then
    (set_rate (Some (parseInt10 (default "0" next))) flags, true)
  else if arg =? "--ramp-up" then
    (set_rampUp (Some (parseInt10 (default "0" next))) flags, true)
  else if arg =? "--warmup" then
    (set_warmup (Some (parseInt10 (default "0" next))) flags, true)
  else if arg =? "--timeout" then
    (set_timeout (parseInt10 (default "5000" next)) flags, true)
  else if (arg =? "-m") || (arg =? "--method") then
    (set_method (Js.toUpperCase (default "GET" next)) flags, true)
  else if (arg =? "-H") || (arg =? "--header") then
    (addHeader (default "" next) flags, true)
  else if arg =? "--body" then (set_body next flags, true)
  else if arg =? "--json" then
    (set_headers (<["Content-Type" := "application/json"]> (headers (set_body next flags)))
       (set_body next flags), true)
  else if arg =? "--http2" then (set_http2 true flags, false)
  else if arg =? "--output" then
    let format := default "console" next in
    ((if (format =? "console") || (format =? "json") || (format =? "html") || (format =? "csv")
      then set_output format flags else flags), true)
  else if arg =? "-o" then (set_outputFile next flags, true)
  else if arg =? "--p99" then
    (set_p99Threshold (Some (parseFloat (default "0" next))) flags, true)
  else if arg =? "--error-rate" then
    (set_errorRateThreshold (Some (parseFloat (default "0" next))) flags, true)
  else
    ((if negb (Js.startsWith "-" arg) then set_urls (urls flags ++ [arg]) flags else flags),
     false).

(** The [while (i < args.length)] loop: a branch that read [args[++i]]
    continues after it. *)
Fixpoint parse_loop (args : list string) (flags : ParsedFlags) : ParsedFlags :=
  match args with
  | [] => flags
  | arg :: rest =>
      match rest with
      | [] => fst (parse_arg arg None flags)
      | next :: rest' =>
          let '(flags', consumed) := parse_arg arg (Some next) flags in
          if consumed then parse_loop rest' flags' else parse_loop rest flags'
      end
  end.

(** [parseFlags(args)] *)
Definition parseFlags (args : list string) : ParsedFlags := parse_loop args defaults.

End Parse.

(** [flagsToConfig(flags)] *)
Definition flagsToConfig (flags : ParsedFlags) : option BenchConfig :=
  match urls flags with
  | [] => None
  | url :: _ =>
      Some
        {| c_url := url;
           c_method := Some (method flags);
           c_headers := Some (headers flags);
           c_body := body flags;
           c_connections := Some (connections flags);
           c_duration := Some (duration flags);
           c_rate := rate flags;
           c_timeout := Some (timeout flags);
           c_rampUp := rampUp flags;
           c_warmup := warmup flags;
           c_http2 := Some (http2 flags);
           c_output := Some (output flags);
           c_outputFile := outputFile flags;
           c_thresholds :=
             match p99Threshold flags, errorRateThreshold flags with
             | None, None => None
             | p, e => Some {| th_p99 := p; th_p95 := None; th_errorRate := e; th_minRps := None |}
             end;
           c_info := None |}
  end.

End Flags.

(** ** cli/commands/run.ts *)

Module Run.
Import Constants.

Inductive Reporter : Type :=
  | ConsoleReporter
  | JsonReporter
  | HtmlReporter
  | CsvReporter.

(** [getReporter(format)] *)
Definition getReporter (format : string) : Reporter :=
  if (format =? "json")%string then JsonReporter
  else if (format =? "html")%string then HtmlReporter
  else if (format =? "csv")%string then CsvReporter
  else ConsoleReporter.

(** What [checkReachability] resolves to. *)
Inductive Probe : Type :=
  | Reachable (statusCode : Z)
  | Unreachable (error : string).

(** What [runBenchmark] does: it resolves with a result or rejects. *)
Inductive BenchOutcome : Type :=
  | Resolved (result : Orchestrator.BenchResult)
  | Rejected (err : HttpClient.Thrown).

(** The calls of [error] and [warn] of printer.ts, with the data their
    messages are formatted from.  The [info] and [success] calls are not
    recorded. *)
Inductive Line : Type :=
  | error_p99 (observed : Q) (threshold : Js.Num)
  | error_errorRate (actual : Q) (threshold : Js.Num)
  | error_notReachable (error : string)
  | error_message (message : string)
  | error_noBenchmarks
  | warn_skipping (url error : string)
  | warn_failed (url message : string).

(** [err instanceof Error ? err.message : 'Unknown error'] *)
Definition messageOf (err : HttpClient.Thrown) : string :=
  match err with
  | HttpClient.ErrorObject _ message => message
  | HttpClient.OtherValue => "Unknown error"%string
  end.

(** [checkThresholds(result, config)]: the exit code and what was printed.
    The quotient [failed / total] is the binary64 quotient of the two
    counts. *)
Definition checkThresholds (result : Orchestrator.BenchResult) (config : Flags.BenchConfig)
  : Z * list Line :=
  match Flags.c_thresholds config with
  | None => (SUCCESS, [])
  | Some thresholds =>
      let observed := Types.p99 (Orchestrator.latency result) in
      let requests := Orchestrator.requests result in
      let p99Exceeded :=
        match Flags.th_p99 thresholds with
        | Some p99 => if Js.gt observed p99 then Some p99 else None
        | None => None
        end in
      match p99Exceeded with
      | Some p99 => (THRESHOLD_EXCEEDED, [error_p99 observed p99])
      | None =>
          match Flags.th_errorRate thresholds with
          | Some errorRate =>
              if (0 <? Orchestrator.total requests)%Z then
                let actualErrorRate :=
                  Double.round (inject_Z (Orchestrator.failed requests)
                                / inject_Z (Orchestrator.total requests))%Q in
                if Js.gt actualErrorRate errorRate
                then (THRESHOLD_EXCEEDED, [error_errorRate actualErrorRate errorRate])
                else (SUCCESS, [])
              else (SUCCESS, [])
          | None => (SUCCESS, [])
          end
      end
  end.

(** What a command leaves behind: its exit code, the [error]/[warn] lines
    and the report file it wrote, if any.  Writes to the terminal and to
    the file system are taken to succeed. *)
Record Finished (Report : Type) : Type := mkFinished
  { exitCode : Z;
    printed : list Line;
    written : option (string * Report) }.
Arguments mkFinished {Report}.
Arguments exitCode {Report}.
Arguments printed {Report}.
Arguments written {Report}.

(** [runCommand(config)], given what the probe and the benchmark do.  The
    report that is written is identified by its reporter and the result;
    the [devtools] attachment of the result is left out. *)
Definition runCommand (check : Probe) (bench : BenchOutcome) (config : Flags.BenchConfig)
  : Finished (Reporter * Orchestrator.BenchResult) :=
  match check with
  | Unreachable err => mkFinished ERROR [error_notReachable err] None
  | Reachable _ =>
      match bench with
      | Resolved result =>
          let reporter := getReporter (default "console"%string (Flags.c_output config)) in
          let '(code, lines) := checkThresholds result config in
          mkFinished code lines
            (match Flags.c_outputFile config with
             | Some file => Some (file, (reporter, result))
             | None => None
             end)
      | Rejected err => mkFinished ERROR [error_message (messageOf err)] None
      end
  end.

Record CompareResult : Type := mkCompare
  { cr_url : string;
    cr_rps : Q;
    cr_p50 : Q;
    cr_p99 : Q;
    cr_errorRate : Q }.

(** One of the [urls] of [compareCommand] with what the probe and the
    benchmark do for it. *)
Record Target : Type := mkTarget
  { url : string;
    check : Probe;
    bench : BenchOutcome }.

(** A target yields a result when it is reachable and its benchmark resolves. *)
Definition produces (t : Target) : bool :=
  match check t, bench t with
  | Reachable _, Resolved _ => true
  | _, _ => false
  end.

(** The lines printed through [warn]. *)
Definition isWarning (line : Line) : bool :=
  match line with
  | warn_skipping _ _ | warn_failed _ _ => true
  | _ => false
  end.

(** The body of the [for (const url of urls)] loop, on the [results]
    collected and the lines printed so far. *)
Definition compare_step (acc : list CompareResult * list Line) (t : Target)
  : list CompareResult * list Line :=
  match check t with
  | Unreachable err => (fst acc, snd acc ++ [warn_skipping (url t) err])
  | Reachable _ =>
      match bench t with
      | Resolved result =>
          let requests := Orchestrator.requests result in
          let errorRate :=
            if (0 <? Orchestrator.total requests)%Z then
              Double.round
                (Double.round (inject_Z (Orchestrator.failed requests)
                               / inject_Z (Orchestrator.total requests)) * 100)%Q
            else 0%Q in
          (fst acc ++
             [{| cr_url := url t;
                 cr_rps := Orchestrator.rps (Orchestrator.throughput result);
                 cr_p50 := Types.p50 (Orchestrator.latency result);
                 cr_p99 := Types.p99 (Orchestrator.latency result);
                 cr_errorRate := errorRate |}],
           snd acc)
      | Rejected err => (fst acc, snd acc ++ [warn_failed (url t) (messageOf err)])
      end
  end.

(** What [writeFileSync] does: it returns or it throws. *)
Inductive WriteOutcome : Type :=
  | Written
  | WriteThrew (err : HttpClient.Thrown).

(** How an [async] command settles: it returns its exit code, or its
    promise is rejected with the value that was thrown, after the lines
    printed so far. *)
Inductive Settled (Report : Type) : Type :=
  | Returned (finished : Finished Report)
  | Thrown (lines : list Line) (err : HttpClient.Thrown).
Arguments Returned {Report}.
Arguments Thrown {Report}.

(** [compareCommand(urls, config)], given what [writeFileSync] does if it
    is called.  The call is not inside a [try]: what it throws rejects the
    promise of the command. *)
Definition compareCommand (targets : list Target) (write : WriteOutcome)
    (config : Flags.BenchConfig)
  : Settled (list CompareResult * Flags.BenchConfig) :=
  let '(results, lines) := foldl compare_step ([], []) targets in
  if (length results =? 0)%nat
  then Returned (mkFinished ERROR (lines ++ [error_noBenchmarks]) None)
  else
    match Flags.c_outputFile config with
    | Some file =>
        match write with
        | Written => Returned (mkFinished SUCCESS lines (Some (file, (results, config))))
        | WriteThrew err => Thrown lines err
        end
    | None => Returned (mkFinished SUCCESS lines None)
    end.

End Run.

(** ** cli/index.ts *)

Module Cli.
Import Constants.

(** What [main] does after parsing: it exits at once, or it hands over to
    one of the commands, whose exit code becomes the process exit code. *)
Inductive Dispatch : Type :=
  | Exit (code : Z) (message : option string)
  | Compare (urls : list string) (config : Flags.BenchConfig)
  | Single (config : Flags.BenchConfig).

Section Parse.
Variable parseInt10 : string -> Js.Num.
Variable parseFloat : string -> Js.Num.

(** [main()] on [process.argv.slice(2)] *)
Definition main (args : list string) : Dispatch :=
  let flags := Flags.parseFlags parseInt10 parseFloat args in
  if Flags.help flags then Exit SUCCESS None
  else if Flags.version flags then Exit SUCCESS None
  else if (length (Flags.urls flags) =? 0)%nat then Exit ERROR (Some "No URL provided"%string)
  else
    match Flags.flagsToConfig flags with
    | None => Exit ERROR (Some "Invalid configuration"%string)
    | Some config =>
        if Flags.compare flags && (1 <? length (Flags.urls flags))%nat
        then Compare (Flags.urls flags) config
        else Single config
    end.

End Parse.

(** How [main] ends once the command has settled: [process.exit(exitCode)]
    with the code the command returned, or, when the command was rejected,
    the [catch] handler of [main()], which prints the message and exits
    with [ERROR].  The result is the exit code of the process and the
    [error]/[warn] lines printed. *)
Definition exitOf {Report : Type} (settled : Run.Settled Report) : Z * list Run.Line :=
  match settled with
  | Run.Returned finished => (Run.exitCode finished, Run.printed finished)
  | Run.Thrown lines err => (ERROR, lines ++ [Run.error_message (Run.messageOf err)])
  end.

End Cli.

(** ** core/orchestrator/lifecycle.ts *)

Module Lifecycle.

Inductive LifecyclePhase : Type :=
  | Idle
  | Warmup
  | Running
  | Cooldown
  | Complete.

Record t : Type := mk
  { phase : LifecyclePhase;
    warmupDuration : Q;
    mainDuration : Q;
    startTime : Q;
    warmupEndTime : Q;
    mainEndTime : Q }.

(** [this.phase = p] *)
Definition set_phase (p : LifecyclePhase) (l : t) : t :=
  {| phase := p;
     warmupDuration := warmupDuration l;
     mainDuration := mainDuration l;
     startTime := startTime l;
     warmupEndTime := warmupEndTime l;
     mainEndTime := mainEndTime l |}.

(** [new LifecycleManager(durationSec, warmupSec)] *)
Definition create (durationSec warmupSec : Q) : t :=
  {| phase := Idle;
     warmupDuration := (warmupSec * 1000)%Q;
     mainDuration := (durationSec * 1000)%Q;
     startTime := 0%Q;
     warmupEndTime := 0%Q;
     mainEndTime := 0%Q |}.

(** [start()], when [performance.now()] reads [now]. *)
Definition start (now : Q) (l : t) : t :=
  {| phase := if Js.Qltb 0 (warmupDuration l) then Warmup else Running;
     warmupDuration := warmupDuration l;
     mainDuration := mainDuration l;
     startTime := now;
     warmupEndTime := (now + warmupDuration l)%Q;
     mainEndTime := (now + warmupDuration l + mainDuration l)%Q |}.

(** [update()], when [performance.now()] reads [now]; the phase it
    returns is the phase of the state it leaves. *)
Definition update (now : Q) (l : t) : t :=
  let l1 :=
    match phase l with
    | Warmup => if Qle_bool (warmupEndTime l) now then set_phase Running l else l
    | _ => l
    end in
  match phase l1 with
  | Running => if Qle_bool (mainEndTime l1) now then set_phase Cooldown l1 else l1
  | _ => l1
  end.

(** [getPhase()] *)
Definition getPhase (l : t) : LifecyclePhase := phase l.

(** [isRunning()] *)
Definition isRunning (l : t) : bool :=
  match phase l with Running => true | _ => false end.

(** [shouldContinue()] *)
Definition shouldContinue (l : t) : bool :=
  match phase l with Complete | Cooldown => false | _ => true end.

(** [complete()] *)
Definition complete (l : t) : t := set_phase Complete l.

(** [getElapsedMs()] *)
Definition getElapsedMs (now : Q) (l : t) : Q := (now - startTime l)%Q.

(** [getRemainingMs()] *)
Definition getRemainingMs (now : Q) (l : t) : Q :=
  match phase l with
  | Running => Qmax 0 (mainEndTime l - now)
  | _ => 0%Q
  end.

(** [getProgress()] *)
Definition getProgress (now : Q) (l : t) : Q :=
  let elapsed := (now - warmupEndTime l)%Q in
  Qmin 100 (Qmax 0 ((elapsed / mainDuration l) * 100)).

(** The order in which the phases follow each other. *)
Definition rank (p : LifecyclePhase) : Z :=
  match p with
  | Idle => 0 | Warmup => 1 | Running => 2 | Cooldown => 3 | Complete => 4
  end.

(** The phase a started manager is in at clock reading [now], by its
    deadlines. *)
Definition phase_at (now : Q) (l : t) : LifecyclePhase :=
  if Js.Qltb now (warmupEndTime l) then Warmup
  else if Js.Qltb now (mainEndTime l) then Running
  else Cooldown.

End Lifecycle.

(** ** core/scheduler: the ramp scheduler *)

Module RampScheduler.

Record t : Type := mk
  { startRate : Q;
    targetRate : Q;
    rampUpMs : Q;
    startTime : Q }.

(** [new RampScheduler(targetRate, rampUpSeconds, startRate)], constructed
    when the clock reads [now]. *)
Definition create (target rampUpSeconds start now : Q) : t :=
  {| startRate := start;
     targetRate := target;
     rampUpMs := (rampUpSeconds * 1000)%Q;
     startTime := now |}.

(** [getCurrentRate()] *)
Definition getCurrentRate (now : Q) (r : t) : Q :=
  let elapsed := (now - startTime r)%Q in
  if Qle_bool (rampUpMs r) elapsed then targetRate r
  else
    let progress := (elapsed / rampUpMs r)%Q in
    (startRate r + (targetRate r - startRate r) * progress)%Q.

(** [isComplete()] *)
Definition isComplete (now : Q) (r : t) : bool :=
  Qle_bool (rampUpMs r) (now - startTime r).

(** [getProgress()] *)
Definition getProgress (now : Q) (r : t) : Q :=
  let elapsed := (now - startTime r)%Q in
  Qmin 100 ((elapsed / rampUpMs r) * 100).

(** [getRemainingMs()] *)
Definition getRemainingMs (now : Q) (r : t) : Q :=
  let elapsed := (now - startTime r)%Q in
  Qmax 0 (rampUpMs r - elapsed).

(** [createRampScheduler(targetRate, rampUpSeconds)]; the start rate is
    the constructor's default 0. *)
Definition createRampScheduler (target : Q) (rampUpSeconds : option Q) (now : Q) : option t :=
  match rampUpSeconds with
  | None => None
  | Some seconds => if Qle_bool seconds 0 then None else Some (create target seconds 0 now)
  end.

End RampScheduler.

(** ** core/orchestrator/orchestrator.ts: worker count and shares *)

Module WorkerShares.
Import Constants.

(** [calculateWorkerCount(connections)], on a host with [cpus().length = cpus]. *)
Definition calculateWorkerCount (cpus connections : Z) : Z :=
  let cpuCount := Z.max 1 cpus in
  Z.min (Z.min MAX_WORKERS cpuCount) connections.

(** [connectionsPerWorker] of [startWorker]: [Math.ceil(connections / workerCount)]. *)
Definition connectionsPerWorker (connections workerCount : Z) : Z :=
  Qceiling (inject_Z connections / inject_Z workerCount).

(** [ratePerWorker] of [startWorker]. *)
Definition ratePerWorker (rate : option Q) (workerCount : Z) : option Z :=
  match rate with
  | Some r => Some (Qceiling (r / inject_Z workerCount))
  | None => None
  end.

(** The limiter a worker builds from its share:
    [createRateLimiter(config.rate)] in the constructor of [RequestLoop]. *)
Definition workerLimiter (rate : option Q) (workerCount : Z) (now : Q) : option RateLimiter.t :=
  RateLimiter.createRateLimiter (inject_Z <$> ratePerWorker rate workerCount) now.

End WorkerShares.

(** ** reporters/console.ts: the table layout *)

Module ConsoleTable.

(** A JavaScript string as its UTF-16 code units, so that [length] is
    [String.prototype.length]. *)
Abbreviation str := (list Z).

(** The box drawing characters of [BOX]. *)
Definition topLeft : str := [9484].
Definition topRight : str := [9488].
Definition bottomLeft : str := [9492].
Definition bottomRight : str := [9496].
Definition horizontal : str := [9472].
Definition vertical : str := [9474].
Definition cross : str := [9532].
Definition teeDown : str := [9516].
Definition teeUp : str := [9524].
Definition teeRight : str := [9500].
Definition teeLeft : str := [9508].

(** [s.repeat(n)] *)
Definition repeat (s : str) (n : nat) : str := concat (replicate n s).

(** [parts.join(sep)] *)
Definition join (sep : str) (parts : list str) : str :=
  match parts with
  | [] => []
  | p :: ps => p ++ concat (map (fun q => sep ++ q) ps)
  end.

(** [center(str, width)] *)
Definition center (s : str) (width : nat) : str :=
  let padding := (width - length s)%nat in
  let left := (padding / 2)%nat in
  let right := (padding - left)%nat in
  repeat [32] left ++ s ++ repeat [32] right.

(** [tableRow(cells, widths)] *)
Definition tableRow (cells : list str) (widths : list nat) : str :=
  let formatted := imap (fun i cell => center cell (default 10%nat (widths !! i))) cells in
  vertical ++ join vertical formatted ++ vertical.

(** [tableSeparator(widths, left, mid, right)] *)
Definition tableSeparator (widths : list nat) (left mid right : str) : str :=
  let segments := map (fun w => repeat horizontal w) widths in
  left ++ join mid segments ++ right.

(** The [lines] array of [createTable(headers, rows, widths)]. *)
Definition tableLines (headers : list str) (rows : list (list str)) (widths : list nat)
  : list str :=
  [tableSeparator widths topLeft teeDown topRight;
   tableRow headers widths;
   tableSeparator widths teeRight cross teeLeft]
  ++ map (fun row => tableRow row widths) rows
  ++ [tableSeparator widths bottomLeft teeUp bottomRight].

(** [createTable(headers, rows, widths)] *)
Definition createTable (headers : list str) (rows : list (list str)) (widths : list nat) : str :=
  join [10] (tableLines headers rows widths).

(** Every cell has a column and is no longer than its column is wide. *)
Definition fits (cells : list str) (widths : list nat) : Prop :=
  Forall2 (fun cell w => (length cell <= w)%nat) cells widths.

End ConsoleTable.

(** ** core/http/pool.ts *)

Module ConnectionPool.

(** The [clients] map, from worker ids to [HttpClient] objects.  An object
    is identified by its rank among the clients the pool has constructed. *)
Record t : Type := mk
  { clients : gmap Z nat;
    constructed : nat }.

Definition create : t := {| clients := ∅; constructed := 0 |}.

(** [getClient(workerId)] *)
Definition getClient (workerId : Z) (p : t) : nat * t :=
  match clients p !! workerId with
  | Some existing => (existing, p)
  | None =>
      let client := constructed p in
      (client, {| clients := <[workerId := client]> (clients p);
                  constructed := S (constructed p) |})
  end.

(** [size] *)
Definition size (p : t) : nat := base.size (clients p).

(** A run of [getClient] calls: the clients returned and the final pool. *)
Fixpoint getClients (workerIds : list Z) (p : t) : list nat * t :=
  match workerIds with
  | [] => ([], p)
  | w :: ws =>
      let '(c, p1) := getClient w p in
      let '(cs, p2) := getClients ws p1 in
      (c :: cs, p2)
  end.

(** What [getClient] keeps true of a pool: the clients it holds were
    constructed by it, no client serves two workers, and [size] is the
    number of clients constructed. *)
Definition inv (p : t) : Prop :=
  (forall w c, clients p !! w = Some c -> (c < constructed p)%nat) /\
  (forall w w' c, clients p !! w = Some c -> clients p !! w' = Some c -> w = w') /\
  size p = constructed p.

End ConnectionPool.

(** ** reporters/csv.ts *)

Module CsvReporter.

(** Strings are lists of UTF-16 code units; 34 is the double quote, 44 the
    comma and 10 the line feed. *)

(** [str.includes(c)] for a one-character [c] *)
Definition includes (c : Z) (s : list Z) : bool := existsb (Z.eqb c) s.

(** The [str.replace] call of [escapeCSV]: every double quote is replaced by
    two. *)
Fixpoint doubleQuotes (s : list Z) : list Z :=
  match s with
  | [] => []
  | c :: s' => if c =? 34 then 34 :: 34 :: doubleQuotes s' else c :: doubleQuotes s'
  end.

(** A value handed to [escapeCSV]: a string or a number. *)
Inductive Value (Number : Type) : Type :=
  | Str (s : list Z)
  | Num (n : Number).
Arguments Str {Number} s.
Arguments Num {Number} n.

Section WithNumberToString.

(** The numbers of the runtime and their conversion to a string. *)
Variable Number : Type.
Variable Number_toString : Number -> list Z.

(** [String(value)] *)
Definition String_of (value : Value Number) : list Z :=
  match value with
  | Str s => s
  | Num n => Number_toString n
  end.

(** [escapeCSV(value)] *)
Definition escapeCSV (value : Value Number) : list Z :=
  let str := String_of value in
  if includes 44 str || includes 34 str || includes 10 str
  then [34] ++ doubleQuotes str ++ [34]
  else str.

End WithNumberToString.
Arguments String_of {Number} Number_toString value.
Arguments escapeCSV {Number} Number_toString value.

(** The quotes of the body of a quoted field come in pairs. *)
Fixpoint paired (s : list Z) : bool :=
  match s with
  | [] => true
  | c :: s' =>
      if c =? 34 then
        match s' with
        | c' :: s'' => (c' =? 34) && paired s''
        | [] => false
        end
      else paired s'
  end.

End CsvReporter.

(** ** Runs of calls and bookkeeping used in the statements *)

Module Runs.

(** The number of samples of [vs] that [record] files under bucket [i]. *)
Definition samples_in (i : Z) (vs : list Z) : Z :=
  Z.of_nat (length (List.filter (fun v => Histogram.safeIndex v =? i) vs)).

(** [n] calls of [acquire] that all read the clock at [now]. *)
Fixpoint acquire_at (now : Q) (n : nat) (l : RateLimiter64.t) : RateLimiter64.t :=
  match n with
  | O => l
  | S n' =>
      acquire_at now n' (fst (RateLimiter64.acquire (RateLimiter64.mkClock now now now) l))
  end.

(** A run of [tryAcquire] calls at the given clock readings: the final
    state and the number of calls that returned [true]. *)
Fixpoint tryAcquire_all (times : list Q) (l : RateLimiter.t) : RateLimiter.t * Z :=
  match times with
  | [] => (l, 0)
  | now :: times' =>
      let '(l1, ok) := RateLimiter.tryAcquire now l in
      let '(l2, n) := tryAcquire_all times' l1 in
      (l2, (if ok then 1 else 0) + n)
  end.

(** The tokens in hand minus the tokens that the time between [t0] and
    the last refill pays for. *)
Definition credit (t0 : Q) (l : RateLimiter.t) : Q :=
  (RateLimiter.tokens l
   - (RateLimiter.lastRefill l - t0) / 1000 * RateLimiter.ratePerSecond l)%Q.

(** The error tallies of a snapshot add up to its failures. *)
Definition tally_ok (s : Types.MetricsSnapshot) : Prop :=
  Types.timeouts (Types.errors s) + Types.connectionErrors (Types.errors s)
    + Types.status_total (Types.byStatusCode (Types.errors s)) = Types.failed s.

(** The requests of the snapshots that are counted neither as successful
    nor as failed. *)
Definition unsettled_in (snapshots : list Types.MetricsSnapshot) : Z :=
  foldr (fun s acc => Types.requests s - Types.successful s - Types.failed s + acc)
        0 snapshots.

(** The snapshots a worker takes while a request is in flight. *)
Definition pending_ticks (events : list RequestLoop.Event) : Z :=
  foldr (fun ev acc =>
           match ev with
           | RequestLoop.Pending ticks _ => Z.of_nat ticks + acc
           | _ => acc
           end) 0 events.

Definition pending_ticks_by (workers : list (Z * list RequestLoop.Event)) : Z :=
  foldr (fun w acc => pending_ticks (snd w) + acc) 0 workers.

(** The snapshot a message carries, if any. *)
Definition payload (m : Types.WorkerResponse) : option Types.MetricsSnapshot :=
  match m with
  | Types.metrics p | Types.done p => Some p
  | _ => None
  end.

(** The requests in a list of snapshots, as [addSnapshot] adds them up. *)
Definition requests_in (snapshots : list Types.MetricsSnapshot) : Z :=
  foldr (fun s acc => Types.requests s + acc) 0 snapshots.

(** The request cycles that the workers of a run executed; a worker is
    given by its id and its trace. *)
Definition executed_by (workers : list (Z * list RequestLoop.Event)) : Z :=
  foldr (fun w acc => RequestLoop.executed (snd w) + acc) 0 workers.

End Runs.

(** * Properties *)

(** Case analysis on every integer comparison in sight. *)
Ltac ltb_cases :=
  repeat match goal with
    | |- context [?x <? ?y] => destruct (Z.ltb_spec x y)
    | H : context [?x <? ?y] |- _ => destruct (Z.ltb_spec x y)
    end.

(** ** Rounding to binary64 is monotone and fixes the binary64 numbers *)

Section DoubleRounding.
Import Double.
Local Open Scope Q_scope.

Lemma pow2_pos e : 0 < pow2 e.
Proof. apply Qpower_0_lt. reflexivity. Qed.

Lemma pow2_plus a b : pow2 (a + b) == pow2 a * pow2 b.
Proof. apply Qpower_plus. discriminate. Qed.

Lemma pow2_le a b : (a <= b)%Z -> pow2 a <= pow2 b.
Proof. intros H. apply Qpower_le_compat_l; [exact H|discriminate]. Qed.

Lemma pow2_lt a b : (a < b)%Z -> pow2 a < pow2 b.
Proof. intros H. apply Qpower_lt_compat_l; [exact H|reflexivity]. Qed.

Lemma pow2_lt_inv a b : pow2 a < pow2 b -> (a < b)%Z.
Proof. intros H. apply (Qpower_lt_compat_l_inv 2); [exact H|reflexivity]. Qed.

Lemma pow2_Z e : (0 <= e)%Z -> pow2 e == inject_Z (2 ^ e).
Proof. intros H. unfold pow2. symmetry. exact (Zpower_Qpower 2 e H). Qed.

(** A power of two is a multiple of every smaller one. *)
Lemma pow2_split a b : (b <= a)%Z -> pow2 a == inject_Z (2 ^ (a - b)) * pow2 b.
Proof.
  intros H. rewrite <- pow2_Z by lia. rewrite <- pow2_plus.
  replace (a - b + b)%Z with a by lia. reflexivity.
Qed.

Lemma pow2_succ e : pow2 (e + 1) == 2 * pow2 e.
Proof. rewrite pow2_plus. change (pow2 1) with 2. ring. Qed.

Lemma ilog2_spec x : 0 < x -> pow2 (ilog2 x) <= x /\ x < pow2 (ilog2 x + 1).
Proof.
  intros Hx. destruct x as [n d]. unfold ilog2. cbn [Qnum Qden].
  assert (0 < n)%Z as Hn by (unfold Qlt in Hx; simpl in Hx; lia).
  set (a := Z.log2 n). set (b := Z.log2 (Z.pos d)).
  destruct (Z.log2_spec n Hn) as [Ha1 Ha2]. fold a in Ha1, Ha2.
  destruct (Z.log2_spec (Z.pos d) eq_refl) as [Hb1 Hb2]. fold b in Hb1, Hb2.
  assert (0 <= a)%Z as Ha0 by apply Z.log2_nonneg.
  assert (0 <= b)%Z as Hb0 by apply Z.log2_nonneg.
  assert (pow2 a <= inject_Z n) as HA1.
  { rewrite pow2_Z by lia. rewrite <- Zle_Qle. exact Ha1. }
  assert (inject_Z n < 2 * pow2 a) as HA2.
  { rewrite <- pow2_succ, pow2_Z by lia. rewrite <- Zlt_Qlt.
    replace (a + 1)%Z with (Z.succ a) by lia. exact Ha2. }
  assert (pow2 b <= inject_Z (Z.pos d)) as HB1.
  { rewrite pow2_Z by lia. rewrite <- Zle_Qle. exact Hb1. }
  assert (inject_Z (Z.pos d) < 2 * pow2 b) as HB2.
  { rewrite <- pow2_succ, pow2_Z by lia. rewrite <- Zlt_Qlt.
    replace (b + 1)%Z with (Z.succ b) by lia. exact Hb2. }
  assert (n # d == inject_Z n / inject_Z (Z.pos d)) as Hq by apply Qmake_Qdiv.
  assert (0 < inject_Z (Z.pos d)) as Hd by reflexivity.
  pose proof (pow2_pos a) as Hpa. pose proof (pow2_pos b) as Hpb.
  assert (pow2 a == pow2 (a - b) * pow2 b) as Hab.
  { rewrite <- pow2_plus. replace (a - b + b)%Z with a by lia. reflexivity. }
  pose proof (pow2_pos (a - b)) as Hpab.
  assert (pow2 (a - b) == 2 * pow2 (a - b - 1)) as Hm.
  { rewrite <- pow2_succ. replace (a - b - 1 + 1)%Z with (a - b)%Z by lia. reflexivity. }
  pose proof (pow2_pos (a - b - 1)) as Hpm.
  assert (pow2 (a - b) * pow2 b <= pow2 (a - b) * inject_Z (Z.pos d)) as Hmul.
  { apply Qmult_le_l; assumption. }
  assert (pow2 (a - b) * inject_Z (Z.pos d) < pow2 (a - b) * (2 * pow2 b)) as Hmul2.
  { apply Qmult_lt_l; assumption. }
  destruct (Qle_bool (pow2 (a - b)) (n # d)) eqn:Hc.
  - apply Qle_bool_iff in Hc. split; [exact Hc|].
    rewrite pow2_succ, Hq. apply Qlt_shift_div_r; [exact Hd|]. lra.
  - assert (n # d < pow2 (a - b)) as Hlt.
    { apply Qnot_le_lt. intros Hle. apply Qle_bool_iff in Hle. congruence. }
    replace (a - b - 1 + 1)%Z with (a - b)%Z by lia. split; [|exact Hlt].
    rewrite Hq. apply Qle_shift_div_l; [exact Hd|].
    assert (pow2 (a - b - 1) * inject_Z (Z.pos d) < pow2 (a - b - 1) * (2 * pow2 b)) as Hmul3.
    { apply Qmult_lt_l; assumption. }
    assert (pow2 a == 2 * (pow2 (a - b - 1) * pow2 b)) as Hab'.
    { rewrite Hab, Hm. ring. }
    lra.
Qed.

Lemma ilog2_unique x e : pow2 e <= x -> x < pow2 (e + 1) -> ilog2 x = e.
Proof.
  intros H1 H2.
  assert (0 < x) as Hx by (pose proof (pow2_pos e); lra).
  destruct (ilog2_spec x Hx) as [H3 H4].
  assert (ilog2 x < e + 1)%Z by (apply pow2_lt_inv; lra).
  assert (e < ilog2 x + 1)%Z by (apply pow2_lt_inv; lra).
  lia.
Qed.

Lemma ilog2_mono x y : 0 < x -> x <= y -> (ilog2 x <= ilog2 y)%Z.
Proof.
  intros Hx Hxy.
  destruct (ilog2_spec x Hx) as [H1 _].
  destruct (ilog2_spec y) as [_ H2]; [lra|].
  assert (ilog2 x < ilog2 y + 1)%Z by (apply pow2_lt_inv; lra).
  lia.
Qed.

Lemma ilog2_compat x y : 0 < x -> x == y -> ilog2 x = ilog2 y.
Proof.
  intros Hx Hxy. destruct (ilog2_spec y) as [H1 H2]; [lra|].
  apply ilog2_unique; lra.
Qed.

(** *** Rounding to the nearest integer *)

Lemma nearest_even_cases x :
  (nearest_even x = Qfloor x /\ x - inject_Z (Qfloor x) <= 1 # 2) \/
  (nearest_even x = (Qfloor x + 1)%Z /\ 1 # 2 <= x - inject_Z (Qfloor x)).
Proof.
  unfold nearest_even.
  destruct (x - inject_Z (Qfloor x) ?= 1 # 2) eqn:Hc.
  - apply Qeq_alt in Hc. destruct (Z.even (Qfloor x)); [left|right]; split; try reflexivity; lra.
  - apply Qlt_alt in Hc. left. split; [reflexivity|lra].
  - apply Qgt_alt in Hc. right. split; [reflexivity|lra].
Qed.

Lemma nearest_even_mono x y : x <= y -> (nearest_even x <= nearest_even y)%Z.
Proof.
  intros Hxy. pose proof (Qfloor_resp_le x y Hxy) as Hf.
  destruct (Z.eq_dec (Qfloor x) (Qfloor y)) as [Heq|Hne].
  - unfold nearest_even. rewrite <- Heq.
    destruct (Qcompare_spec (x - inject_Z (Qfloor x)) (1 # 2));
      destruct (Qcompare_spec (y - inject_Z (Qfloor x)) (1 # 2));
      destruct (Z.even (Qfloor x)); first [lia | exfalso; lra].
  - destruct (nearest_even_cases x) as [[-> _]|[-> _]];
      destruct (nearest_even_cases y) as [[-> _]|[-> _]]; lia.
Qed.

Lemma nearest_even_Z (k : Z) : nearest_even (inject_Z k) = k.
Proof.
  unfold nearest_even. rewrite Qfloor_Z.
  destruct (Qcompare_spec (inject_Z k - inject_Z k) (1 # 2)); [exfalso; lra|reflexivity|exfalso; lra].
Qed.

Lemma nearest_even_compat x y : x == y -> nearest_even x = nearest_even y.
Proof.
  intros H. apply Z.le_antisymm; apply nearest_even_mono; lra.
Qed.

Lemma nearest_even_le x (k : Z) : x <= inject_Z k -> (nearest_even x <= k)%Z.
Proof. intros H. rewrite <- (nearest_even_Z k). by apply nearest_even_mono. Qed.

Lemma nearest_even_ge x (k : Z) : inject_Z k <= x -> (k <= nearest_even x)%Z.
Proof. intros H. rewrite <- (nearest_even_Z k). by apply nearest_even_mono. Qed.

(** *** Rounding to binary64 *)

Lemma round_zero x : x == 0 -> round x = 0.
Proof. intros H. unfold round. apply Qeq_bool_iff in H. by rewrite H. Qed.

Lemma round_nonzero x :
  ~ x == 0 ->
  round x = inject_Z (nearest_even (x / pow2 (ulp_exp x))) * pow2 (ulp_exp x).
Proof.
  intros H. unfold round. destruct (Qeq_bool x 0) eqn:Hc; [|reflexivity].
  apply Qeq_bool_iff in Hc. contradiction.
Qed.

(** Rounding does not cross a multiple of the unit in the last place. *)
Lemma round_grid_le x (k : Z) :
  x <= inject_Z k * pow2 (ulp_exp x) -> round x <= inject_Z k * pow2 (ulp_exp x).
Proof.
  intros H. pose proof (pow2_pos (ulp_exp x)) as HP.
  destruct (Qeq_dec x 0) as [Hz|Hnz].
  - rewrite (round_zero x Hz). lra.
  - rewrite (round_nonzero x Hnz). apply Qmult_le_compat_r; [|lra].
    rewrite <- Zle_Qle. apply nearest_even_le.
    apply Qle_shift_div_r; assumption.
Qed.

Lemma round_grid_ge x (k : Z) :
  inject_Z k * pow2 (ulp_exp x) <= x -> inject_Z k * pow2 (ulp_exp x) <= round x.
Proof.
  intros H. pose proof (pow2_pos (ulp_exp x)) as HP.
  destruct (Qeq_dec x 0) as [Hz|Hnz].
  - rewrite (round_zero x Hz). lra.
  - rewrite (round_nonzero x Hnz). apply Qmult_le_compat_r; [|lra].
    rewrite <- Zle_Qle. apply nearest_even_ge.
    apply Qle_shift_div_l; assumption.
Qed.

Lemma Qabs_nonzero x : ~ x == 0 -> 0 < Qabs x.
Proof.
  intros Hnz. destruct (Q_dec x 0) as [[H|H]|H]; [| |contradiction].
  - rewrite Qabs_neg; lra.
  - rewrite Qabs_pos; lra.
Qed.

Lemma ulp_exp_compat x y : ~ x == 0 -> x == y -> ulp_exp x = ulp_exp y.
Proof.
  intros Hnz Hxy. unfold ulp_exp. f_equal. f_equal.
  apply ilog2_compat; [by apply Qabs_nonzero|by rewrite Hxy].
Qed.

Lemma round_compat x y : x == y -> round x == round y.
Proof.
  intros Hxy. destruct (Qeq_dec x 0) as [Hz|Hnz].
  - rewrite (round_zero x Hz), (round_zero y); [reflexivity|lra].
  - rewrite (round_nonzero x Hnz), (round_nonzero y) by lra.
    rewrite <- (ulp_exp_compat x y Hnz Hxy).
    rewrite (nearest_even_compat (x / pow2 (ulp_exp x)) (y / pow2 (ulp_exp x))); [reflexivity|].
    generalize (pow2 (ulp_exp x)). intros P. by rewrite Hxy.
Qed.

Lemma round_same_ulp x y :
  ~ x == 0 -> ~ y == 0 -> ulp_exp x = ulp_exp y -> x <= y -> round x <= round y.
Proof.
  intros Hx Hy Hq Hxy. rewrite (round_nonzero x Hx), (round_nonzero y Hy), <- Hq.
  pose proof (pow2_pos (ulp_exp x)) as HP.
  apply Qmult_le_compat_r; [|lra]. rewrite <- Zle_Qle. apply nearest_even_mono.
  apply Qmult_le_compat_r; [exact Hxy|]. apply Qlt_le_weak, Qinv_lt_0_compat, HP.
Qed.

Lemma round_mono_pos x y : 0 < x -> x <= y -> round x <= round y.
Proof.
  intros Hx Hxy.
  assert (Qabs x == x) as Hax by (apply Qabs_pos; lra).
  assert (Qabs y == y) as Hay by (apply Qabs_pos; lra).
  assert (ilog2 (Qabs x) = ilog2 x) as Hex by (apply ilog2_compat; lra).
  assert (ilog2 (Qabs y) = ilog2 y) as Hey by (apply ilog2_compat; lra).
  pose proof (ilog2_mono x y Hx Hxy) as Hle.
  destruct (ilog2_spec x Hx) as [Hx1 Hx2]. destruct (ilog2_spec y) as [Hy1 Hy2]; [lra|].
  destruct (Z.eq_dec (ulp_exp x) (ulp_exp y)) as [Heq|Hne].
  - apply round_same_ulp; try assumption; lra.
  - assert (ulp_exp x < ulp_exp y)%Z as Hlt by (unfold ulp_exp in *; lia).
    assert (ilog2 x + 1 <= ilog2 y)%Z as Hexy by (unfold ulp_exp in *; lia).
    assert (ulp_exp x <= ilog2 y)%Z as H1 by (unfold ulp_exp in *; lia).
    assert (ulp_exp y <= ilog2 y)%Z as H2 by (unfold ulp_exp in *; lia).
    pose proof (pow2_le _ _ Hexy) as Hp.
    apply Qle_trans with (pow2 (ilog2 y)).
    + rewrite (pow2_split _ _ H1). apply round_grid_le. rewrite <- (pow2_split _ _ H1). lra.
    + rewrite (pow2_split _ _ H2). apply round_grid_ge. rewrite <- (pow2_split _ _ H2). lra.
Qed.

Lemma round_mono_neg x y : y < 0 -> x <= y -> round x <= round y.
Proof.
  intros Hy Hxy.
  assert (Qabs x == - x) as Hax by (apply Qabs_neg; lra).
  assert (Qabs y == - y) as Hay by (apply Qabs_neg; lra).
  assert (ilog2 (Qabs x) = ilog2 (- x)) as Hex by (apply ilog2_compat; lra).
  assert (ilog2 (Qabs y) = ilog2 (- y)) as Hey by (apply ilog2_compat; lra).
  assert (ilog2 (- y) <= ilog2 (- x))%Z as Hle by (apply ilog2_mono; lra).
  destruct (ilog2_spec (- x)) as [Hx1 Hx2]; [lra|].
  destruct (ilog2_spec (- y)) as [Hy1 Hy2]; [lra|].
  destruct (Z.eq_dec (ulp_exp x) (ulp_exp y)) as [Heq|Hne].
  - apply round_same_ulp; try assumption; lra.
  - assert (ulp_exp y < ulp_exp x)%Z as Hlt by (unfold ulp_exp in *; lia).
    assert (ilog2 (- y) + 1 <= ilog2 (- x))%Z as Hexy by (unfold ulp_exp in *; lia).
    assert (ulp_exp x <= ilog2 (- x))%Z as H1 by (unfold ulp_exp in *; lia).
    assert (ulp_exp y <= ilog2 (- x))%Z as H2 by (unfold ulp_exp in *; lia).
    pose proof (pow2_le _ _ Hexy) as Hp.
    apply Qle_trans with (- pow2 (ilog2 (- x))).
    + assert (- pow2 (ilog2 (- x)) ==
              inject_Z (- 2 ^ (ilog2 (- x) - ulp_exp x)) * pow2 (ulp_exp x)) as Hg.
      { rewrite inject_Z_opp, (pow2_split _ _ H1). ring. }
      rewrite Hg. apply round_grid_le. rewrite <- Hg. lra.
    + assert (- pow2 (ilog2 (- x)) ==
              inject_Z (- 2 ^ (ilog2 (- x) - ulp_exp y)) * pow2 (ulp_exp y)) as Hg.
      { rewrite inject_Z_opp, (pow2_split _ _ H2). ring. }
      rewrite Hg. apply round_grid_ge. rewrite <- Hg. lra.
Qed.

(** Rounding is monotone. *)
Lemma round_mono x y : x <= y -> round x <= round y.
Proof.
  intros Hxy. destruct (Qlt_le_dec 0 x) as [Hx|Hx].
  - by apply round_mono_pos.
  - destruct (Qlt_le_dec y 0) as [Hy|Hy].
    + by apply round_mono_neg.
    + apply Qle_trans with 0.
      * assert (0 == inject_Z 0 * pow2 (ulp_exp x)) as -> by ring.
        apply round_grid_le. change (inject_Z 0) with 0. lra.
      * assert (0 == inject_Z 0 * pow2 (ulp_exp y)) as -> by ring.
        apply round_grid_ge. change (inject_Z 0) with 0. lra.
Qed.

(** A number with at most 53 significant bits and an exponent in range is
    a binary64 number. *)
Lemma round_dyadic_lt (m e : Z) :
  (Z.abs m < 2 ^ 53)%Z -> (-1074 <= e)%Z ->
  round (inject_Z m * pow2 e) == inject_Z m * pow2 e.
Proof.
  intros Hm He. set (x := inject_Z m * pow2 e).
  pose proof (pow2_pos e) as HPe.
  destruct (Z.eq_dec m 0%Z) as [->|Hm0].
  { rewrite (round_zero x); unfold x; ring. }
  assert (~ x == 0) as Hnz.
  { unfold x. intros H. apply Qmult_integral in H as [H|H]; [|lra].
    apply Hm0. apply (inject_Z_injective m 0%Z). exact H. }
  assert (Qabs x == inject_Z (Z.abs m) * pow2 e) as Habs.
  { unfold x. rewrite Qabs_Qmult, (Qabs_pos (pow2 e)) by lra.
    apply Qmult_comp; [|reflexivity]. unfold Qabs, inject_Z. reflexivity. }
  assert (ulp_exp x <= e)%Z as Hq.
  { destruct (ilog2_spec (Qabs x) (Qabs_nonzero x Hnz)) as [H1 _].
    assert (Qabs x < pow2 (53 + e)) as H2.
    { rewrite Habs, pow2_plus. apply Qmult_lt_compat_r; [exact HPe|].
      rewrite pow2_Z by lia. rewrite <- Zlt_Qlt. exact Hm. }
    assert (ilog2 (Qabs x) < 53 + e)%Z by (apply pow2_lt_inv; lra).
    unfold ulp_exp. lia. }
  pose proof (pow2_pos (ulp_exp x)) as HP.
  assert (x == inject_Z (m * 2 ^ (e - ulp_exp x)) * pow2 (ulp_exp x)) as Hk.
  { unfold x at 1. rewrite (pow2_split _ _ Hq), inject_Z_mult. ring. }
  rewrite (round_nonzero x Hnz).
  rewrite (nearest_even_compat _ (inject_Z (m * 2 ^ (e - ulp_exp x)))).
  - rewrite nearest_even_Z. symmetry. exact Hk.
  - rewrite Hk at 1. field. lra.
Qed.

Lemma round_dyadic (m e : Z) :
  (Z.abs m <= 2 ^ 53)%Z -> (-1074 <= e)%Z ->
  round (inject_Z m * pow2 e) == inject_Z m * pow2 e.
Proof.
  intros Hm He. destruct (Z.eq_dec (Z.abs m) (2 ^ 53)%Z) as [Heq|Hne].
  - assert (inject_Z m * pow2 e == inject_Z (m / 2) * pow2 (e + 1)) as Hx.
    { rewrite pow2_succ.
      assert (m = 2 * (m / 2))%Z as Hm2.
      { destruct (Z.abs_eq_or_opp m) as [H|H]; rewrite H in Heq.
        - rewrite Heq. reflexivity.
        - assert (m = - 2 ^ 53)%Z as -> by lia. reflexivity. }
      rewrite Hm2 at 1. rewrite inject_Z_mult. change (inject_Z 2) with 2. ring. }
    rewrite (round_compat _ _ Hx), Hx. apply round_dyadic_lt; [|lia].
    destruct (Z.abs_eq_or_opp m) as [H|H]; rewrite H in Heq.
    + rewrite Heq. reflexivity.
    + assert (m = - 2 ^ 53)%Z as -> by lia. reflexivity.
  - apply round_dyadic_lt; [lia|exact He].
Qed.

(** The integers up to 2^53 in magnitude are binary64 numbers. *)
Lemma round_Z (z : Z) : (Z.abs z <= 2 ^ 53)%Z -> round (inject_Z z) == inject_Z z.
Proof.
  intros Hz. assert (inject_Z z == inject_Z z * pow2 0) as Hx.
  { change (pow2 0) with 1. ring. }
  rewrite (round_compat _ _ Hx), round_dyadic by (assumption || lia).
  symmetry. exact Hx.
Qed.

End DoubleRounding.

(** ** Histogram: the bucket array *)

Section HistogramBuckets.
Import Constants Histogram.

Implicit Types (bs : list Z) (h : t) (i j v : Z).

Lemma wrap32_small z : 0 <= z < 2 ^ 32 -> wrap32 z = z.
Proof. intros Hz. unfold wrap32. by apply Z.mod_small. Qed.

Lemma wrap32_range z : 0 <= wrap32 z < 2 ^ 32.
Proof. unfold wrap32. apply Z.mod_pos_bound. lia. Qed.

Lemma bucket_get_Some bs i b :
  bucket_get bs i = Some b <-> 0 <= i /\ bs !! Z.to_nat i = Some b.
Proof.
  unfold bucket_get. destruct (Z.ltb_spec i 0); split; try done.
  - intros [? _]; lia.
  - intros [_ ?]; done.
Qed.

Lemma bucket_get_in_range bs i :
  0 <= i < Z.of_nat (length bs) -> is_Some (bucket_get bs i).
Proof.
  intros [Hlo Hhi]. unfold bucket_get.
  destruct (Z.ltb_spec i 0); [lia|].
  apply lookup_lt_is_Some. lia.
Qed.

Lemma bucket_get_set bs i j v :
  0 <= i < Z.of_nat (length bs) ->
  bucket_get (bucket_set bs i v) j =
    if j =? i then Some (wrap32 v) else bucket_get bs j.
Proof.
  intros [Hlo Hhi]. unfold bucket_get, bucket_set.
  destruct (Z.ltb_spec i 0); [lia|].
  destruct (Z.eqb_spec j i) as [->|Hne].
  - destruct (Z.ltb_spec i 0); [lia|].
    apply list_lookup_insert_eq. lia.
  - destruct (Z.ltb_spec j 0); [done|].
    apply list_lookup_insert_ne. lia.
Qed.

Lemma length_bucket_set bs i v : length (bucket_set bs i v) = length bs.
Proof. unfold bucket_set. destruct (i <? 0); [done|]. apply length_insert. Qed.

Lemma Forall_bucket_set bs i v :
  Forall (fun b => 0 <= b < 2 ^ 32) bs ->
  Forall (fun b => 0 <= b < 2 ^ 32) (bucket_set bs i v).
Proof.
  intros Hbs. unfold bucket_set. destruct (i <? 0); [done|].
  apply Forall_insert; [done|]. apply wrap32_range.
Qed.

Lemma bucket_total_insert bs (n : nat) old new :
  bs !! n = Some old ->
  bucket_total (<[n := new]> bs) = bucket_total bs - old + new.
Proof.
  revert n. induction bs as [|b bs IH]; intros [|n] Hn; simplify_eq/=.
  - lia.
  - rewrite (IH n) by done. lia.
Qed.

Lemma bucket_total_bound bs (n : nat) b :
  Forall (fun b => 0 <= b < 2 ^ 32) bs -> bs !! n = Some b -> b <= bucket_total bs.
Proof.
  intros Hbs. revert n. induction Hbs as [|x bs Hx Hbs IH]; intros [|n] Hn; simplify_eq/=.
  - assert (0 <= bucket_total bs); [|lia].
    clear -Hbs. induction Hbs; simpl in *; lia.
  - specialize (IH _ Hn). simpl in Hx. lia.
Qed.

Lemma BUCKET_WIDTH_US_value : BUCKET_WIDTH_US = 1000.
Proof. reflexivity. Qed.

Lemma safeIndex_range v : 0 <= v -> 0 <= safeIndex v <= HISTOGRAM_BUCKETS - 1.
Proof.
  intros Hv. unfold safeIndex. rewrite BUCKET_WIDTH_US_value.
  unfold MAX_LATENCY_US, HISTOGRAM_BUCKETS.
  assert (0 <= Z.min v (10000000 - 1) / 1000) by (apply Z.div_pos; lia).
  lia.
Qed.

Lemma safeIndex_floor v :
  0 <= v -> safeIndex v = Z.min v (MAX_LATENCY_US - 1) / BUCKET_WIDTH_US.
Proof.
  intros Hv. unfold safeIndex. rewrite BUCKET_WIDTH_US_value.
  unfold MAX_LATENCY_US, HISTOGRAM_BUCKETS.
  apply Z.min_l.
  assert (Z.min v (10000000 - 1) / 1000 <= 9999999 / 1000)
    by (apply Z.div_le_mono; lia).
  change (9999999 / 1000) with 9999 in *. lia.
Qed.

Lemma safeIndex_last v : MAX_LATENCY_US <= v -> safeIndex v = HISTOGRAM_BUCKETS - 1.
Proof.
  intros Hv. unfold safeIndex. rewrite BUCKET_WIDTH_US_value.
  unfold MAX_LATENCY_US, HISTOGRAM_BUCKETS in *.
  rewrite (Z.min_r v) by lia. reflexivity.
Qed.

Lemma shape_ok_empty : shape_ok empty.
Proof.
  unfold shape_ok, empty. cbn [buckets]. split.
  - apply length_replicate.
  - apply Forall_replicate. lia.
Qed.

Lemma shape_ok_record v h : shape_ok h -> shape_ok (record v h).
Proof.
  intros [Hlen Hall]. unfold record; split; simpl.
  - destruct (bucket_get _ _); [|done]. by rewrite length_bucket_set.
  - destruct (bucket_get _ _); [|done]. by apply Forall_bucket_set.
Qed.

Lemma record_all_snoc vs v h : record_all (vs ++ [v]) h = record v (record_all vs h).
Proof. unfold record_all. by rewrite foldl_app. Qed.

Lemma shape_ok_record_all vs h : shape_ok h -> shape_ok (record_all vs h).
Proof.
  induction vs as [|v vs IH] using rev_ind; [done|].
  intros Hh. rewrite record_all_snoc. by apply shape_ok_record, IH.
Qed.

(** Reading the bucket array after [record]. *)
Lemma record_buckets v h j :
  shape_ok h -> 0 <= v ->
  bucket_get (buckets (record v h)) j =
    if j =? safeIndex v then (fun b => wrap32 (b + 1)) <$> bucket_get (buckets h) j
    else bucket_get (buckets h) j.
Proof.
  intros [Hlen Hall] Hv.
  pose proof (safeIndex_range v Hv) as Hi.
  assert (0 <= safeIndex v < Z.of_nat (length (buckets h))) as Hin.
  { rewrite Hlen, Z2Nat.id; unfold HISTOGRAM_BUCKETS in *; lia. }
  destruct (bucket_get_in_range _ _ Hin) as [b Hb].
  unfold record; simpl. rewrite Hb.
  rewrite bucket_get_set by done.
  destruct (Z.eqb_spec j (safeIndex v)) as [->|]; [by rewrite Hb|done].
Qed.

End HistogramBuckets.

(** ** Histogram: [record] and the running statistics *)

Section HistogramRecord.
Import Constants Histogram.

Implicit Types (bs : list Z) (h : t) (i j v : Z).

Lemma record_bucket_total v h :
  shape_ok h -> 0 <= v ->
  bucket_total (buckets h) = count h -> count h + 1 < 2 ^ 32 ->
  bucket_total (buckets (record v h)) = count h + 1.
Proof.
  intros [Hlen Hall] Hv Htot Hcnt.
  pose proof (safeIndex_range v Hv) as Hi.
  assert (0 <= safeIndex v < Z.of_nat (length (buckets h))) as Hin.
  { rewrite Hlen, Z2Nat.id; unfold HISTOGRAM_BUCKETS in *; lia. }
  destruct (bucket_get_in_range _ _ Hin) as [b Hb].
  unfold record; cbn [buckets]. rewrite Hb.
  apply bucket_get_Some in Hb as [_ Hb].
  unfold bucket_set. destruct (Z.ltb_spec (safeIndex v) 0); [lia|].
  rewrite (bucket_total_insert _ _ b) by done.
  pose proof (bucket_total_bound _ _ _ Hall Hb).
  assert (0 <= b) by (eapply Forall_lookup_1 in Hall; [|done]; simpl in Hall; lia).
  rewrite wrap32_small by lia. lia.
Qed.

Lemma record_all_counted vs :
  Forall (fun x => 0 <= x) vs -> Z.of_nat (length vs) < 2 ^ 32 ->
  bucket_total (buckets (record_all vs empty)) = count (record_all vs empty) /\
  count (record_all vs empty) = Z.of_nat (length vs).
Proof.
  induction vs as [|v vs IH] using rev_ind; intros Hvs Hlen.
  - split; [|done]. unfold record_all, empty. cbn [foldl buckets count].
    generalize (Z.to_nat HISTOGRAM_BUCKETS). intros n. induction n; simpl; lia.
  - apply Forall_app in Hvs as [Hvs Hv]. apply Forall_inv in Hv.
    rewrite length_app in Hlen. simpl in Hlen.
    destruct IH as [IH1 IH2]; [done|lia|].
    rewrite record_all_snoc, length_app. simpl length.
    assert (count (record v (record_all vs empty)) = count (record_all vs empty) + 1)
      as Hc by reflexivity.
    rewrite Hc. split; [|lia].
    apply record_bucket_total; [by apply shape_ok_record_all, shape_ok_empty|exact Hv|exact IH1|lia].
Qed.

(** The running statistics bracket the mean: count·min ≤ sum ≤ count·max. *)
Lemma record_all_brackets vs :
  let h := record_all vs empty in
  0 <= count h /\ 0 <= Histogram.max h /\
  count h * Histogram.min h <= sum h <= count h * Histogram.max h.
Proof.
  induction vs as [|v vs IH] using rev_ind.
  - simpl. unfold MAX_SAFE_INTEGER. lia.
  - rewrite record_all_snoc. simpl in *.
    destruct IH as (Hc & Hm & Hlo & Hhi).
    destruct (Z.ltb_spec v (Histogram.min (record_all vs empty)));
    destruct (Z.ltb_spec (Histogram.max (record_all vs empty)) v); nia.
Qed.

Lemma record_all_max vs : Histogram.max (record_all vs empty) = foldl Z.max 0 vs.
Proof.
  induction vs as [|v vs IH] using rev_ind; [done|].
  rewrite record_all_snoc, foldl_app. simpl. rewrite IH.
  destruct (Z.ltb_spec (foldl Z.max 0 vs) v); lia.
Qed.

Lemma mean_bracketed h :
  0 <= count h -> 0 <= Histogram.max h ->
  count h * Histogram.min h <= sum h <= count h * Histogram.max h ->
  (inject_Z (getMin h) <= getMean h)%Q /\ (getMean h <= inject_Z (getMax h))%Q.
Proof.
  intros Hc Hm [Hlo Hhi]. unfold getMin, getMean, getMax.
  destruct (Z.ltb_spec 0 (count h)) as [Hpos|Hz].
  - assert (0 < inject_Z (count h))%Q as Hq.
    { change 0%Q with (inject_Z 0). by rewrite <- Zlt_Qlt. }
    split.
    + apply Qle_shift_div_l; [done|].
      rewrite <- inject_Z_mult, <- Zle_Qle. lia.
    + apply Qle_shift_div_r; [done|].
      rewrite <- inject_Z_mult, <- Zle_Qle. lia.
  - split; [apply Qle_refl|]. change 0%Q with (inject_Z 0). by rewrite <- Zle_Qle.
Qed.




End HistogramRecord.

(** ** Histogram: the loop of [import] *)

Section HistogramMerge.
Import Constants Histogram.

Implicit Types (bs : list Z) (h : t) (i j v : Z).

Lemma bucket_get_nat bs (n : nat) : bucket_get bs (Z.of_nat n) = bs !! n.
Proof.
  unfold bucket_get. destruct (Z.ltb_spec (Z.of_nat n) 0); [lia|].
  by rewrite Nat2Z.id.
Qed.

Lemma import_step_lookup incoming bs (n k : nat) :
  import_step incoming bs n !! k =
    if decide (k = n)
    then (fun c => wrap32 (c + default 0 (incoming !! n))) <$> bs !! k
    else bs !! k.
Proof.
  unfold import_step. rewrite !bucket_get_nat.
  unfold bucket_set. destruct (Z.ltb_spec (Z.of_nat n) 0); [lia|].
  rewrite Nat2Z.id.
  destruct (decide (k = n)) as [->|Hne].
  - destruct (bs !! n) as [c|] eqn:Hc; simpl.
    + apply list_lookup_insert_eq. by eapply lookup_lt_Some.
    + done.
  - destruct (bs !! n) as [c|]; [|done].
    by apply list_lookup_insert_ne.
Qed.

(** The bucket array after the loop of [import] over indices [0 .. n-1]. *)
Lemma import_loop_lookup incoming bs (n k : nat) :
  foldl (import_step incoming) bs (seq 0 n) !! k =
    if decide (k < n)%nat
    then (fun c => wrap32 (c + default 0 (incoming !! k))) <$> bs !! k
    else bs !! k.
Proof.
  induction n as [|n IH].
  - simpl. by destruct (decide (k < 0)%nat); [lia|].
  - rewrite seq_S, foldl_app. simpl. rewrite import_step_lookup, IH.
    destruct (decide (k = n)) as [->|Hne].
    + destruct (decide (n < n)%nat); [lia|].
      by destruct (decide (n < S n)%nat); [|lia].
    + destruct (decide (k < n)%nat); destruct (decide (k < S n)%nat); done || lia.
Qed.

Lemma import_loop_length incoming bs (n : nat) :
  length (foldl (import_step incoming) bs (seq 0 n)) = length bs.
Proof.
  induction n as [|n IH]; [done|].
  rewrite seq_S, foldl_app. simpl. unfold import_step at 1.
  destruct (bucket_get _ _); [|done]. by rewrite length_bucket_set.
Qed.

Lemma import_loop_range incoming bs (n : nat) :
  Forall (fun b => 0 <= b < 2 ^ 32) bs ->
  Forall (fun b => 0 <= b < 2 ^ 32) (foldl (import_step incoming) bs (seq 0 n)).
Proof.
  intros Hbs. induction n as [|n IH]; [done|].
  rewrite seq_S, foldl_app. simpl. unfold import_step at 1.
  destruct (bucket_get _ _); [|done]. by apply Forall_bucket_set.
Qed.

Lemma wrap32_add_l a b : wrap32 (wrap32 a + b) = wrap32 (a + b).
Proof. unfold wrap32. by rewrite Zplus_mod_idemp_l. Qed.

Lemma wrap32_add_r a b : wrap32 (a + wrap32 b) = wrap32 (a + b).
Proof. unfold wrap32. by rewrite Zplus_mod_idemp_r. Qed.

(** Two imports into the same histogram can be exchanged, whatever the data. *)
Lemma import_exchange d1 d2 h : import d2 (import d1 h) = import d1 (import d2 h).
Proof.
  unfold import. cbn [buckets count Histogram.min Histogram.max sum].
  generalize (Z.to_nat HISTOGRAM_BUCKETS) as n. intros n. f_equal.
  - apply list_eq. intros k. rewrite !import_loop_lookup.
    destruct (decide (k < n)%nat); [|done].
    destruct (buckets h !! k) as [c|]; [|done]. simpl. f_equal.
    rewrite !wrap32_add_l. f_equal. lia.
  - lia.
  - destruct (0 <? count d1), (0 <? count d2); try done.
    destruct (Z.ltb_spec (Histogram.min d1) (Histogram.min h));
    destruct (Z.ltb_spec (Histogram.min d2) (Histogram.min h));
    repeat case_match; rewrite ?Z.ltb_lt, ?Z.ltb_ge in *; lia.
  - destruct (0 <? count d1), (0 <? count d2); try done.
    destruct (Z.ltb_spec (Histogram.max h) (Histogram.max d1));
    destruct (Z.ltb_spec (Histogram.max h) (Histogram.max d2));
    repeat case_match; rewrite ?Z.ltb_lt, ?Z.ltb_ge in *; lia.
  - lia.
Qed.

Lemma export_id h : export h = h.
Proof. by destruct h. Qed.

Lemma well_formed_empty : well_formed empty.
Proof.
  split; [apply shape_ok_empty|]. cbn. unfold MAX_SAFE_INTEGER. repeat split; lia.
Qed.

Lemma well_formed_record v h : well_formed h -> well_formed (record v h).
Proof.
  intros (Hs & Hc & Hmin & Hmax & Hz). split; [by apply shape_ok_record|].
  cbn [record count Histogram.min Histogram.max].
  destruct (Z.ltb_spec v (Histogram.min h)); destruct (Z.ltb_spec (Histogram.max h) v);
    repeat split; lia.
Qed.

Lemma well_formed_merge other h : well_formed other -> well_formed h -> well_formed (merge other h).
Proof.
  intros (Hs' & Hc' & Hmin' & Hmax' & Hz') (Hs & Hc & Hmin & Hmax & Hz).
  split.
  - destruct Hs as [Hl Hr]. split; cbn [merge import buckets].
    + by rewrite import_loop_length.
    + by apply import_loop_range.
  - unfold merge. rewrite export_id. cbn [import count Histogram.min Histogram.max].
    destruct (Z.ltb_spec 0 (count other));
    destruct (Z.ltb_spec (Histogram.min other) (Histogram.min h));
    destruct (Z.ltb_spec (Histogram.max h) (Histogram.max other));
    repeat split; lia.
Qed.

End HistogramMerge.

(** ** Histogram: [merge] is commutative and associative *)

Section HistogramMergeLaws.
Import Constants Histogram.

Implicit Types (bs : list Z) (h : t) (i j v : Z).

Lemma merge_exchange A B C : merge C (merge B A) = merge B (merge C A).
Proof. unfold merge. rewrite !export_id. apply import_exchange. Qed.

Lemma merge_buckets_lookup A B (k : nat) :
  shape_ok A -> shape_ok B ->
  buckets (merge B A) !! k =
    match buckets A !! k, buckets B !! k with
    | Some a, Some b => Some (wrap32 (a + b))
    | _, _ => None
    end.
Proof.
  intros [HA _] [HB _]. unfold merge. rewrite export_id.
  cbn [import buckets]. rewrite import_loop_lookup.
  destruct (decide (k < Z.to_nat HISTOGRAM_BUCKETS)%nat) as [Hk|Hk].
  - destruct (lookup_lt_is_Some_2 (buckets A) k) as [a Ha]; [by rewrite HA|].
    destruct (lookup_lt_is_Some_2 (buckets B) k) as [b Hb]; [by rewrite HB|].
    by rewrite Ha, Hb.
  - rewrite (lookup_ge_None_2 (buckets A) k); [done|]. rewrite HA. revert Hk.
    generalize (Z.to_nat HISTOGRAM_BUCKETS). intros; lia.
Qed.

Lemma merge_comm A B : well_formed A -> well_formed B -> merge B A = merge A B.
Proof.
  intros (HsA & HcA & HminA & HmaxA & HzA) (HsB & HcB & HminB & HmaxB & HzB).
  assert (buckets (merge B A) = buckets (merge A B)) as Hb.
  { apply list_eq. intros k. rewrite !merge_buckets_lookup by assumption.
    destruct (buckets A !! k), (buckets B !! k); try done.
    do 2 f_equal. lia. }
  revert Hb. unfold merge. rewrite !export_id. unfold import.
  cbn [buckets count Histogram.min Histogram.max sum]. intros ->.
  f_equal; try lia.
  - destruct (Z.ltb_spec 0 (count A)); destruct (Z.ltb_spec 0 (count B));
    destruct (Z.ltb_spec (Histogram.min A) (Histogram.min B));
    destruct (Z.ltb_spec (Histogram.min B) (Histogram.min A)); lia.
  - destruct (Z.ltb_spec 0 (count A)); destruct (Z.ltb_spec 0 (count B));
    destruct (Z.ltb_spec (Histogram.max A) (Histogram.max B));
    destruct (Z.ltb_spec (Histogram.max B) (Histogram.max A)); lia.
Qed.

Lemma merge_assoc A B C :
  well_formed A -> well_formed B -> well_formed C ->
  merge (merge C B) A = merge C (merge B A).
Proof.
  intros HA HB HC.
  pose proof (well_formed_merge C B HC HB) as HCB.
  pose proof (well_formed_merge B A HB HA) as HBA.
  assert (buckets (merge (merge C B) A) = buckets (merge C (merge B A))) as Hb.
  { pose proof (proj1 HA). pose proof (proj1 HB). pose proof (proj1 HC).
    pose proof (proj1 HCB). pose proof (proj1 HBA).
    apply list_eq. intros k.
    rewrite !merge_buckets_lookup by assumption.
    destruct (buckets A !! k), (buckets B !! k), (buckets C !! k); try done.
    f_equal. rewrite wrap32_add_l, wrap32_add_r. f_equal. lia. }
  destruct HA as (HsA & HcA & HminA & HmaxA & HzA).
  destruct HB as (HsB & HcB & HminB & HmaxB & HzB).
  destruct HC as (HsC & HcC & HminC & HmaxC & HzC).
  revert Hb. unfold merge. rewrite !export_id. unfold import.
  cbn [buckets count Histogram.min Histogram.max sum]. intros ->.
  f_equal; try lia.
  - destruct (Z.ltb_spec 0 (count B)); destruct (Z.ltb_spec 0 (count C));
    destruct (Z.ltb_spec 0 (count B + count C)); try lia;
    ltb_cases; lia.
  - destruct (Z.ltb_spec 0 (count B)); destruct (Z.ltb_spec 0 (count C));
    destruct (Z.ltb_spec 0 (count B + count C)); try lia;
    ltb_cases; lia.
Qed.

Lemma merge_min_max A B :
  well_formed A -> well_formed B ->
  Histogram.min (merge B A) = Z.min (Histogram.min A) (Histogram.min B) /\
  Histogram.max (merge B A) = Z.max (Histogram.max A) (Histogram.max B).
Proof.
  intros (HsA & HcA & HminA & HmaxA & HzA) (HsB & HcB & HminB & HmaxB & HzB).
  unfold merge. rewrite export_id. cbn [import Histogram.min Histogram.max].
  destruct (Z.ltb_spec 0 (count B));
    ltb_cases; lia.
Qed.



End HistogramMergeLaws.

(** ** Histogram: the scan of [getPercentile] *)

Section HistogramPercentile.
Import Constants Histogram.

Implicit Types (bs : list Z) (h : t) (i j v : Z).

Lemma bucket_total_app bs1 bs2 :
  bucket_total (bs1 ++ bs2) = bucket_total bs1 + bucket_total bs2.
Proof. induction bs1 as [|b bs1 IH]; simpl; [done|]. rewrite IH. lia. Qed.

Lemma bucket_total_take_S bs (k : nat) b :
  bs !! k = Some b -> bucket_total (take (S k) bs) = bucket_total (take k bs) + b.
Proof.
  intros Hk. rewrite (take_S_r _ _ _ Hk), bucket_total_app. simpl. lia.
Qed.

Lemma cumulative_nat bs (k : nat) : cumulative bs (Z.of_nat k) = bucket_total (take (S k) bs).
Proof. unfold cumulative. do 2 f_equal. lia. Qed.

(** The scan stops at the first index whose cumulative count reaches the
    target, provided some index among the remaining ones does. *)
Lemma percentile_loop_first bs target (n k : nat) :
  (k + n <= length bs)%nat ->
  (exists m : nat, (k <= m < k + n)%nat /\ target <= cumulative bs (Z.of_nat m)) ->
  exists m : nat,
    (k <= m < k + n)%nat /\
    target <= cumulative bs (Z.of_nat m) /\
    (forall m' : nat, (k <= m' < m)%nat -> cumulative bs (Z.of_nat m') < target) /\
    percentile_loop bs target n (Z.of_nat k) (bucket_total (take k bs)) = midpoint (Z.of_nat m).
Proof.
  revert k. induction n as [|n IH]; intros k Hlen (m & Hm & Hreach); [lia|].
  destruct (lookup_lt_is_Some_2 bs k) as [b Hb]; [lia|].
  cbn [percentile_loop]. rewrite bucket_get_nat, Hb.
  rewrite <- (bucket_total_take_S _ _ _ Hb), <- cumulative_nat.
  destruct (Z.leb_spec target (cumulative bs (Z.of_nat k))) as [Hle|Hgt].
  - exists k. split; [lia|]. split; [done|]. split; [intros; lia|done].
  - destruct (IH (S k)) as (m1 & Hm1 & Hr1 & Hfirst & Heq).
    + lia.
    + exists m. split; [|done].
      destruct (decide (m = k)) as [->|]; [lia|lia].
    + exists m1. split; [lia|]. split; [done|]. split.
      * intros m' Hm'. destruct (decide (m' = k)) as [->|]; [done|]. apply Hfirst. lia.
      * rewrite <- Heq. rewrite cumulative_nat. f_equal. lia.
Qed.

Lemma bucket_total_nonneg bs :
  Forall (fun b => 0 <= b < 2 ^ 32) bs -> 0 <= bucket_total bs.
Proof. induction 1; simpl in *; lia. Qed.

Lemma bucket_count_succ : exists n : nat, Z.to_nat HISTOGRAM_BUCKETS = S n.
Proof. exists (Z.to_nat (HISTOGRAM_BUCKETS - 1)). reflexivity. Qed.

Lemma bucket_total_upper bs :
  Forall (fun b => 0 <= b < 2 ^ 32) bs -> bucket_total bs <= Z.of_nat (length bs) * 2 ^ 32.
Proof.
  induction 1 as [|b bs Hb _ IH]; [done|].
  simpl in Hb. cbn [length]. rewrite Nat2Z.inj_succ.
  unfold bucket_total in *. cbn [foldr]. lia.
Qed.

(** The count of a histogram whose buckets add up to it is far below 2^53:
    it is a binary64 number. *)
Lemma count_small h :
  shape_ok h -> bucket_total (buckets h) = count h -> 0 <= count h <= 2 ^ 53.
Proof.
  intros [Hlen Hall] Htot.
  pose proof (bucket_total_nonneg _ Hall). pose proof (bucket_total_upper _ Hall) as Hup.
  rewrite Hlen in Hup. rewrite Z2Nat.id in Hup by (by vm_compute).
  unfold HISTOGRAM_BUCKETS in Hup. lia.
Qed.

Lemma round_percent_le_1 p : (p <= 100)%Q -> (Double.round (p / 100) <= 1)%Q.
Proof.
  intros Hp. rewrite <- (round_Z 1) by (by vm_compute).
  apply round_mono. apply Qle_shift_div_r; [reflexivity|]. by rewrite Qmult_1_l.
Qed.

Lemma round_percent_nonneg p : (0 <= p)%Q -> (0 <= Double.round (p / 100))%Q.
Proof.
  intros Hp. rewrite <- (round_Z 0) by (by vm_compute).
  apply round_mono. apply Qle_shift_div_l; [reflexivity|]. by rewrite Qmult_0_l.
Qed.

Lemma targetCount_le_count p h :
  0 <= count h <= 2 ^ 53 -> (p <= 100)%Q -> targetCount p h <= count h.
Proof.
  intros Hc Hp. unfold targetCount.
  rewrite <- (Qceiling_Z (count h)) at 2. apply Qceiling_resp_le.
  assert (0 <= inject_Z (count h))%Q.
  { change 0%Q with (inject_Z 0). rewrite <- Zle_Qle. lia. }
  rewrite <- (round_Z (count h)) at 2 by lia. apply round_mono.
  apply Qle_trans with (1 * inject_Z (count h))%Q.
  - apply Qmult_le_compat_r; [by apply round_percent_le_1|done].
  - rewrite Qmult_1_l. apply Qle_refl.
Qed.

Lemma targetCount_nonneg p h : 0 <= count h -> (0 <= p)%Q -> 0 <= targetCount p h.
Proof.
  intros Hc Hp. unfold targetCount.
  rewrite <- (Qceiling_Z 0). apply Qceiling_resp_le.
  rewrite <- (round_Z 0) by (by vm_compute). apply round_mono.
  apply Qmult_le_0_compat; [by apply round_percent_nonneg|].
  change 0%Q with (inject_Z 0). by rewrite <- Zle_Qle.
Qed.

(** Where the quotient p / 100 and the product are binary64 numbers the
    target is the exact ceiling. *)
Lemma targetCount_exact p h :
  0 <= count h <= 2 ^ 53 -> (p == 0 \/ p == 50 \/ p == 100)%Q ->
  targetCount p h = Qceiling ((p / 100) * inject_Z (count h))%Q.
Proof.
  intros Hc Hp. unfold targetCount.
  assert (exists m e, (Z.abs m <= 1)%Z /\ -1 <= e <= 0 /\
            (p / 100 == inject_Z m * Double.pow2 e)%Q) as (m & e & Hm & He & Hq).
  { destruct Hp as [Hp|[Hp|Hp]]; [exists 0, 0|exists 1, (-1)|exists 1, 0];
      (split; [by vm_compute|]); (split; [lia|]); rewrite Hp; reflexivity. }
  apply Qceiling_comp.
  assert (Double.round (p / 100) == p / 100)%Q as Hr1.
  { rewrite (round_compat _ _ Hq), Hq. apply round_dyadic; lia. }
  assert (Double.round (p / 100) * inject_Z (count h)
          == inject_Z (m * count h) * Double.pow2 e)%Q as Hprod.
  { rewrite Hr1, Hq, inject_Z_mult. ring. }
  rewrite (round_compat _ _ Hprod), round_dyadic by nia.
  rewrite inject_Z_mult, Hq. ring.
Qed.

(** C7 (as amended).  On a histogram whose buckets add up to its count, and
    for p ∈ [0, 100], [getPercentile(p)] is the midpoint (i + 0.5)·w of the
    first bucket i whose cumulative count reaches the target the program
    computes, target = ⌈fl(fl(p / 100)·count)⌉ with fl the rounding to
    binary64; the target lies in [0, count] and is ⌈(p / 100)·count⌉
    itself for p = 0, 50 and 100.  On an empty histogram the percentile,
    the mean and the standard deviation are 0, and the standard deviation
    is 0 whenever count < 2. *)
Theorem getPercentile_first_bucket_reaching_target (Math_sqrt : Q -> Q) (h : t) (p : Q) :
  shape_ok h -> bucket_total (buckets h) = count h -> (0 <= p)%Q -> (p <= 100)%Q ->
  let target :=
    Qceiling (Double.round (Double.round (p / 100) * inject_Z (count h)))%Q in
  (count h = 0 ->
     getPercentile p h = 0%Q /\ getMean h = 0%Q /\ getStdDev Math_sqrt h = 0%Q) /\
  (count h < 2 -> getStdDev Math_sqrt h = 0%Q) /\
  (count h <> 0 ->
     exists i,
       0 <= i < HISTOGRAM_BUCKETS /\
       target <= cumulative (buckets h) i /\
       (forall j, 0 <= j < i -> cumulative (buckets h) j < target) /\
       getPercentile p h = ((inject_Z i + (1 # 2)) * inject_Z BUCKET_WIDTH_US)%Q) /\
  0 <= target <= count h /\
  ((p == 0 \/ p == 50 \/ p == 100)%Q ->
     target = Qceiling ((p / 100) * inject_Z (count h))%Q).
Proof.
  intros Hshape Htot Hp0 Hp100 target.
  pose proof (count_small h Hshape Htot) as Hsmall.
  destruct Hshape as [Hlen Hall].
  change target with (targetCount p h). clear target.
  split; [|split; [|split; [|split]]].
  - intros Hz. unfold getPercentile, getMean, getStdDev. by rewrite Hz.
  - intros Hlt. unfold getStdDev. by destruct (Z.ltb_spec (count h) 2); [|lia].
  - intros Hnz.
    destruct bucket_count_succ as [n Hn].
    assert (0 <= HISTOGRAM_BUCKETS) as Hb by (unfold HISTOGRAM_BUCKETS; lia).
    unfold getPercentile. destruct (Z.eqb_spec (count h) 0); [done|].
    revert Hlen Hn Hb. generalize HISTOGRAM_BUCKETS. intros B Hlen Hn Hb.
    destruct (percentile_loop_first (buckets h) (targetCount p h) (Z.to_nat B) 0)
      as (m & Hm & Hreach & Hfirst & Heq).
    + lia.
    + exists n. split; [lia|].
      rewrite cumulative_nat, <- Hn, <- Hlen, firstn_all, Htot.
      by apply targetCount_le_count.
    + exists (Z.of_nat m). split; [lia|]. split; [done|]. split.
      * intros j Hj. rewrite <- (Z2Nat.id j) by lia. apply Hfirst. lia.
      * exact Heq.
  - split; [apply targetCount_nonneg; [lia|done]|by apply targetCount_le_count].
  - by apply targetCount_exact.
Qed.

Lemma getPercentile_first_bucket_reaching_target_witness :
  let h := record_all [1500; 20000000; 0; 999] empty in
  exists i, 0 <= i < HISTOGRAM_BUCKETS /\
            getPercentile 50 h = ((inject_Z i + (1 # 2)) * inject_Z BUCKET_WIDTH_US)%Q.
Proof.
  intros h.
  destruct (getPercentile_first_bucket_reaching_target (fun x => x) h 50)
    as (_ & _ & Hex & _).
  - apply shape_ok_record_all, shape_ok_empty.
  - by vm_compute.
  - discriminate.
  - discriminate.
  - destruct Hex as (i & Hi & _ & _ & Heq); [by vm_compute|].
    exists i. split; [exact Hi | exact Heq].
Defined.

(** C7, counterexample.  (a) Seven samples in bucket 0 and ninety-three in
    bucket 1, p = 7: ⌈(7 / 100)·100⌉ = 7 is reached by the cumulative
    count of bucket 0, whose midpoint is 500, but the program computes
    0.07·100 = 7.000000000000001, target 8, and returns the midpoint 1500
    of bucket 1.  (b) 999 samples in bucket 0 and one in bucket 5,
    p = 99.9 as the program holds it: ⌈(99.9 / 100)·1000⌉ = 999 is reached
    by bucket 0, the program's target is 1000 and it returns 5500. *)
Lemma getPercentile_target_is_rounded :
  (let h := record_all (replicate 7 0 ++ replicate 93 1000) empty in
   count h = 100 /\
   Qceiling ((7 / 100) * inject_Z (count h))%Q = 7 /\
   cumulative (buckets h) 0 = 7 /\
   targetCount 7 h = 8 /\
   (getPercentile 7 h == 1500)%Q /\
   ~ (getPercentile 7 h == (inject_Z 0 + (1 # 2)) * inject_Z BUCKET_WIDTH_US)%Q) /\
  (let h := record_all (replicate 999 0 ++ [5000]) empty in
   let p := Double.round (999 # 10) in
   count h = 1000 /\
   Qceiling (((999 # 10) / 100) * inject_Z (count h))%Q = 999 /\
   cumulative (buckets h) 0 = 999 /\
   targetCount p h = 1000 /\
   (getPercentile p h == 5500)%Q /\
   ~ (getPercentile p h == (inject_Z 0 + (1 # 2)) * inject_Z BUCKET_WIDTH_US)%Q).
Proof. repeat split; by vm_compute. Qed.

End HistogramPercentile.

(** ** Aggregator: the order of the snapshots does not matter *)

Section AggregatorOrder.
Import Constants.

(** A left fold whose steps can be exchanged does not depend on the order
    of the list. *)
Lemma foldl_exchange_permutation {A S : Type} (f : S -> A -> S) :
  (forall s x y, f (f s x) y = f (f s y) x) ->
  forall l1 l2, l1 ≡ₚ l2 -> forall s, foldl f s l1 = foldl f s l2.
Proof.
  intros Hf l1 l2 Hp.
  induction Hp as [|x l1 l2 _ IH|x y l|l1 l2 l3 _ IH1 _ IH2]; intros s; simpl.
  - done.
  - apply IH.
  - by rewrite Hf.
  - by rewrite IH1.
Qed.

Lemma record_buckets_lookup v (h : Histogram.t) (k : nat) :
  Histogram.buckets (Histogram.record v h) !! k =
    if decide (0 <= Histogram.safeIndex v /\ k = Z.to_nat (Histogram.safeIndex v))
    then (fun c => Histogram.wrap32 (c + 1)) <$> Histogram.buckets h !! k
    else Histogram.buckets h !! k.
Proof.
  unfold Histogram.record. cbn [Histogram.buckets].
  unfold Histogram.bucket_get, Histogram.bucket_set.
  destruct (Z.ltb_spec (Histogram.safeIndex v) 0) as [Hneg|Hpos].
  { destruct (decide _) as [[? _]|]; [lia|done]. }
  destruct (Histogram.buckets h !! Z.to_nat (Histogram.safeIndex v)) as [c|] eqn:Hc.
  - destruct (decide _) as [[_ ->]|Hne].
    + rewrite Hc. simpl. apply list_lookup_insert_eq. by eapply lookup_lt_Some.
    + apply list_lookup_insert_ne. intros <-. apply Hne. done.
  - destruct (decide _) as [[_ ->]|Hne]; [by rewrite Hc|done].
Qed.

Lemma histogram_eq (h1 h2 : Histogram.t) :
  Histogram.buckets h1 = Histogram.buckets h2 ->
  Histogram.count h1 = Histogram.count h2 ->
  Histogram.min h1 = Histogram.min h2 ->
  Histogram.max h1 = Histogram.max h2 ->
  Histogram.sum h1 = Histogram.sum h2 ->
  h1 = h2.
Proof. destruct h1, h2; simpl; congruence. Qed.

(** Two [record] calls can be exchanged, on any histogram state. *)
Lemma record_exchange v1 v2 (h : Histogram.t) :
  Histogram.record v1 (Histogram.record v2 h) = Histogram.record v2 (Histogram.record v1 h).
Proof.
  apply histogram_eq.
  - apply list_eq. intros k. rewrite !record_buckets_lookup.
    repeat destruct (decide _); done.
  - cbn [Histogram.record Histogram.count]. lia.
  - cbn [Histogram.record Histogram.min]. ltb_cases; lia.
  - cbn [Histogram.record Histogram.max]. ltb_cases; lia.
  - cbn [Histogram.record Histogram.sum]. lia.
Qed.

Lemma record_all_app l1 l2 (h : Histogram.t) :
  Histogram.record_all (l1 ++ l2) h = Histogram.record_all l2 (Histogram.record_all l1 h).
Proof. unfold Histogram.record_all. apply foldl_app. Qed.

Lemma record_all_exchange l1 l2 (h : Histogram.t) :
  Histogram.record_all l1 (Histogram.record_all l2 h) =
  Histogram.record_all l2 (Histogram.record_all l1 h).
Proof.
  rewrite <- !record_all_app. unfold Histogram.record_all.
  apply foldl_exchange_permutation.
  - intros s x y. apply record_exchange.
  - apply Permutation_app_comm.
Qed.

(** The per-status-code map after the loop of [addSnapshot]: a pointwise sum. *)
Lemma addStatus_fold_lookup (codes m : gmap Z Z) (k : Z) :
  map_fold MetricsAggregator.addStatus codes m !! k =
    match m !! k with
    | Some c => Some (default 0 (codes !! k) + c)
    | None => codes !! k
    end.
Proof.
  revert k.
  apply (map_fold_weak_ind (fun r m => forall k, r !! k =
           match m !! k with
           | Some c => Some (default 0 (codes !! k) + c)
           | None => codes !! k
           end)).
  - intros k. by rewrite lookup_empty.
  - intros i x m' r Hi IH k. unfold MetricsAggregator.addStatus.
    destruct (decide (k = i)) as [->|Hne].
    + rewrite !lookup_insert_eq. rewrite IH, Hi. done.
    + rewrite !lookup_insert_ne by done. apply IH.
Qed.

Lemma addStatus_fold_exchange (codes m1 m2 : gmap Z Z) :
  map_fold MetricsAggregator.addStatus (map_fold MetricsAggregator.addStatus codes m1) m2 =
  map_fold MetricsAggregator.addStatus (map_fold MetricsAggregator.addStatus codes m2) m1.
Proof.
  apply map_eq. intros k. rewrite !addStatus_fold_lookup.
  destruct (m1 !! k), (m2 !! k), (codes !! k); simpl; f_equal; lia.
Qed.

(** Two [addSnapshot] calls can be exchanged. *)
Lemma addSnapshot_exchange s1 s2 (a : MetricsAggregator.t) :
  MetricsAggregator.addSnapshot s1 (MetricsAggregator.addSnapshot s2 a) =
  MetricsAggregator.addSnapshot s2 (MetricsAggregator.addSnapshot s1 a).
Proof.
  unfold MetricsAggregator.addSnapshot.
  cbn [MetricsAggregator.histogram MetricsAggregator.totalRequests
       MetricsAggregator.successfulRequests MetricsAggregator.failedRequests
       MetricsAggregator.totalBytes MetricsAggregator.timeouts
       MetricsAggregator.connectionErrors MetricsAggregator.statusCodes].
  f_equal; try lia.
  - apply record_all_exchange.
  - apply addStatus_fold_exchange.
Qed.



End AggregatorOrder.

(** ** Request loop: the error tallies add up to [failed] *)

Section RequestLoopTallies.
Import Constants HttpClient RequestLoop.

Lemma status_total_empty : Types.status_total ∅ = 0.
Proof. unfold Types.status_total. by rewrite map_fold_empty. Qed.

Lemma status_total_insert_fresh (m : gmap Z Z) k n :
  m !! k = None -> Types.status_total (<[k := n]> m) = n + Types.status_total m.
Proof.
  intros Hk. unfold Types.status_total.
  apply (map_fold_insert_L (fun _ n acc => n + acc)); [|done].
  intros. lia.
Qed.

Lemma status_total_delete (m : gmap Z Z) k n :
  m !! k = Some n -> Types.status_total m = n + Types.status_total (delete k m).
Proof.
  intros Hk. unfold Types.status_total.
  apply (map_fold_delete_L (fun _ n acc => n + acc)); [|done].
  intros. lia.
Qed.

(** Bumping one per-status counter adds one to Σ byStatusCode[·]. *)
Lemma status_total_bump (m : gmap Z Z) k :
  Types.status_total (<[k := default 0 (m !! k) + 1]> m) = Types.status_total m + 1.
Proof.
  destruct (m !! k) as [n|] eqn:Hk; simpl.
  - rewrite <- (insert_delete_eq m k (n + 1)).
    rewrite status_total_insert_fresh by apply lookup_delete_eq.
    rewrite (status_total_delete m k n Hk). lia.
  - rewrite status_total_insert_fresh by done. lia.
Qed.

Lemma cycles_snoc os o st : cycles (os ++ [o]) st = executeRequest o (cycles os st).
Proof. unfold cycles. by rewrite foldl_app. Qed.

Lemma executeRequest_tally o st :
  Types.timeouts (errors st) + Types.connectionErrors (errors st)
    + Types.status_total (Types.byStatusCode (errors st)) = failed st ->
  successful st + failed st = requests st ->
  let st' := executeRequest o st in
  Types.timeouts (errors st') + Types.connectionErrors (errors st')
    + Types.status_total (Types.byStatusCode (errors st')) = failed st' /\
  successful st' + failed st' = requests st'.
Proof.
  intros Hsum Hreq. destruct o as [response|err]; simpl.
  - destruct (isSuccessStatus (statusCode response)); simpl; [lia|].
    rewrite status_total_bump. lia.
  - destruct (isTimeoutError err); simpl; lia.
Qed.

Lemma cycles_tally os :
  let st := cycles os createInitialState in
  Types.timeouts (errors st) + Types.connectionErrors (errors st)
    + Types.status_total (Types.byStatusCode (errors st)) = failed st /\
  successful st + failed st = requests st.
Proof.
  induction os as [|o os IH] using rev_ind.
  - simpl. rewrite status_total_empty. lia.
  - rewrite cycles_snoc. destruct IH as [H1 H2]. by apply executeRequest_tally.
Qed.

(** C6.  A request that times out in the client makes [client.execute]
    throw undici's [HeadersTimeoutError], [BodyTimeoutError] or
    [ConnectTimeoutError].  On every state reached by completed cycles the
    [catch] block misses each of them: the test for a timeout error looks
    for the lower-case word timeout in the message and for the name
    TimeoutError, finds neither, and the request is tallied under
    [connectionErrors] while [timeouts] stays as it was.  An error named
    TimeoutError is tallied under [timeouts].  Apart from that the
    tallies are as designed: a response with status 200, 201, 202, 204, 301, 302 or 304
    increments [successful]; any other response increments [failed] and
    [byStatusCode[status]]; an exception increments [failed] and exactly
    one of [timeouts] and [connectionErrors]; and
    timeouts + connectionErrors + Σ byStatusCode[·] = failed before and
    after the cycle. *)
Theorem client_timeouts_are_tallied_as_connection_errors
    (outcomes : list Outcome) (err : Thrown) :
  let st := cycles outcomes createInitialState in
  let st' := executeRequest (Threw err) st in
  (err = HeadersTimeoutError \/ err = BodyTimeoutError \/ err = ConnectTimeoutError ->
     isTimeoutError err = false /\
     failed st' = failed st + 1 /\
     Types.timeouts (errors st') = Types.timeouts (errors st) /\
     Types.connectionErrors (errors st') = Types.connectionErrors (errors st) + 1) /\
  (forall message,
     err = ErrorObject "TimeoutError" message ->
     Types.timeouts (errors st') = Types.timeouts (errors st) + 1 /\
     Types.connectionErrors (errors st') = Types.connectionErrors (errors st)) /\
  (failed st' = failed st + 1 /\ successful st' = successful st /\
   Types.byStatusCode (errors st') = Types.byStatusCode (errors st) /\
   (Types.timeouts (errors st') = Types.timeouts (errors st) + 1 /\
    Types.connectionErrors (errors st') = Types.connectionErrors (errors st) \/
    Types.timeouts (errors st') = Types.timeouts (errors st) /\
    Types.connectionErrors (errors st') = Types.connectionErrors (errors st) + 1)) /\
  (forall response,
     let status := statusCode response in
     let st2 := executeRequest (Responded response) st in
     (status ∈ [200; 201; 202; 204; 301; 302; 304] ->
        successful st2 = successful st + 1 /\ failed st2 = failed st /\
        errors st2 = errors st) /\
     (status ∉ [200; 201; 202; 204; 301; 302; 304] ->
        successful st2 = successful st /\ failed st2 = failed st + 1 /\
        Types.timeouts (errors st2) = Types.timeouts (errors st) /\
        Types.connectionErrors (errors st2) = Types.connectionErrors (errors st) /\
        Types.byStatusCode (errors st2) !! status =
          Some (default 0 (Types.byStatusCode (errors st) !! status) + 1) /\
        forall other, other <> status ->
          Types.byStatusCode (errors st2) !! other =
          Types.byStatusCode (errors st) !! other)) /\
  Types.timeouts (errors st) + Types.connectionErrors (errors st)
    + Types.status_total (Types.byStatusCode (errors st)) = failed st /\
  Types.timeouts (errors st') + Types.connectionErrors (errors st')
    + Types.status_total (Types.byStatusCode (errors st')) = failed st'.
Proof.
  intros st st'. split; [|split; [|split; [|split; [|split]]]].
  - intros [-> | [-> | ->]]; subst st'; repeat split.
  - intros message ->. subst st'. cbn [executeRequest isTimeoutError errors].
    rewrite String.eqb_refl, orb_true_r. by split.
  - subst st'. cbn [executeRequest failed successful errors].
    destruct (isTimeoutError err); cbn; repeat split; [by left|by right].
  - intros response status st2. subst st2. cbn [executeRequest].
    unfold isSuccessStatus, SUCCESS_STATUS_CODES. fold status. split.
    + intros Hin. by rewrite bool_decide_eq_true_2.
    + intros Hnot. rewrite bool_decide_eq_false_2 by done.
      cbn [successful failed errors Types.timeouts Types.connectionErrors
           Types.byStatusCode].
      repeat split.
      * by rewrite lookup_insert_eq.
      * intros other Hne. by rewrite lookup_insert_ne.
  - apply cycles_tally.
  - subst st' st. rewrite <- cycles_snoc. apply cycles_tally.
Qed.

End RequestLoopTallies.

(** ** Worker snapshots as the orchestrator counts them *)

Section WorkerSnapshots.
Import Constants HttpClient.

Lemma executeRequest_requests o st :
  RequestLoop.requests (RequestLoop.executeRequest o st) = RequestLoop.requests st + 1.
Proof.
  destruct o as [response|err]; simpl; [|done].
  by destruct (RequestLoop.isSuccessStatus (statusCode response)).
Qed.

(** Every snapshot is a copy of the whole state: the final snapshot alone
    already counts every request the loop executed. *)
Lemma final_snapshot_counts_all_requests id events :
  Types.requests (snd (RequestLoop.run id events)) = RequestLoop.executed events.
Proof.
  unfold RequestLoop.run. cbn [snd RequestLoop.getSnapshot Types.requests].
  assert (forall acc,
            RequestLoop.requests (fst (foldl (RequestLoop.step id) acc events)) =
            RequestLoop.requests (fst acc) + RequestLoop.executed events) as Hgen.
  { unfold RequestLoop.executed.
    induction events as [|ev events IH]; intros acc; simpl; [lia|].
    rewrite IH. destruct ev as [o| |ticks o]; simpl; [|lia|];
      rewrite executeRequest_requests; lia. }
  rewrite Hgen. simpl. lia.
Qed.

(** C1, the failing run.  A worker completes one request, the reporting
    timer fires once, and the loop ends.  The periodic snapshot and the
    final snapshot both carry the whole state (requests = 1 and the same
    latency sample); the orchestrator adds both, so the result reports two
    requests and two latency samples for the one request executed. *)
Theorem cumulative_snapshots_are_double_counted (Math_sqrt : Q -> Q) (durationSec : Q) :
  let events :=
    [RequestLoop.Cycle (Responded {| statusCode := 200; bytes := 10; latencyUs := 1500 |});
     RequestLoop.Tick] in
  let messages := Worker.handleStart 0 events in
  let o := Orchestrator.handleAll messages Orchestrator.init in
  let result := Orchestrator.finalize Math_sqrt durationSec o in
  RequestLoop.executed events = 1 /\
  (exists periodic final,
      messages = [Types.metrics periodic; Types.done final] /\
      Types.requests periodic = 1 /\ Types.latencies periodic = [1500] /\
      Types.requests final = 1 /\ Types.latencies final = [1500]) /\
  Orchestrator.total (Orchestrator.requests result) = 2 /\
  Histogram.count (MetricsAggregator.histogram (Orchestrator.aggregator o)) = 2.
Proof.
  intros events messages o result.
  split; [reflexivity|]. split; [|split].
  - eexists _, _. split; [reflexivity|]. repeat split.
  - reflexivity.
  - reflexivity.
Qed.

End WorkerSnapshots.

(** ** Rate limiter: tokens stay within [0, capacity] *)

Section TokenBucket.
Import RateLimiter.
Local Open Scope Q_scope.

Implicit Types (l : t) (now : Q).

Lemma Qle_bool_true x y : Qle_bool x y = true <-> x <= y.
Proof. apply Qle_bool_iff. Qed.

Lemma Qle_bool_false x y : Qle_bool x y = false <-> y < x.
Proof.
  split.
  - intros Hf. apply Qnot_le_lt. intros Hle. apply Qle_bool_iff in Hle. congruence.
  - intros Hlt. destruct (Qle_bool x y) eqn:Hb; [|done].
    apply Qle_bool_iff in Hb. exfalso. by apply (Qlt_not_le _ _ Hlt).
Qed.

Lemma Qmin_bounds r x : 0 <= r -> 0 <= x -> 0 <= Qmin r x /\ Qmin r x <= r.
Proof.
  intros Hr Hx. split.
  - by apply Q.min_glb.
  - apply Q.le_min_l.
Qed.

Lemma refill_fields now l :
  ratePerSecond (refill now l) = ratePerSecond l /\
  intervalMs (refill now l) = intervalMs l.
Proof. unfold refill. by destruct (Qle_bool _ _). Qed.

(** [refill] keeps the tokens within [0, capacity], whatever the clock reads. *)
Lemma refill_inv now l : inv l -> inv (refill now l).
Proof.
  intros (Hlo & Hhi & Hint). unfold refill.
  destruct (Qle_bool 1 _) eqn:Hadd; [|done].
  apply Qle_bool_true in Hadd.
  unfold inv. cbn [tokens ratePerSecond intervalMs].
  assert (0 <= ratePerSecond l) by (by apply Qle_trans with (tokens l)).
  destruct (Qmin_bounds (ratePerSecond l)
              (tokens l + (now - lastRefill l) / 1000 * ratePerSecond l)) as [H1 H2].
  - done.
  - lra.
  - done.
Qed.

Lemma spend_inv l : inv l -> 1 <= tokens l -> inv (spend l).
Proof.
  intros (Hlo & Hhi & Hint) H1. unfold inv, spend. cbn [tokens ratePerSecond intervalMs].
  repeat split; [lra|lra|done].
Qed.

Lemma tryAcquire_inv now l : inv l -> inv (fst (tryAcquire now l)).
Proof.
  intros Hl. unfold tryAcquire.
  pose proof (refill_inv now l Hl) as Hr.
  destruct (Qle_bool 1 (tokens (refill now l))) eqn:Hb; simpl; [|done].
  apply spend_inv; [done|]. by apply Qle_bool_true.
Qed.

End TokenBucket.

(** ** Rate limiter in binary64: [acquire] and [tryAcquire] *)

Section TokenBucket64.
Import RateLimiter64.
Local Open Scope Q_scope.

Implicit Types (l : t) (c : Clock) (now : Q).

Lemma round_le_representable x y :
  x <= y -> Double.representable y -> Double.round x <= y.
Proof.
  intros Hxy Hy. unfold Double.representable in Hy.
  apply Qle_trans with (Double.round y); [by apply round_mono|].
  rewrite Hy. apply Qle_refl.
Qed.

Lemma round_nonneg x : 0 <= x -> 0 <= Double.round x.
Proof.
  intros Hx. assert (0 == Double.round (inject_Z 0)) as ->.
  { symmetry. by apply (round_Z 0). }
  by apply round_mono.
Qed.

Lemma refill64_fields now l :
  ratePerSecond (refill now l) = ratePerSecond l /\
  intervalMs (refill now l) = intervalMs l.
Proof. unfold refill. by destruct (Qle_bool _ _). Qed.

Lemma refill64_below now l : below_capacity l -> below_capacity (refill now l).
Proof.
  intros [Hhi Hrep]. unfold refill. destruct (Qle_bool 1 _); [|done].
  split; [|done]. cbn [tokens ratePerSecond]. apply Q.le_min_l.
Qed.

Lemma refill64_inv now l : inv l -> inv (refill now l).
Proof.
  intros [Hlo Hbelow]. split; [|by apply refill64_below].
  destruct Hbelow as [Hhi Hrep].
  unfold refill. destruct (Qle_bool 1 _) eqn:Hadd; [|done].
  apply Qle_bool_true in Hadd. cbn [tokens].
  apply Q.min_glb; [lra|]. apply round_nonneg. lra.
Qed.

Lemma spend64_below l : below_capacity l -> below_capacity (spend l).
Proof.
  intros [Hhi Hrep]. split; [|done]. cbn [spend tokens ratePerSecond].
  apply round_le_representable; [lra|done].
Qed.

Lemma spend64_inv l : inv l -> 1 <= tokens l -> inv (spend l).
Proof.
  intros [Hlo Hbelow] H1. split; [|by apply spend64_below].
  cbn [spend tokens]. apply round_nonneg. lra.
Qed.




End TokenBucket64.

(** ** CLI: the threshold gate *)

Section Thresholds.
Import Constants Run.

Lemma Qltb_true x y : Js.Qltb x y = true <-> (x < y)%Q.
Proof.
  unfold Js.Qltb. rewrite negb_true_iff. split.
  - intros Hf. apply Qnot_le_lt. intros Hle. apply Qle_bool_iff in Hle. congruence.
  - intros Hlt. destruct (Qle_bool y x) eqn:Hb; [|done].
    apply Qle_bool_iff in Hb. exfalso. by apply (Qlt_not_le _ _ Hlt).
Qed.

(** [x > y] holds exactly when [y] is a number strictly below [x]. *)
Lemma gt_true x y : Js.gt x y = true <-> exists q, y = Js.Val q /\ (q < x)%Q.
Proof.
  destruct y as [|q]; simpl.
  - split; [done|]. by intros (q & ? & _).
  - rewrite Qltb_true. split; [by exists q|]. by intros (q' & [= ->] & ?).
Qed.

(** A threshold is exceeded by [x] exactly when it is a number strictly
    below [x]. *)
Lemma exceeded_cases (x : Q) (o : option Js.Num) :
  (exists t, o = Some (Js.Val t) /\ (t < x)%Q /\ Js.gt x (Js.Val t) = true) \/
  ((forall t, o = Some (Js.Val t) -> ~ (t < x)%Q) /\
   match o with Some y => Js.gt x y = false | None => True end).
Proof.
  destruct o as [y|]; [|right; by split].
  destruct (Js.gt x y) eqn:Hg.
  - apply gt_true in Hg as (q & -> & Hlt). left. exists q. split; [done|]. split; [done|].
    apply gt_true. by exists q.
  - right. split; [|done]. intros t [= ->] Hlt.
    assert (Js.gt x (Js.Val t) = true) by (apply gt_true; by exists t). congruence.
Qed.

(** C8 (as amended).  [checkThresholds] returns 1 iff the p99 threshold is
    set and latency.p99 is strictly above it, or the error-rate threshold
    is set, total > 0 and the binary64 quotient fl(failed / total) is
    strictly above it; it returns 0 when neither holds.  The p99 check
    comes first: when it fails its message is the one printed, whatever
    the error rate; the error-rate message is printed only when the p99
    check passed.  A threshold that is not a number is never exceeded. *)
Theorem threshold_exit_code (result : Orchestrator.BenchResult) (config : Flags.BenchConfig) :
  let code := fst (checkThresholds result config) in
  let printed := snd (checkThresholds result config) in
  let observed := Types.p99 (Orchestrator.latency result) in
  let failed := Orchestrator.failed (Orchestrator.requests result) in
  let total := Orchestrator.total (Orchestrator.requests result) in
  let rate := Double.round (inject_Z failed / inject_Z total)%Q in
  let p99_exceeded :=
    exists thresholds t,
      Flags.c_thresholds config = Some thresholds /\
      Flags.th_p99 thresholds = Some (Js.Val t) /\ (t < observed)%Q in
  let rate_exceeded :=
    exists thresholds t,
      Flags.c_thresholds config = Some thresholds /\
      Flags.th_errorRate thresholds = Some (Js.Val t) /\ 0 < total /\ (t < rate)%Q in
  (code = THRESHOLD_EXCEEDED <-> p99_exceeded \/ rate_exceeded) /\
  (code = SUCCESS <-> ~ p99_exceeded /\ ~ rate_exceeded) /\
  (p99_exceeded -> exists p99, printed = [error_p99 observed p99]) /\
  (~ p99_exceeded -> rate_exceeded -> exists t, printed = [error_errorRate rate t]) /\
  (code = SUCCESS -> printed = []).
Proof.
  intros code printed observed failed total rate p99_exceeded rate_exceeded.
  assert (p99_exceeded /\ code = THRESHOLD_EXCEEDED /\
            (exists p99, printed = [error_p99 observed p99]) \/
          ~ p99_exceeded /\ rate_exceeded /\ code = THRESHOLD_EXCEEDED /\
            (exists t, printed = [error_errorRate rate t]) \/
          ~ p99_exceeded /\ ~ rate_exceeded /\ code = SUCCESS /\ printed = []) as Hcases.
  { subst code printed p99_exceeded rate_exceeded. unfold checkThresholds.
    fold observed failed total.
    destruct (Flags.c_thresholds config) as [thresholds|] eqn:Hth.
    2:{ right. right. split; [by intros (? & ? & ? & _)|].
        split; [by intros (? & ? & ? & _)|done]. }
    destruct (exceeded_cases observed (Flags.th_p99 thresholds))
      as [(t & H99 & Hlt & Hgt)|[Hno99 Hgt]].
    { left. rewrite H99, Hgt. cbn [fst snd].
      split; [by exists thresholds, t|]. split; [done|]. by eexists. }
    right.
    assert (~ (exists th t, Some thresholds = Some th /\
                 Flags.th_p99 th = Some (Js.Val t) /\ (t < observed)%Q)) as Hn99.
    { intros (th & t & [= <-] & H99 & Hlt). by apply (Hno99 t). }
    assert (match Flags.th_p99 thresholds with
            | Some p99 => if Js.gt observed p99 then Some p99 else None
            | None => None
            end = None) as ->.
    { destruct (Flags.th_p99 thresholds); [by rewrite Hgt|done]. }
    destruct (Z.ltb_spec 0 total) as [Htot|Htot].
    2:{ right. split; [done|]. split; [intros (? & ? & _ & _ & ? & _); lia|].
        by destruct (Flags.th_errorRate thresholds). }
    fold rate.
    destruct (exceeded_cases rate (Flags.th_errorRate thresholds))
      as [(t & Herr & Hlt & Hgte)|[Hnoerr Hgte]].
    { left. rewrite Herr, Hgte. cbn [fst snd]. split; [done|].
      split; [by exists thresholds, t|]. split; [done|]. by eexists. }
    right. split; [done|]. split.
    - intros (th & t & [= <-] & Herr & _ & Hlt). by apply (Hnoerr t).
    - destruct (Flags.th_errorRate thresholds); [by rewrite Hgte|done]. }
  unfold SUCCESS, THRESHOLD_EXCEEDED in *.
  destruct Hcases as [(H1 & H2 & H3)|[(H1 & H2 & H3 & H4)|(H1 & H2 & H3 & H4)]];
    (split; [|split; [|split; [|split]]]); try tauto;
    try (split; [intros ?|intros ?]; try tauto; congruence);
    try (intros ?; congruence).
Qed.

(** C8, counterexample.  One request of three failed and the error-rate
    threshold is the binary64 number written 0.3333333333333333: the exact
    quotient 1/3 is strictly above the threshold, but the binary64
    quotient is the threshold itself and [checkThresholds] returns 0. *)
Lemma threshold_compares_rounded_quotient :
  let threshold := Double.round (3333333333333333 # 10000000000000000) in
  let result :=
    {| Orchestrator.requests :=
         {| Orchestrator.total := 3; Orchestrator.successful := 2; Orchestrator.failed := 1 |};
       Orchestrator.throughput :=
         {| Orchestrator.rps := 3; Orchestrator.bytesPerSecond := 0;
            Orchestrator.totalBytes := 0 |};
       Orchestrator.latency := Types.mkLatency 0 0 0 0 0 0 0 0 0 0;
       Orchestrator.errors := Types.mkErrors 0 1 ∅ |} in
  let config :=
    Flags.mkConfig "http://a" None None None None None None None None None None None None
      (Some (Flags.mkThresholds None None (Some (Js.Val threshold)) None)) None in
  (threshold < inject_Z 1 / inject_Z 3)%Q /\
  (Double.round (inject_Z 1 / inject_Z 3) == threshold)%Q /\
  checkThresholds result config = (SUCCESS, []).
Proof. repeat split; by vm_compute. Qed.

End Thresholds.

(** ** CLI: an unrecognised [--output] value *)

Section OutputFormat.
Import Constants Flags.
Variable parseInt10 : string -> Js.Num.
Variable parseFloat : string -> Js.Num.

Local Abbreviation parse_arg := (Flags.parse_arg parseInt10 parseFloat).
Local Abbreviation parse_loop := (Flags.parse_loop parseInt10 parseFloat).
Local Abbreviation parseFlags := (Flags.parseFlags parseInt10 parseFloat).

Lemma eqb_false_ne (s1 s2 : string) : s1 <> s2 -> (s1 =? s2)%string = false.
Proof. intros Hne. by apply String.eqb_neq. Qed.

(** The [--output] branch drops a format it does not know. *)
Lemma parse_arg_output_unknown format flags :
  format <> "console"%string -> format <> "json"%string ->
  format <> "html"%string -> format <> "csv"%string ->
  parse_arg "--output" (Some format) flags = (flags, true).
Proof.
  intros H1 H2 H3 H4. unfold Flags.parse_arg. simpl.
  by rewrite !eqb_false_ne by done.
Qed.

(** No branch other than a recognised [--output] touches [flags.output]. *)
Lemma parse_arg_output arg next flags :
  (forall v, next = Some v ->
     v <> "json"%string /\ v <> "html"%string /\ v <> "csv"%string) ->
  output flags = "console"%string ->
  output (fst (parse_arg arg next flags)) = "console"%string.
Proof.
  intros Hnext Hout. unfold Flags.parse_arg, addHeader.
  repeat case_match; simpl; try done.
  destruct next as [v|]; simpl in *.
  - destruct (Hnext v eq_refl) as (? & ? & ?).
    repeat match goal with
           | H : (_ || _) = true |- _ => apply orb_true_iff in H as [H|H]
           | H : (_ =? _)%string = true |- _ => apply String.eqb_eq in H
           end; congruence.
  - done.
Qed.

Lemma parse_loop_unfold arg next rest flags :
  parse_loop (arg :: next :: rest) flags =
    if snd (parse_arg arg (Some next) flags)
    then parse_loop rest (fst (parse_arg arg (Some next) flags))
    else parse_loop (next :: rest) (fst (parse_arg arg (Some next) flags)).
Proof.
  cbn [Flags.parse_loop]. by destruct (parse_arg arg (Some next) flags) as [flags' []].
Qed.

Lemma parse_loop_output args :
  forall flags,
  (forall a, a ∈ args -> a <> "json"%string /\ a <> "html"%string /\ a <> "csv"%string) ->
  output flags = "console"%string ->
  output (parse_loop args flags) = "console"%string.
Proof.
  remember (length args) as n eqn:Hn. revert args Hn.
  induction n as [n IH] using lt_wf_ind. intros args Hn flags Hargs Hout.
  destruct args as [|arg [|next rest]].
  - done.
  - apply parse_arg_output; [done|done].
  - rewrite parse_loop_unfold.
    assert (output (fst (parse_arg arg (Some next) flags)) = "console"%string) as Hout'.
    { apply parse_arg_output; [|done].
      intros v [= <-]. apply Hargs. rewrite ?elem_of_cons in *. tauto. }
    simpl in Hn.
    destruct (snd (parse_arg arg (Some next) flags)).
    + apply (IH (length rest)); [lia|done| |done].
      intros a Ha. apply Hargs. rewrite ?elem_of_cons in *. tauto.
    + apply (IH (length (next :: rest))); [simpl; lia|done| |done].
      intros a Ha. apply Hargs. rewrite ?elem_of_cons in *. tauto.
Qed.

(** C9.  A value of [--output] other than console, json, html or csv is
    dropped: parsing goes on as if the flag and its value were absent, so
    [main] takes the same course (no configuration error arises from it);
    the format stays the default console when no recognised format is
    given, and [getReporter] returns the console reporter for the value. *)
Theorem unknown_output_format_ignored (format : string) (rest : list string) (flags : ParsedFlags) :
  format <> "console"%string -> format <> "json"%string ->
  format <> "html"%string -> format <> "csv"%string ->
  parse_loop ("--output"%string :: format :: rest) flags = parse_loop rest flags /\
  parseFlags ("--output"%string :: format :: rest) = parseFlags rest /\
  Cli.main parseInt10 parseFloat ("--output"%string :: format :: rest) =
    Cli.main parseInt10 parseFloat rest /\
  output (parseFlags ["--output"%string; format]) = "console"%string /\
  (forall args,
     (forall a, a ∈ args -> a <> "json"%string /\ a <> "html"%string /\ a <> "csv"%string) ->
     output (parseFlags args) = "console"%string /\
     Run.getReporter (output (parseFlags args)) = Run.ConsoleReporter) /\
  Run.getReporter format = Run.ConsoleReporter.
Proof.
  intros H1 H2 H3 H4.
  assert (forall fl, parse_loop ("--output"%string :: format :: rest) fl = parse_loop rest fl)
    as Hloop.
  { intros fl. rewrite parse_loop_unfold. by rewrite parse_arg_output_unknown. }
  split; [apply Hloop|]. split; [apply Hloop|].
  split; [unfold Cli.main, Flags.parseFlags; by rewrite Hloop|].
  split.
  { unfold Flags.parseFlags. cbn [Flags.parse_loop].
    by rewrite parse_arg_output_unknown. }
  split.
  { intros args Hargs.
    assert (output (parseFlags args) = "console"%string) as ->; [|done].
    by apply parse_loop_output. }
  unfold Run.getReporter. by rewrite !eqb_false_ne by done.
Qed.

End OutputFormat.

Lemma unknown_output_format_ignored_witness :
  Flags.output (Flags.parseFlags (fun _ => Js.NaN) (fun _ => Js.NaN)
                  ["--output"; "xml"]%string) = "console"%string /\
  Run.getReporter "xml" = Run.ConsoleReporter.
Proof.
  destruct (unknown_output_format_ignored (fun _ => Js.NaN) (fun _ => Js.NaN)
              "xml" [] (Flags.defaults)) as (_ & _ & _ & Hout & _ & Hrep);
    [discriminate|discriminate|discriminate|discriminate|].
  split; [exact Hout | exact Hrep].
Defined.

(** ** CLI: compare mode *)

Section CompareMode.
Import Constants Run.

Lemma compare_fold_snoc targets t acc :
  foldl compare_step acc (targets ++ [t]) = compare_step (foldl compare_step acc targets) t.
Proof. by rewrite foldl_app. Qed.

(** What the loop of [compareCommand] has collected after [targets]. *)
Lemma compare_fold_spec targets :
  let acc := foldl compare_step ([], []) targets in
  (fst acc <> [] <-> exists t, t ∈ targets /\ produces t = true) /\
  length (fst acc) = length (List.filter produces targets) /\
  (forall t e, t ∈ targets -> check t = Unreachable e ->
     warn_skipping (url t) e ∈ snd acc) /\
  (forall t s err, t ∈ targets -> check t = Reachable s -> bench t = Rejected err ->
     warn_failed (url t) (messageOf err) ∈ snd acc) /\
  Forall (fun line => isWarning line = true) (snd acc).
Proof.
  induction targets as [|t targets IH] using rev_ind.
  - simpl. split; [|split; [done|split; [|split]]].
    + split; [done|]. intros (t & Ht & _). by apply elem_of_nil in Ht.
    + intros t e Ht. by apply elem_of_nil in Ht.
    + intros t s err Ht. by apply elem_of_nil in Ht.
    + constructor.
  - rewrite compare_fold_snoc. cbn zeta in IH.
    destruct (foldl compare_step ([], []) targets) as [results lines].
    destruct IH as (Hres & Hlen & Hskip & Hfail & Hwarn). cbn [fst snd] in *.
    rewrite List.filter_app, length_app.
    assert (length (List.filter produces [t]) = if produces t then 1%nat else 0%nat) as ->
      by (simpl; by destruct (produces t)).
    unfold compare_step. cbn [fst snd].
    destruct (check t) as [s|e] eqn:Hc; [destruct (bench t) as [r|err] eqn:Hb|];
      cbn [fst snd length];
      first [ assert (produces t = true) as Hp by (unfold produces; by rewrite Hc, ?Hb)
            | assert (produces t = false) as Hp by (unfold produces; by rewrite Hc, ?Hb) ];
      rewrite Hp.
    + split; [|split; [|split; [|split]]].
      * split; [intros _|intros _; by destruct results].
        exists t. split; [|done]. apply elem_of_app. right. by apply list_elem_of_singleton.
      * rewrite length_app. simpl. lia.
      * intros t' e' [Ht'|Ht']%elem_of_app Hc'; [by eapply Hskip|].
        apply list_elem_of_singleton in Ht' as ->. congruence.
      * intros t' s' err' [Ht'|Ht']%elem_of_app Hc' Hb'; [by eapply Hfail|].
        apply list_elem_of_singleton in Ht' as ->. congruence.
      * done.
    + split; [|split; [|split; [|split]]].
      * rewrite Hres. split.
        -- intros (t' & Ht' & Hp'). exists t'. split; [|done]. apply elem_of_app. by left.
        -- intros (t' & [Ht'|Ht']%elem_of_app & Hp'); [by exists t'|].
           apply list_elem_of_singleton in Ht' as ->. congruence.
      * simpl. lia.
      * intros t' e' [Ht'|Ht']%elem_of_app Hc'; [apply elem_of_app; left; by eapply Hskip|].
        apply list_elem_of_singleton in Ht' as ->. congruence.
      * intros t' s' err' [Ht'|Ht']%elem_of_app Hc' Hb';
          [apply elem_of_app; left; by eapply Hfail|].
        apply list_elem_of_singleton in Ht' as ->. apply elem_of_app; right.
        assert (err' = err) as -> by congruence. by apply list_elem_of_singleton.
      * apply Forall_app. split; [done|]. by repeat constructor.
    + split; [|split; [|split; [|split]]].
      * rewrite Hres. split.
        -- intros (t' & Ht' & Hp'). exists t'. split; [|done]. apply elem_of_app. by left.
        -- intros (t' & [Ht'|Ht']%elem_of_app & Hp'); [by exists t'|].
           apply list_elem_of_singleton in Ht' as ->. congruence.
      * simpl. lia.
      * intros t' e' [Ht'|Ht']%elem_of_app Hc'; [apply elem_of_app; left; by eapply Hskip|].
        apply list_elem_of_singleton in Ht' as ->. apply elem_of_app; right.
        assert (e' = e) as -> by congruence. by apply list_elem_of_singleton.
      * intros t' s' err' [Ht'|Ht']%elem_of_app Hc' Hb';
          [apply elem_of_app; left; by eapply Hfail|].
        apply list_elem_of_singleton in Ht' as ->. congruence.
      * apply Forall_app. split; [done|]. by repeat constructor.
Qed.

(** C10 (as amended).  [compareCommand] never consults the thresholds: the
    exit code of the process is never 1 and depends on the configuration
    only through the output file.  It is 0 iff at least one URL is
    reachable and its benchmark resolves, and the comparison file, when
    one is configured, is written; it is 2 iff no URL produced a result or
    the configured file could not be written (the command is then
    rejected and [main] exits with 2).  Every unreachable URL and every
    URL whose benchmark rejects is skipped with a warning and the loop
    goes on (one result per remaining URL). *)
Theorem compare_mode_exit_code
    (targets : list Target) (write : WriteOutcome) (config : Flags.BenchConfig) :
  let settled := compareCommand targets write config in
  let code := fst (Cli.exitOf settled) in
  let printed := snd (Cli.exitOf settled) in
  let produced := exists t, t ∈ targets /\ produces t = true in
  let write_fails :=
    exists file err, Flags.c_outputFile config = Some file /\ write = WriteThrew err in
  (code = SUCCESS <-> produced /\ ~ write_fails) /\
  (code = ERROR <-> ~ produced \/ write_fails) /\
  code <> THRESHOLD_EXCEEDED /\
  (forall config', Flags.c_outputFile config' = Flags.c_outputFile config ->
     fst (Cli.exitOf (compareCommand targets write config')) = code) /\
  (forall t e, t ∈ targets -> check t = Unreachable e ->
     warn_skipping (url t) e ∈ printed) /\
  (forall t s err, t ∈ targets -> check t = Reachable s -> bench t = Rejected err ->
     warn_failed (url t) (messageOf err) ∈ printed) /\
  (forall line, line ∈ printed ->
     isWarning line = true \/ line = error_noBenchmarks \/
     exists err, write = WriteThrew err /\ line = error_message (messageOf err)) /\
  (forall finished file results,
     settled = Returned finished -> written finished = Some (file, (results, config)) ->
     exitCode finished = SUCCESS /\
     length results = length (List.filter produces targets)).
Proof.
  intros settled code printed produced write_fails.
  assert (forall config',
            Flags.c_outputFile config' = Flags.c_outputFile config ->
            fst (Cli.exitOf (compareCommand targets write config')) = code) as Hsame.
  { intros config' Hfile. subst code settled. unfold compareCommand. rewrite Hfile.
    destruct (foldl compare_step ([], []) targets) as [results lines].
    destruct (length results =? 0)%nat; [done|].
    destruct (Flags.c_outputFile config); [|done]. by destruct write. }
  subst settled code printed produced write_fails. unfold compareCommand in *.
  pose proof (compare_fold_spec targets) as Hspec. cbn zeta in Hspec.
  destruct (foldl compare_step ([], []) targets) as [results lines].
  destruct Hspec as (Hres & Hlen & Hskip & Hfail & Hwarn). cbn [fst snd] in *.
  unfold SUCCESS, ERROR, THRESHOLD_EXCEEDED in *.
  destruct results as [|r results]; cbn [length Nat.eqb] in *.
  - assert (~ exists t, t ∈ targets /\ produces t = true) as Hnone.
    { intros Hex. by apply Hres in Hex. }
    cbn [Cli.exitOf exitCode printed fst snd].
    split; [|split; [|split; [|split; [|split; [|split; [|split]]]]]]; try done.
    + split; [done|]. by intros [? _].
    + split; [by left|done].
    + intros t e Ht Hc. apply elem_of_app. left. by eapply Hskip.
    + intros t s err Ht Hc Hb. apply elem_of_app. left. by eapply Hfail.
    + intros line [Hl|Hl]%elem_of_app.
      * left. by eapply Forall_forall in Hwarn.
      * right. left. by apply list_elem_of_singleton in Hl.
    + by intros finished file results' [= <-].
  - assert (exists t, t ∈ targets /\ produces t = true) as Hsome by (by apply Hres).
    destruct (Flags.c_outputFile config) as [file|] eqn:Hfile; [destruct write as [|err]|];
      cbn [Cli.exitOf exitCode printed fst snd].
    + split; [|split; [|split; [|split; [|split; [|split; [|split]]]]]]; try done.
      * split; [intros _|done]. split; [done|]. by intros (? & ? & _ & ?).
      * split; [done|]. intros [Hn|(? & ? & _ & ?)]; [by destruct Hn|done].
      * intros line Hl. left. by eapply Forall_forall in Hwarn.
      * intros finished file' results' [= <-]. cbn [written exitCode].
        by intros [= _ <-].
    + split; [|split; [|split; [|split; [|split; [|split; [|split]]]]]]; try done.
      * split; [done|]. intros [_ Hn]. destruct Hn. by exists file, err.
      * split; [intros _|done]. right. by exists file, err.
      * intros t e Ht Hc. apply elem_of_app. left. by eapply Hskip.
      * intros t s err' Ht Hc Hb. apply elem_of_app. left. by eapply Hfail.
      * intros line [Hl|Hl]%elem_of_app.
        -- left. by eapply Forall_forall in Hwarn.
        -- right. right. exists err. split; [done|]. by apply list_elem_of_singleton in Hl.
    + split; [|split; [|split; [|split; [|split; [|split; [|split]]]]]]; try done.
      * split; [intros _|done]. split; [done|]. by intros (? & ? & ? & _).
      * split; [done|]. intros [Hn|(? & ? & ? & _)]; [by destruct Hn|done].
      * intros line Hl. left. by eapply Forall_forall in Hwarn.
      * by intros finished file' results' [= <-].
Qed.

(** C10, counterexample.  One URL, reachable, whose benchmark resolves, and
    an output file that cannot be written: a URL produced a result, yet
    the command is rejected and the process exits with 2. *)
Lemma compare_write_failure_exits_2 :
  let result :=
    {| Orchestrator.requests :=
         {| Orchestrator.total := 3; Orchestrator.successful := 3; Orchestrator.failed := 0 |};
       Orchestrator.throughput :=
         {| Orchestrator.rps := 3; Orchestrator.bytesPerSecond := 0;
            Orchestrator.totalBytes := 0 |};
       Orchestrator.latency := Types.mkLatency 0 0 0 0 0 0 0 0 0 0;
       Orchestrator.errors := Types.mkErrors 0 0 ∅ |} in
  let target := mkTarget "http://a" (Reachable 200) (Resolved result) in
  let config :=
    Flags.mkConfig "http://a" None None None None None None None None None None None
      (Some "/nowhere/out.json"%string) None None in
  let write := WriteThrew (HttpClient.ErrorObject "Error" "ENOENT: no such file or directory") in
  produces target = true /\
  fst (Cli.exitOf (compareCommand [target] write config)) = ERROR.
Proof. split; reflexivity. Qed.

End CompareMode.

(** ** Histogram: what the buckets and the percentiles say about the samples *)

Section HistogramSamples.
Import Constants Histogram.

Implicit Types (bs : list Z) (h : t) (i j v : Z) (vs : list Z).

Lemma samples_in_snoc i vs v :
  Runs.samples_in i (vs ++ [v]) =
    Runs.samples_in i vs + (if safeIndex v =? i then 1 else 0).
Proof.
  unfold Runs.samples_in. rewrite List.filter_app, length_app. simpl.
  destruct (safeIndex v =? i); simpl; lia.
Qed.

Lemma samples_in_bound i vs : 0 <= Runs.samples_in i vs <= Z.of_nat (length vs).
Proof.
  unfold Runs.samples_in. pose proof (List.filter_length_le (fun v => safeIndex v =? i) vs).
  lia.
Qed.

(** Each bucket holds the number of samples filed under it. *)
Lemma record_all_bucket vs i :
  Forall (fun x => 0 <= x) vs -> Z.of_nat (length vs) < 2 ^ 32 ->
  0 <= i < HISTOGRAM_BUCKETS ->
  bucket_get (buckets (record_all vs empty)) i = Some (Runs.samples_in i vs).
Proof.
  induction vs as [|v vs IH] using rev_ind; intros Hvs Hlen Hi.
  - unfold record_all, empty, Runs.samples_in. cbn [foldl buckets List.filter length].
    apply bucket_get_Some. split; [lia|].
    apply lookup_replicate_2. unfold HISTOGRAM_BUCKETS in *. lia.
  - apply Forall_app in Hvs as [Hvs Hv]. apply Forall_inv in Hv.
    rewrite length_app in Hlen. simpl in Hlen.
    rewrite record_all_snoc, samples_in_snoc.
    rewrite record_buckets by (try apply shape_ok_record_all, shape_ok_empty; exact Hv).
    rewrite IH by (done || lia).
    pose proof (samples_in_bound i vs).
    rewrite Z.eqb_sym.
    destruct (safeIndex v =? i); simpl; [|f_equal; lia].
    f_equal. apply wrap32_small. lia.
Qed.

Lemma samples_in_pos i vs :
  1 <= Runs.samples_in i vs <-> exists v, v ∈ vs /\ safeIndex v = i.
Proof.
  unfold Runs.samples_in. split.
  - intros Hpos.
    destruct (List.filter (fun v => safeIndex v =? i) vs) as [|v l] eqn:Hf; [simpl in Hpos; lia|].
    exists v. assert (List.In v (List.filter (fun v => safeIndex v =? i) vs)) as Hin
      by (rewrite Hf; by left).
    apply List.filter_In in Hin as [Hin Heq]. split; [by apply list_elem_of_In|].
    by apply Z.eqb_eq.
  - intros (v & Hv & Hidx).
    assert (v ∈ List.filter (fun v => safeIndex v =? i) vs) as Hin.
    { apply list_elem_of_In, List.filter_In. split; [by apply list_elem_of_In|].
      by apply Z.eqb_eq. }
    destruct (List.filter _ vs); [by apply elem_of_nil in Hin|]. simpl. lia.
Qed.

(** X1.  After fewer than 2^32 non-negative samples are recorded on a new
    histogram, bucket i holds the number of samples whose bucket index
    min(⌊min(v, L_max − 1) / w⌋, B − 1) is i, for every i in [0, B − 1]. *)
Theorem bucket_counts_its_samples (vs : list Z) (i : Z) :
  Forall (fun x => 0 <= x) vs -> Z.of_nat (length vs) < 2 ^ 32 ->
  0 <= i < HISTOGRAM_BUCKETS ->
  bucket_get (buckets (record_all vs empty)) i =
    Some (Z.of_nat (length (List.filter (fun v => safeIndex v =? i) vs))).
Proof. apply record_all_bucket. Qed.

Lemma bucket_counts_its_samples_witness :
  bucket_get (buckets (record_all [1500; 20000000; 1999] empty)) 1 = Some 2.
Proof.
  apply (bucket_counts_its_samples [1500; 20000000; 1999] 1).
  - repeat constructor; lia.
  - simpl. lia.
  - unfold HISTOGRAM_BUCKETS. lia.
Defined.

(** The scan of [getPercentile] never returns less for a larger target. *)
Lemma midpoint_mono i j : i <= j -> (midpoint i <= midpoint j)%Q.
Proof.
  intros Hij. unfold midpoint. rewrite BUCKET_WIDTH_US_value.
  apply Qmult_le_compat_r; [|discriminate].
  apply Qplus_le_l. by rewrite <- Zle_Qle.
Qed.

Lemma midpoint_below_max i : i < HISTOGRAM_BUCKETS -> (midpoint i <= inject_Z MAX_LATENCY_US)%Q.
Proof.
  intros Hi. apply Qle_trans with (midpoint (HISTOGRAM_BUCKETS - 1)).
  - apply midpoint_mono. lia.
  - by vm_compute.
Qed.

Lemma percentile_loop_lower bs target (n : nat) i j c :
  j <= i -> i + Z.of_nat n <= HISTOGRAM_BUCKETS -> j < HISTOGRAM_BUCKETS ->
  (midpoint j <= percentile_loop bs target n i c)%Q.
Proof.
  revert i c. induction n as [|n IH]; intros i c Hji Hn Hj; cbn [percentile_loop].
  - by apply midpoint_below_max.
  - destruct (target <=? _).
    + by apply midpoint_mono.
    + apply IH; lia.
Qed.

Lemma percentile_loop_mono bs t1 t2 (n : nat) i c :
  t1 <= t2 -> 0 <= i -> i + Z.of_nat n <= HISTOGRAM_BUCKETS ->
  (percentile_loop bs t1 n i c <= percentile_loop bs t2 n i c)%Q.
Proof.
  intros Ht. revert i c. induction n as [|n IH]; intros i c Hi Hn; cbn [percentile_loop].
  - apply Qle_refl.
  - set (c' := match bucket_get bs i with Some b => c + b | None => c end).
    destruct (Z.leb_spec t2 c') as [H2|H2].
    + destruct (Z.leb_spec t1 c'); [apply Qle_refl|lia].
    + destruct (Z.leb_spec t1 c') as [H1|H1].
      * apply percentile_loop_lower; lia.
      * apply IH; lia.
Qed.

Lemma targetCount_mono p q h :
  0 <= count h -> (p <= q)%Q -> targetCount p h <= targetCount q h.
Proof.
  intros Hc Hpq. unfold targetCount. apply Qceiling_resp_le, round_mono.
  apply Qmult_le_compat_r.
  - apply round_mono. apply Qmult_le_compat_r; [done|discriminate].
  - change 0%Q with (inject_Z 0). by rewrite <- Zle_Qle.
Qed.

(** X2.  Percentiles are monotone: on a histogram whose count is not
    negative, p ≤ q gives getPercentile(p) ≤ getPercentile(q). *)
Theorem getPercentile_monotone (h : t) (p q : Q) :
  0 <= count h -> (p <= q)%Q -> (getPercentile p h <= getPercentile q h)%Q.
Proof.
  intros Hc Hpq. unfold getPercentile.
  destruct (count h =? 0); [apply Qle_refl|].
  apply percentile_loop_mono; [by apply targetCount_mono|lia|].
  rewrite Z2Nat.id; unfold HISTOGRAM_BUCKETS; lia.
Qed.

Lemma getPercentile_monotone_witness :
  let h := record_all [1500; 20000000; 0; 999] empty in
  (getPercentile 50 h <= getPercentile 99 h)%Q.
Proof.
  intros h. apply (getPercentile_monotone h 50 99).
  - by vm_compute.
  - by vm_compute.
Defined.

(** The target is at least 1 on a non-empty histogram as soon as p / 100
    is not below the smallest positive binary64 number, 2^-1074 (a smaller
    quotient rounds to 0, and so does the target). *)
Lemma targetCount_pos p h :
  0 < count h -> (Double.pow2 (-1074) <= p / 100)%Q -> 1 <= targetCount p h.
Proof.
  intros Hc Hp. unfold targetCount.
  pose proof (pow2_pos (-1074)) as Hpos.
  assert (Double.round (Double.pow2 (-1074)) == Double.pow2 (-1074))%Q as Hmin.
  { assert (Double.pow2 (-1074) == inject_Z 1 * Double.pow2 (-1074))%Q as Hx by ring.
    rewrite (round_compat _ _ Hx), round_dyadic by (by vm_compute).
    symmetry. exact Hx. }
  assert (Double.pow2 (-1074) <= Double.round (p / 100))%Q as H1.
  { rewrite <- Hmin. by apply round_mono. }
  assert (1 <= inject_Z (count h))%Q as Hc1.
  { change 1%Q with (inject_Z 1). rewrite <- Zle_Qle. lia. }
  assert (Double.pow2 (-1074) <= Double.round (p / 100) * inject_Z (count h))%Q as H2.
  { apply Qle_trans with (Double.round (p / 100) * 1)%Q; [lra|].
    apply Qmult_le_l; [lra|done]. }
  assert (Double.pow2 (-1074)
          <= Double.round (Double.round (p / 100) * inject_Z (count h)))%Q as H3.
  { rewrite <- Hmin. by apply round_mono. }
  set (x := Double.round (Double.round (p / 100) * inject_Z (count h))) in *.
  pose proof (Qle_ceiling x) as Hceil.
  assert (inject_Z 0 < inject_Z (Qceiling x))%Q as Hlt.
  { change (inject_Z 0) with 0%Q. lra. }
  rewrite <- Zlt_Qlt in Hlt. lia.
Qed.

(** When the target is not 0 the scan stops in a bucket that holds a
    sample. *)
Lemma percentile_in_sample_bucket vs p :
  vs <> [] -> Forall (fun x => 0 <= x) vs -> Z.of_nat (length vs) < 2 ^ 32 ->
  (Double.pow2 (-1074) <= p / 100)%Q -> (p <= 100)%Q ->
  exists v, v ∈ vs /\ getPercentile p (record_all vs empty) = midpoint (safeIndex v).
Proof.
  intros Hne Hvs Hlen Hp0 Hp100.
  set (h := record_all vs empty).
  assert (shape_ok h) as [Hshape Hrange] by apply shape_ok_record_all, shape_ok_empty.
  destruct (record_all_counted vs Hvs Hlen) as [Htot Hcount]. fold h in Htot, Hcount.
  assert (0 < count h) as Hpos by (rewrite Hcount; destruct vs; [done|simpl; lia]).
  pose proof (targetCount_pos p h Hpos Hp0) as Ht1.
  assert (targetCount p h <= count h) as Ht2 by (apply targetCount_le_count; [lia|done]).
  destruct bucket_count_succ as [n Hn].
  destruct (percentile_loop_first (buckets h) (targetCount p h)
              (Z.to_nat HISTOGRAM_BUCKETS) 0) as (m & Hm & Hreach & Hfirst & Heq).
  { lia. }
  { exists n. split; [lia|].
    by rewrite cumulative_nat, <- Hn, <- Hshape, firstn_all, Htot. }
  assert (0 <= Z.of_nat m < HISTOGRAM_BUCKETS) as Hrange_m.
  { rewrite Hn in Hm. assert (Z.to_nat HISTOGRAM_BUCKETS = S n) as Hn' by done.
    apply (f_equal Z.of_nat) in Hn'. rewrite Z2Nat.id in Hn' by (by vm_compute). lia. }
  pose proof (record_all_bucket vs (Z.of_nat m) Hvs Hlen Hrange_m) as Hbucket.
  fold h in Hbucket. rewrite bucket_get_nat in Hbucket.
  assert (1 <= Runs.samples_in (Z.of_nat m) vs) as Hsome.
  { rewrite cumulative_nat, (bucket_total_take_S _ _ _ Hbucket) in Hreach.
    destruct m as [|m'].
    - simpl in Hreach. lia.
    - specialize (Hfirst m'). rewrite cumulative_nat in Hfirst.
      assert (bucket_total (take (S m') (buckets h)) < targetCount p h) by (apply Hfirst; lia).
      lia. }
  apply samples_in_pos in Hsome as (v & Hv & Hidx).
  exists v. split; [done|]. rewrite Hidx.
  unfold getPercentile. fold h. destruct (Z.eqb_spec (count h) 0); [lia|]. exact Heq.
Qed.

Lemma midpoint_value i : (midpoint i == inject_Z (BUCKET_WIDTH_US * i + 500))%Q.
Proof.
  unfold midpoint. rewrite BUCKET_WIDTH_US_value, inject_Z_plus, inject_Z_mult.
  change (inject_Z 1000) with 1000%Q. change (inject_Z 500) with 500%Q. ring.
Qed.

(** The midpoint of a sample's bucket is within half a bucket of the sample,
    clamped to L_max − 1. *)
Lemma midpoint_near_sample v :
  0 <= v ->
  (inject_Z (Z.min v (MAX_LATENCY_US - 1)) - 500 <= midpoint (safeIndex v))%Q /\
  (midpoint (safeIndex v) <= inject_Z (Z.min v (MAX_LATENCY_US - 1)) + 500)%Q.
Proof.
  intros Hv. rewrite midpoint_value, safeIndex_floor by done.
  rewrite BUCKET_WIDTH_US_value.
  set (c := Z.min v (MAX_LATENCY_US - 1)).
  pose proof (Z.mul_div_le c 1000 ltac:(lia)) as Hlo.
  pose proof (Z.mul_succ_div_gt c 1000 ltac:(lia)) as Hhi.
  change 500%Q with (inject_Z 500).
  unfold Qminus. rewrite <- inject_Z_opp, <- !inject_Z_plus, <- !Zle_Qle. lia.
Qed.

(** X3.  For p ≤ 100 with p / 100 ≥ 2^-1074 (the smallest positive
    binary64 number: the quotient does not round to 0), the percentile of
    a non-empty run of fewer than 2^32 non-negative samples is the midpoint
    of the bucket of one of the samples, hence within w / 2 = 500 µs of
    that sample clamped to L_max − 1. *)
Theorem percentile_within_half_bucket_of_a_sample (vs : list Z) (p : Q) :
  vs <> [] -> Forall (fun x => 0 <= x) vs -> Z.of_nat (length vs) < 2 ^ 32 ->
  (Double.pow2 (-1074) <= p / 100)%Q -> (p <= 100)%Q ->
  exists v, v ∈ vs /\
    getPercentile p (record_all vs empty) = midpoint (safeIndex v) /\
    (inject_Z (Z.min v (MAX_LATENCY_US - 1)) - 500
       <= getPercentile p (record_all vs empty))%Q /\
    (getPercentile p (record_all vs empty)
       <= inject_Z (Z.min v (MAX_LATENCY_US - 1)) + 500)%Q.
Proof.
  intros Hne Hvs Hlen Hp0 Hp100.
  destruct (percentile_in_sample_bucket vs p Hne Hvs Hlen Hp0 Hp100) as (v & Hv & Heq).
  exists v. split; [done|]. split; [done|]. rewrite Heq.
  apply midpoint_near_sample. by eapply Forall_forall in Hvs.
Qed.

Lemma percentile_within_half_bucket_of_a_sample_witness :
  exists v, v ∈ [1500; 20000000; 0; 999] /\
    getPercentile 50 (record_all [1500; 20000000; 0; 999] empty) = midpoint (safeIndex v).
Proof.
  destruct (percentile_within_half_bucket_of_a_sample [1500; 20000000; 0; 999] 50)
    as (v & Hv & Heq & _).
  - discriminate.
  - repeat constructor; lia.
  - simpl. lia.
  - by vm_compute.
  - discriminate.
  - exists v. split; [exact Hv | exact Heq].
Defined.

(** X4.  When every sample is at or above L_max, every percentile with
    p ≤ 100 and p / 100 ≥ 2^-1074 is the midpoint of the last bucket, a
    value in [L_max − w, L_max). *)
Theorem saturated_samples_report_last_bucket (vs : list Z) (p : Q) :
  vs <> [] -> Forall (fun x => MAX_LATENCY_US <= x) vs -> Z.of_nat (length vs) < 2 ^ 32 ->
  (Double.pow2 (-1074) <= p / 100)%Q -> (p <= 100)%Q ->
  getPercentile p (record_all vs empty) = midpoint (HISTOGRAM_BUCKETS - 1) /\
  (inject_Z (MAX_LATENCY_US - BUCKET_WIDTH_US) <= getPercentile p (record_all vs empty))%Q /\
  (getPercentile p (record_all vs empty) < inject_Z MAX_LATENCY_US)%Q.
Proof.
  intros Hne Hvs Hlen Hp0 Hp100.
  assert (Forall (fun x => 0 <= x) vs) as Hnn.
  { eapply Forall_impl; [exact Hvs|]. unfold MAX_LATENCY_US. simpl. lia. }
  destruct (percentile_in_sample_bucket vs p Hne Hnn Hlen Hp0 Hp100) as (v & Hv & Heq).
  rewrite Heq, safeIndex_last by (by eapply Forall_forall in Hvs).
  split; [done|]. split; by vm_compute.
Qed.

Lemma saturated_samples_report_last_bucket_witness :
  getPercentile (999 # 10) (record_all [20000000; 10000000] empty) =
    midpoint (HISTOGRAM_BUCKETS - 1).
Proof.
  apply (saturated_samples_report_last_bucket [20000000; 10000000] (999 # 10)).
  - discriminate.
  - repeat constructor; unfold MAX_LATENCY_US; lia.
  - simpl. lia.
  - by vm_compute.
  - discriminate.
Defined.

End HistogramSamples.

(** ** Histogram: merging a histogram of samples is recording the samples *)

Section HistogramDelta.
Import Constants Histogram.

Implicit Types (bs : list Z) (h : t) (i j v : Z) (vs : list Z).

Lemma merge_empty h : shape_ok h -> merge empty h = h.
Proof.
  intros Hs. apply histogram_eq.
  - apply list_eq. intros k.
    rewrite (merge_buckets_lookup h empty k Hs shape_ok_empty).
    destruct Hs as [Hlen Hrange].
    destruct (buckets h !! k) as [a|] eqn:Ha; [|done].
    assert (k < Z.to_nat HISTOGRAM_BUCKETS)%nat as Hk.
    { rewrite <- Hlen. by eapply lookup_lt_Some. }
    unfold empty. cbn [buckets]. rewrite lookup_replicate_2 by done.
    f_equal. rewrite Z.add_0_r. apply wrap32_small.
    by apply (Forall_lookup_1 _ _ _ _ Hrange) in Ha.
  - unfold merge, import, export, empty. cbn. lia.
  - reflexivity.
  - reflexivity.
  - unfold merge, import, export, empty. cbn. lia.
Qed.

Lemma merge_record v other h :
  well_formed other -> well_formed h ->
  merge (record v other) h = record v (merge other h).
Proof.
  intros Ho Hh.
  pose proof (well_formed_record v other Ho) as Hro.
  destruct Ho as (Hso & Hco & Hmino & Hmaxo & Hzo).
  destruct Hh as (Hsh & Hch & Hminh & Hmaxh & Hzh).
  apply histogram_eq.
  - apply list_eq. intros k.
    rewrite record_buckets_lookup.
    rewrite !merge_buckets_lookup by (done || apply Hro).
    rewrite record_buckets_lookup.
    destruct (decide _) as [[Hidx ->]|Hno].
    + destruct (buckets h !! Z.to_nat (safeIndex v)) as [a|]; [|done].
      destruct (buckets other !! Z.to_nat (safeIndex v)) as [b|]; [|done].
      simpl. f_equal. rewrite wrap32_add_l, wrap32_add_r. f_equal. lia.
    + done.
  - unfold merge, import, export. cbn. lia.
  - unfold merge. rewrite !export_id. cbn [import record Histogram.min count].
    ltb_cases; lia.
  - unfold merge. rewrite !export_id. cbn [import record Histogram.max count].
    ltb_cases; lia.
  - unfold merge, import, export. cbn. lia.
Qed.

Lemma well_formed_record_all vs h : well_formed h -> well_formed (record_all vs h).
Proof.
  induction vs as [|v vs IH] using rev_ind; [done|].
  intros Hh. rewrite record_all_snoc. by apply well_formed_record, IH.
Qed.



(** X6.  After a non-empty run of samples in [0, MAX_SAFE_INTEGER] is
    recorded on a new histogram, getMin() and getMax() are samples of the
    run and every sample lies between them. *)
Theorem getMin_getMax_are_extreme_samples (vs : list Z) :
  vs <> [] -> Forall (fun x => 0 <= x <= MAX_SAFE_INTEGER) vs ->
  let h := record_all vs empty in
  getMin h ∈ vs /\ getMax h ∈ vs /\ Forall (fun x => getMin h <= x <= getMax h) vs.
Proof.
  intros Hne Hvs h. subst h.
  assert (count (record_all vs empty) = Z.of_nat (length vs)) as Hcount.
  { clear. induction vs as [|v vs IH] using rev_ind; [done|].
    rewrite record_all_snoc, length_app. cbn [record count]. rewrite IH. simpl. lia. }
  unfold getMin, getMax. rewrite Hcount.
  destruct (Z.ltb_spec 0 (Z.of_nat (length vs))) as [_|Hz];
    [|destruct vs; [done|simpl in Hz; lia]].
  clear Hcount. induction vs as [|v vs IH] using rev_ind; [done|].
  apply Forall_app in Hvs as [Hvs Hv]. apply Forall_inv in Hv.
  rewrite record_all_snoc. cbn [record Histogram.min Histogram.max].
  destruct vs as [|v0 vs0].
  - cbn. unfold MAX_SAFE_INTEGER in *. ltb_cases; try lia;
      repeat split; try (apply list_elem_of_singleton; lia);
      apply Forall_singleton; lia.
  - destruct IH as (Hmin & Hmax & Hall); [done|done|].
    set (h := record_all (v0 :: vs0) empty) in *.
    split; [|split].
    + destruct (Z.ltb_spec v (Histogram.min h)); apply elem_of_app;
        [right; by apply list_elem_of_singleton|by left].
    + destruct (Z.ltb_spec (Histogram.max h) v); apply elem_of_app;
        [right; by apply list_elem_of_singleton|by left].
    + apply Forall_app. split.
      * eapply Forall_impl; [exact Hall|]. intros x Hx. simpl in *. ltb_cases; lia.
      * apply Forall_singleton. ltb_cases; lia.
Qed.

Lemma getMin_getMax_are_extreme_samples_witness :
  getMin (record_all [1500; 20000000; 999] empty) ∈ [1500; 20000000; 999].
Proof.
  destruct (getMin_getMax_are_extreme_samples [1500; 20000000; 999]) as (Hmin & _).
  - discriminate.
  - repeat constructor; unfold MAX_SAFE_INTEGER; lia.
  - exact Hmin.
Defined.

End HistogramDelta.

(** ** Rate limiter: admissions are bounded by capacity plus rate × time *)

Section TokenBucketRate.
Import RateLimiter.
Local Open Scope Q_scope.

Implicit Types (l : t) (now : Q).

Local Abbreviation credit := Runs.credit.

Lemma refill_credit t0 now l :
  0 <= ratePerSecond l -> credit t0 (refill now l) <= credit t0 l.
Proof.
  intros Hr. unfold Runs.credit, refill.
  destruct (Qle_bool 1 _) eqn:Hadd; [|apply Qle_refl].
  cbn [tokens lastRefill ratePerSecond].
  pose proof (Q.le_min_r (ratePerSecond l)
                (tokens l + (now - lastRefill l) / 1000 * ratePerSecond l)) as Hmin.
  assert ((now - t0) / 1000 * ratePerSecond l ==
          (lastRefill l - t0) / 1000 * ratePerSecond l
          + (now - lastRefill l) / 1000 * ratePerSecond l) as Hsplit by field.
  lra.
Qed.

Lemma spend_credit t0 l : credit t0 (spend l) == credit t0 l - 1.
Proof. unfold Runs.credit, spend. cbn [tokens lastRefill ratePerSecond]. ring. Qed.

Lemma tryAcquire_credit t0 now l :
  0 <= ratePerSecond l ->
  credit t0 (fst (tryAcquire now l)) <=
    credit t0 l - (if snd (tryAcquire now l) then 1 else 0).
Proof.
  intros Hr. unfold tryAcquire.
  pose proof (refill_credit t0 now l Hr) as Hc.
  destruct (Qle_bool 1 _); cbn [fst snd].
  - rewrite spend_credit. lra.
  - lra.
Qed.

Lemma tryAcquire_rate now l : ratePerSecond (fst (tryAcquire now l)) = ratePerSecond l.
Proof.
  unfold tryAcquire. destruct (refill_fields now l) as [H1 _].
  by destruct (Qle_bool 1 _).
Qed.

Lemma tryAcquire_all_spec t0 times l :
  inv l ->
  let r := Runs.tryAcquire_all times l in
  inv (fst r) /\ ratePerSecond (fst r) = ratePerSecond l /\
  (0 <= snd r <= Z.of_nat (length times))%Z /\
  credit t0 (fst r) <= credit t0 l - inject_Z (snd r).
Proof.
  revert l. induction times as [|now times IH]; intros l Hinv.
  - cbn [Runs.tryAcquire_all length fst snd]. change (inject_Z 0) with 0.
    split; [done|]. split; [done|]. split; [lia|lra].
  - cbn [Runs.tryAcquire_all length].
    pose proof (tryAcquire_inv now l Hinv) as Hinv1.
    pose proof (tryAcquire_rate now l) as Hrate1.
    assert (0 <= ratePerSecond l) as Hr0.
    { destruct Hinv as (? & ? & _). lra. }
    pose proof (tryAcquire_credit t0 now l Hr0) as Hc1.
    destruct (tryAcquire now l) as [l1 ok]. cbn [fst snd] in *.
    specialize (IH l1 Hinv1). cbn zeta in IH.
    destruct (Runs.tryAcquire_all times l1) as [l2 n]. cbn [fst snd] in *.
    destruct IH as (Hinv2 & Hrate2 & Hn & Hc2).
    split; [done|]. split; [congruence|]. split; [destruct ok; lia|].
    rewrite inject_Z_plus. destruct ok.
    + change (inject_Z 1) with 1. lra.
    + change (inject_Z 0) with 0. lra.
Qed.



End TokenBucketRate.

(** ** Lifecycle: the phase follows the deadlines *)

Section LifecyclePhases.
Import Lifecycle.
Local Open Scope Q_scope.

Implicit Types (l : t) (now : Q).

Lemma Qltb_false x y : Js.Qltb x y = false <-> y <= x.
Proof.
  unfold Js.Qltb. rewrite negb_false_iff. apply Qle_bool_iff.
Qed.

Ltac q_cases :=
  repeat match goal with
    | |- context [Qle_bool ?x ?y] =>
        let H := fresh "Hq" in
        destruct (Qle_bool x y) eqn:H;
        [apply Qle_bool_true in H|apply Qle_bool_false in H]
    | |- context [Js.Qltb ?x ?y] =>
        let H := fresh "Hq" in
        destruct (Js.Qltb x y) eqn:H;
        [apply Qltb_true in H|apply Qltb_false in H]
    end.



(** X10.  update() never moves the phase backwards, never leaves cooldown
    or complete, never enters complete, and an update at a later reading
    absorbs an earlier one. *)
Theorem update_only_advances (l : t) (now later : Q) :
  now <= later ->
  (rank (phase l) <= rank (phase (update now l)))%Z /\
  (phase l = Cooldown -> update now l = l) /\
  (phase l = Complete -> update now l = l) /\
  (phase l = Idle -> update now l = l) /\
  (phase (update now l) = Complete -> phase l = Complete) /\
  update later (update now l) = update later l.
Proof.
  intros Hle. destruct l as [p wd md st we me]. unfold update.
  cbn [phase warmupEndTime mainEndTime set_phase].
  destruct p; cbn [phase warmupEndTime mainEndTime set_phase rank];
    q_cases; cbn [phase warmupEndTime mainEndTime set_phase rank]; q_cases;
    cbn [phase warmupEndTime mainEndTime set_phase rank];
    repeat split; try done; try lia; q_cases; try reflexivity; exfalso;
    cbn [phase set_phase warmupEndTime mainEndTime] in *; lra.
Qed.

Lemma update_only_advances_witness :
  update 5000 (update 2500 (start 1000 (create 10 1))) =
  update 5000 (start 1000 (create 10 1)).
Proof.
  destruct (update_only_advances (start 1000 (create 10 1)) 2500 5000)
    as (_ & _ & _ & _ & _ & H).
  - discriminate.
  - exact H.
Defined.

(** X11.  For a positive duration getProgress() stays in [0, 100] at every
    clock reading, is 0 up to the end of the warmup and 100 from the main
    deadline on; getRemainingMs() is never negative and is 0 outside the
    running phase. *)
Theorem progress_is_a_percentage (l : t) (now : Q) :
  0 < mainDuration l ->
  0 <= getProgress now l /\ getProgress now l <= 100 /\
  (now <= warmupEndTime l -> getProgress now l == 0) /\
  (warmupEndTime l + mainDuration l <= now -> getProgress now l == 100) /\
  0 <= getRemainingMs now l /\
  (phase l <> Running -> getRemainingMs now l = 0).
Proof.
  intros Hd. unfold getProgress, getRemainingMs.
  set (x := (now - warmupEndTime l) / mainDuration l * 100).
  split; [|split; [|split; [|split; [|split]]]].
  - apply Q.min_glb; [discriminate|apply Q.le_max_l].
  - apply Q.le_min_l.
  - intros Hnow.
    assert (x <= 0) as Hx.
    { unfold x. assert ((now - warmupEndTime l) / mainDuration l <= 0).
      { apply Qle_shift_div_r; [done|]. lra. }
      lra. }
    rewrite (Q.max_l 0 x) by done. by rewrite Q.min_r.
  - intros Hnow.
    assert (100 <= x) as Hx.
    { unfold x. assert (1 <= (now - warmupEndTime l) / mainDuration l).
      { apply Qle_shift_div_l; [done|]. lra. }
      lra. }
    rewrite (Q.max_r 0 x) by lra. by rewrite Q.min_l.
  - destruct (phase l); try apply Qle_refl. apply Q.le_max_l.
  - intros Hp. by destruct (phase l).
Qed.

Lemma progress_is_a_percentage_witness :
  getProgress 6000 (start 1000 (create 10 1)) <= 100.
Proof.
  destruct (progress_is_a_percentage (start 1000 (create 10 1)) 6000) as (_ & H & _).
  - reflexivity.
  - exact H.
Defined.

End LifecyclePhases.

(** ** Ramp scheduler: the rate moves from the start rate to the target *)

Section Ramp.
Import RampScheduler.
Local Open Scope Q_scope.



(** X13.  createRampScheduler gives no scheduler when the ramp-up time is
    undefined or not positive; the scheduler it gives starts at rate 0,
    has a positive ramp, and its rate never decreases towards a
    non-negative target. *)
Theorem created_ramp_is_monotone (target : Q) (rampUpSeconds : option Q) (t0 t1 t2 : Q) :
  0 <= target -> t0 <= t1 -> t1 <= t2 ->
  match createRampScheduler target rampUpSeconds t0 with
  | None => rampUpSeconds = None \/ exists s, rampUpSeconds = Some s /\ s <= 0
  | Some r =>
      (exists s, rampUpSeconds = Some s /\ 0 < s) /\
      0 < rampUpMs r /\ startRate r = 0 /\
      getCurrentRate t1 r <= getCurrentRate t2 r /\
      getRemainingMs t2 r <= getRemainingMs t1 r /\ 0 <= getRemainingMs t2 r
  end.
Proof.
  intros Htarget H01 H12. unfold createRampScheduler.
  destruct rampUpSeconds as [s|]; [|by left].
  destruct (Qle_bool s 0) eqn:Hs.
  - apply Qle_bool_true in Hs. right. by exists s.
  - apply Qle_bool_false in Hs.
    assert (0 < s * 1000) as Hms by lra.
    split; [by exists s|]. split; [done|]. split; [done|].
    unfold getCurrentRate, getRemainingMs, create.
    cbn [startRate targetRate rampUpMs startTime].
    split; [|split].
    + destruct (Qle_bool (s * 1000) (t1 - t0)) eqn:H1;
        destruct (Qle_bool (s * 1000) (t2 - t0)) eqn:H2;
        rewrite ?Qle_bool_true, ?Qle_bool_false in *.
      * apply Qle_refl.
      * exfalso. lra.
      * assert ((t1 - t0) / (s * 1000) <= 1) by (apply Qle_shift_div_r; [done|lra]).
        nra.
      * assert ((t1 - t0) / (s * 1000) <= (t2 - t0) / (s * 1000)).
        { unfold Qdiv. apply Qmult_le_compat_r; [lra|].
          apply Qlt_le_weak, Qinv_lt_0_compat. done. }
        nra.
    + apply Q.max_le_compat_l. lra.
    + apply Q.le_max_l.
Qed.

Lemma created_ramp_is_monotone_witness :
  exists r, createRampScheduler 100 (Some 2) 1000 = Some r /\
    getCurrentRate 1500 r <= getCurrentRate 2500 r.
Proof.
  pose proof (created_ramp_is_monotone 100 (Some 2) 1000 1500 2500) as H.
  destruct (createRampScheduler 100 (Some 2) 1000) as [r|] eqn:Hr.
  - exists r. split; [reflexivity|].
    destruct H as (_ & _ & _ & Hmono & _); [discriminate|discriminate|discriminate|].
    exact Hmono.
  - discriminate Hr.
Defined.

End Ramp.

(** ** Orchestrator: worker count and per-worker shares *)

Section Shares.
Import Constants WorkerShares.

Lemma inject_Z_pos n : 0 < n -> (0 < inject_Z n)%Q.
Proof. intros Hn. change 0%Q with (inject_Z 0). by rewrite <- Zlt_Qlt. Qed.

(** [n] shares of ⌈c / n⌉ cover [c] and exceed it by less than [n]. *)
Lemma ceil_share (c : Q) (n : Z) :
  0 < n ->
  (c <= inject_Z (n * Qceiling (c / inject_Z n)))%Q /\
  (inject_Z (n * Qceiling (c / inject_Z n)) < c + inject_Z n)%Q.
Proof.
  intros Hn. pose proof (inject_Z_pos n Hn) as Hq.
  set (x := (c / inject_Z n)%Q).
  pose proof (Qle_ceiling x) as Hup. pose proof (Qceiling_lt x) as Hlow.
  assert (x * inject_Z n == c)%Q as Hx.
  { unfold x. field. intros Hz. rewrite Hz in Hq. by apply (Qlt_irrefl 0). }
  rewrite inject_Z_mult.
  replace (Qceiling x - 1) with (Qceiling x + -1) in Hlow by lia.
  rewrite inject_Z_plus in Hlow. change (inject_Z (-1)) with (-1)%Q in Hlow.
  set (k := inject_Z (Qceiling x)) in *.
  split; nra.
Qed.



End Shares.

(** ** Percentiles: rounding to two decimals *)

Section Rounding.
Import Percentiles.
Local Open Scope Q_scope.

Lemma factor_pos decimals : (0 <= decimals)%Z -> 0 < inject_Z (10 ^ decimals).
Proof. intros Hd. apply inject_Z_pos. by apply Z.pow_pos_nonneg. Qed.

Lemma Qfloor_half k : Qfloor (inject_Z k + (1 # 2)) = k.
Proof.
  pose proof (Qfloor_le (inject_Z k + (1 # 2))) as Hle.
  pose proof (Qlt_floor (inject_Z k + (1 # 2))) as Hlt.
  set (m := Qfloor (inject_Z k + (1 # 2))) in *.
  rewrite inject_Z_plus in Hlt. change (inject_Z 1) with 1 in Hlt.
  assert (inject_Z m < inject_Z (k + 1)) as H1
    by (rewrite inject_Z_plus; change (inject_Z 1) with 1; lra).
  assert (inject_Z (k - 1) < inject_Z m) as H2.
  { unfold Z.sub. rewrite inject_Z_plus, inject_Z_opp. change (inject_Z 1) with 1. lra. }
  rewrite <- Zlt_Qlt in H1, H2. lia.
Qed.

Lemma roundTo_mono (x y : Q) (decimals : Z) :
  (0 <= decimals)%Z -> x <= y -> roundTo x decimals <= roundTo y decimals.
Proof.
  intros Hd Hxy. pose proof (factor_pos decimals Hd) as Hf.
  unfold roundTo, Math_round. apply round_mono.
  unfold Qdiv. apply Qmult_le_compat_r.
  - rewrite <- Zle_Qle. apply Qfloor_resp_le.
    assert (Double.round (x * inject_Z (10 ^ decimals))
            <= Double.round (y * inject_Z (10 ^ decimals))).
    { apply round_mono. apply Qmult_le_compat_r; [done|lra]. }
    lra.
  - by apply Qlt_le_weak, Qinv_lt_0_compat.
Qed.

(** An integer that keeps 53 bits after the scaling is left as it is. *)
Lemma roundTo_Z (n decimals : Z) :
  (0 <= decimals)%Z -> (Z.abs n * 10 ^ decimals <= 2 ^ 53)%Z ->
  roundTo (inject_Z n) decimals == inject_Z n.
Proof.
  intros Hd Hn. pose proof (factor_pos decimals Hd) as Hf.
  assert (0 < 10 ^ decimals)%Z as Hpow by (by apply Z.pow_pos_nonneg).
  assert (Z.abs n <= 2 ^ 53)%Z as Hn' by nia.
  unfold roundTo, Math_round.
  assert (inject_Z n * inject_Z (10 ^ decimals) == inject_Z (n * 10 ^ decimals)) as Hprod
    by (by rewrite inject_Z_mult).
  assert (Double.round (inject_Z n * inject_Z (10 ^ decimals))
          == inject_Z (n * 10 ^ decimals)) as Hr.
  { rewrite (round_compat _ _ Hprod). apply round_Z. rewrite Z.abs_mul.
    rewrite (Z.abs_eq (10 ^ decimals)) by lia. exact Hn. }
  assert (Qfloor (Double.round (inject_Z n * inject_Z (10 ^ decimals)) + (1 # 2))
          = (n * 10 ^ decimals)%Z) as ->.
  { rewrite <- (Qfloor_half (n * 10 ^ decimals)). apply Qfloor_comp. by rewrite Hr. }
  assert (inject_Z (n * 10 ^ decimals) / inject_Z (10 ^ decimals) == inject_Z n) as Hq.
  { rewrite inject_Z_mult. field. lra. }
  rewrite (round_compat _ _ Hq). by apply round_Z.
Qed.



End Rounding.

(** ** Aggregator: what [getMetrics] reports *)

Section AggregatedResult.
Import Constants.

Lemma record_all_count vs (h : Histogram.t) :
  Histogram.count (Histogram.record_all vs h) = Histogram.count h + Z.of_nat (length vs).
Proof.
  induction vs as [|v vs IH] using rev_ind; [simpl; lia|].
  rewrite record_all_snoc, length_app. cbn [Histogram.record Histogram.count].
  rewrite IH. simpl. lia.
Qed.

Lemma addAll_snoc snapshots s a :
  MetricsAggregator.addAll (snapshots ++ [s]) a =
  MetricsAggregator.addSnapshot s (MetricsAggregator.addAll snapshots a).
Proof. unfold MetricsAggregator.addAll. by rewrite foldl_app. Qed.

Lemma addAll_count_nonneg snapshots :
  0 <= Histogram.count (MetricsAggregator.histogram
                          (MetricsAggregator.addAll snapshots MetricsAggregator.empty)).
Proof.
  induction snapshots as [|s snapshots IH] using rev_ind; [done|].
  rewrite addAll_snoc. cbn [MetricsAggregator.addSnapshot MetricsAggregator.histogram].
  rewrite record_all_count. lia.
Qed.

Lemma reported_percentile_mono (h : Histogram.t) (p q : Q) :
  0 <= Histogram.count h -> (p <= q)%Q ->
  (Percentiles.roundTo (Double.round (Histogram.getPercentile p h / 1000)) 2
   <= Percentiles.roundTo (Double.round (Histogram.getPercentile q h / 1000)) 2)%Q.
Proof.
  intros Hc Hpq. apply roundTo_mono; [lia|]. apply round_mono.
  unfold Qdiv. apply Qmult_le_compat_r; [|discriminate].
  unfold Histogram.getPercentile.
  destruct (Histogram.count h =? 0); [apply Qle_refl|].
  apply percentile_loop_mono; [by apply targetCount_mono|lia|].
  rewrite Z2Nat.id; unfold HISTOGRAM_BUCKETS; lia.
Qed.

(** X16.  Whatever snapshots the aggregator has been fed, the latency
    percentiles of getMetrics() are ordered:
    p50 ≤ p75 ≤ p90 ≤ p95 ≤ p99 ≤ p999. *)
Theorem reported_percentiles_are_ordered
    (Math_sqrt : Q -> Q) (snapshots : list Types.MetricsSnapshot) :
  let latency :=
    MetricsAggregator.m_latency
      (MetricsAggregator.getMetrics Math_sqrt
         (MetricsAggregator.addAll snapshots MetricsAggregator.empty)) in
  (Types.p50 latency <= Types.p75 latency)%Q /\
  (Types.p75 latency <= Types.p90 latency)%Q /\
  (Types.p90 latency <= Types.p95 latency)%Q /\
  (Types.p95 latency <= Types.p99 latency)%Q /\
  (Types.p99 latency <= Types.p999 latency)%Q.
Proof.
  intros latency. subst latency.
  pose proof (addAll_count_nonneg snapshots) as Hc.
  cbn [MetricsAggregator.getMetrics MetricsAggregator.m_latency
       Percentiles.formatLatencyStats Percentiles.calculatePercentiles
       Types.p50 Types.p75 Types.p90 Types.p95 Types.p99 Types.p999].
  repeat split; apply reported_percentile_mono; done.
Qed.

Lemma status_total_addStatus (codes : gmap Z Z) k n :
  Types.status_total (MetricsAggregator.addStatus k n codes) = Types.status_total codes + n.
Proof.
  unfold MetricsAggregator.addStatus.
  destruct (codes !! k) as [c|] eqn:Hk; simpl.
  - rewrite <- (insert_delete_eq codes k (c + n)).
    rewrite status_total_insert_fresh by apply lookup_delete_eq.
    rewrite (status_total_delete codes k c Hk). lia.
  - rewrite status_total_insert_fresh by done. lia.
Qed.

Lemma status_total_fold (codes m : gmap Z Z) :
  Types.status_total (map_fold MetricsAggregator.addStatus codes m) =
  Types.status_total codes + Types.status_total m.
Proof.
  apply (map_fold_weak_ind
           (fun r m' => Types.status_total r = Types.status_total codes + Types.status_total m')).
  - rewrite status_total_empty. lia.
  - intros i x m' r Hi IH.
    rewrite status_total_addStatus, IH, status_total_insert_fresh by done. lia.
Qed.

(** The copy loop of [getMetrics] returns the map it copies. *)
Lemma copied_status_codes (m : gmap Z Z) :
  map_fold (fun code count acc => <[code := count]> acc) ∅ m = m.
Proof.
  apply (map_fold_weak_ind (fun r m' => r = m')); [done|].
  by intros i x m' r _ ->.
Qed.

Lemma addAll_tallies snapshots :
  Forall Runs.tally_ok snapshots ->
  let a := MetricsAggregator.addAll snapshots MetricsAggregator.empty in
  MetricsAggregator.timeouts a + MetricsAggregator.connectionErrors a
    + Types.status_total (MetricsAggregator.statusCodes a) = MetricsAggregator.failedRequests a.
Proof.
  induction snapshots as [|s snapshots IH] using rev_ind; intros Hall.
  - simpl. rewrite status_total_empty. lia.
  - apply Forall_app in Hall as [Hall Hs]. apply Forall_inv in Hs.
    unfold Runs.tally_ok in Hs. specialize (IH Hall). cbn zeta in IH.
    rewrite addAll_snoc.
    cbn [MetricsAggregator.addSnapshot MetricsAggregator.timeouts
         MetricsAggregator.connectionErrors MetricsAggregator.statusCodes
         MetricsAggregator.failedRequests].
    rewrite status_total_fold. lia.
Qed.

Lemma unsettled_in_app xs ys :
  Runs.unsettled_in (xs ++ ys) = Runs.unsettled_in xs + Runs.unsettled_in ys.
Proof. induction xs as [|x xs IH]; simpl; lia. Qed.

Lemma unsettled_in_perm xs ys : xs ≡ₚ ys -> Runs.unsettled_in xs = Runs.unsettled_in ys.
Proof. induction 1; simpl; lia. Qed.

Lemma unsettled_in_replicate (n : nat) s :
  Runs.unsettled_in (replicate n s) =
  Z.of_nat n * (Types.requests s - Types.successful s - Types.failed s).
Proof.
  induction n as [|n IH]; [done|]. rewrite Nat2Z.inj_succ, Z.mul_succ_l.
  cbn [replicate]. unfold Runs.unsettled_in in *. cbn [foldr]. rewrite IH. lia.
Qed.

(** The aggregator's total exceeds its successes and failures by the
    unsettled requests of the snapshots it was fed. *)
Lemma addAll_unsettled snapshots a :
  let a' := MetricsAggregator.addAll snapshots a in
  MetricsAggregator.totalRequests a' - MetricsAggregator.successfulRequests a'
    - MetricsAggregator.failedRequests a' =
  MetricsAggregator.totalRequests a - MetricsAggregator.successfulRequests a
    - MetricsAggregator.failedRequests a + Runs.unsettled_in snapshots.
Proof.
  revert a. induction snapshots as [|s snapshots IH]; intros a; simpl; [lia|].
  unfold MetricsAggregator.addAll in *. cbn [foldl]. cbn zeta in IH. rewrite IH. simpl. lia.
Qed.

Lemma executeRequest_settled o st :
  RequestLoop.successful st + RequestLoop.failed st = RequestLoop.requests st ->
  let st' := RequestLoop.executeRequest o st in
  RequestLoop.successful st' + RequestLoop.failed st' = RequestLoop.requests st'.
Proof.
  intros H. destruct o as [response|err]; simpl; [|lia].
  destruct (RequestLoop.isSuccessStatus _); simpl; lia.
Qed.

Lemma executeRequest_errors_tally id o st :
  Runs.tally_ok (RequestLoop.getSnapshot id st) ->
  Runs.tally_ok (RequestLoop.getSnapshot id (RequestLoop.executeRequest o st)).
Proof.
  unfold Runs.tally_ok.
  cbn [RequestLoop.getSnapshot Types.errors Types.timeouts Types.connectionErrors
       Types.byStatusCode Types.failed].
  intros H. destruct o as [response|err]; simpl.
  - destruct (RequestLoop.isSuccessStatus _); simpl; [lia|].
    rewrite status_total_bump. lia.
  - destruct (RequestLoop.isTimeoutError err); simpl; lia.
Qed.

Lemma step_tallies id events acc :
  Runs.tally_ok (RequestLoop.getSnapshot id (fst acc)) ->
  Forall Runs.tally_ok (snd acc) ->
  let acc' := foldl (RequestLoop.step id) acc events in
  Runs.tally_ok (RequestLoop.getSnapshot id (fst acc')) /\ Forall Runs.tally_ok (snd acc').
Proof.
  revert acc. induction events as [|ev events IH]; intros acc Hst Hout; [done|].
  cbn [foldl]. apply IH.
  - destruct ev as [o| |ticks o]; cbn [RequestLoop.step fst];
      [by apply executeRequest_errors_tally|done|by apply executeRequest_errors_tally].
  - destruct ev as [o| |ticks o]; cbn [RequestLoop.step snd]; [done| |].
    + apply Forall_app. split; [done|]. by apply Forall_singleton.
    + apply Forall_app. split; [done|]. apply Forall_replicate. exact Hst.
Qed.

(** The error tallies of every snapshot a worker sends add up. *)
Lemma handleStart_tallies id events :
  Forall (fun m => forall p, Runs.payload m = Some p -> Runs.tally_ok p)
         (Worker.handleStart id events).
Proof.
  unfold Worker.handleStart, RequestLoop.run.
  destruct (step_tallies id events (RequestLoop.createInitialState, [])) as [Hfinal Hsent].
  { unfold Runs.tally_ok. simpl. rewrite status_total_empty. lia. }
  { constructor. }
  cbn zeta in Hfinal, Hsent.
  apply Forall_app. split.
  - apply Forall_fmap. eapply Forall_impl; [exact Hsent|].
    intros s Hs p [= <-]. exact Hs.
  - apply Forall_singleton. intros p [= <-]. exact Hfinal.
Qed.

Lemma handleAll_snapshots messages o :
  Orchestrator.aggregator (Orchestrator.handleAll messages o) =
  MetricsAggregator.addAll (omap Runs.payload messages) (Orchestrator.aggregator o).
Proof.
  revert o. induction messages as [|m messages IH]; intros o; [done|].
  unfold Orchestrator.handleAll in *. cbn [foldl]. rewrite IH.
  destruct m; reflexivity.
Qed.

Lemma handleStart_payloads id events :
  omap Runs.payload (Worker.handleStart id events) =
  fst (RequestLoop.run id events) ++ [snd (RequestLoop.run id events)].
Proof.
  unfold Worker.handleStart. destruct (RequestLoop.run id events) as [reported final].
  rewrite omap_app. cbn [fst snd]. f_equal.
  induction reported as [|s reported IH]; [done|]. cbn. by rewrite IH.
Qed.

(** A snapshot is unsettled exactly when it is taken in flight. *)
Lemma step_unsettled id events acc :
  RequestLoop.successful (fst acc) + RequestLoop.failed (fst acc)
    = RequestLoop.requests (fst acc) ->
  let acc' := foldl (RequestLoop.step id) acc events in
  RequestLoop.successful (fst acc') + RequestLoop.failed (fst acc')
    = RequestLoop.requests (fst acc') /\
  Runs.unsettled_in (snd acc') = Runs.unsettled_in (snd acc) + Runs.pending_ticks events.
Proof.
  revert acc. induction events as [|ev events IH]; intros acc Hst; [simpl; lia|].
  cbn [foldl]. destruct ev as [o| |ticks o].
  - destruct (IH (RequestLoop.step id acc (RequestLoop.Cycle o))) as [H1 H2].
    { cbn [RequestLoop.step fst]. by apply executeRequest_settled. }
    cbn zeta in *. split; [exact H1|]. rewrite H2. reflexivity.
  - destruct (IH (RequestLoop.step id acc RequestLoop.Tick)) as [H1 H2]; [done|].
    cbn zeta in *. split; [exact H1|]. rewrite H2.
    change (Runs.pending_ticks (RequestLoop.Tick :: events))
      with (Runs.pending_ticks events).
    cbn [RequestLoop.step snd]. rewrite unsettled_in_app.
    assert (Runs.unsettled_in [RequestLoop.getSnapshot id (fst acc)] = 0) as ->; [|lia].
    unfold Runs.unsettled_in. cbn [foldr RequestLoop.getSnapshot Types.requests
                                   Types.successful Types.failed]. lia.
  - destruct (IH (RequestLoop.step id acc (RequestLoop.Pending ticks o))) as [H1 H2].
    { cbn [RequestLoop.step fst]. by apply executeRequest_settled. }
    cbn zeta in *. split; [exact H1|]. rewrite H2.
    change (Runs.pending_ticks (RequestLoop.Pending ticks o :: events))
      with (Z.of_nat ticks + Runs.pending_ticks events).
    cbn [RequestLoop.step snd]. rewrite unsettled_in_app, unsettled_in_replicate.
    cbn [RequestLoop.getSnapshot RequestLoop.inFlight RequestLoop.requests
         RequestLoop.successful RequestLoop.failed Types.requests Types.successful
         Types.failed]. nia.
Qed.

Lemma worker_unsettled id events :
  Runs.unsettled_in (omap Runs.payload (Worker.handleStart id events)) =
  Runs.pending_ticks events.
Proof.
  rewrite handleStart_payloads, unsettled_in_app.
  destruct (step_unsettled id events (RequestLoop.createInitialState, [])) as [H1 H2];
    [done|].
  cbn zeta in *. unfold RequestLoop.run. cbn [fst snd] in *. rewrite H2.
  cbn [Runs.unsettled_in foldr RequestLoop.getSnapshot Types.requests Types.successful
       Types.failed]. lia.
Qed.

Lemma pending_ticks_nonneg events : 0 <= Runs.pending_ticks events.
Proof. induction events as [|[o| |ticks o] events IH]; simpl; lia. Qed.

(** X17.  For any number of workers with any traces of request cycles and
    timer ticks, and any order in which their messages arrive, the result
    the orchestrator assembles satisfies
    errors.timeouts + errors.connectionErrors + Σ errors.byStatusCode = requests.failed,
    and requests.total exceeds requests.successful + requests.failed by
    the number of snapshots that were taken while a request was in flight
    (such a snapshot counts the request under [requests] and under neither
    of the two): the three add up when no snapshot was taken in flight. *)
Theorem result_tallies_add_up
    (Math_sqrt : Q -> Q) (durationSec : Q)
    (workers : list (Z * list RequestLoop.Event)) (messages : list Types.WorkerResponse) :
  messages ≡ₚ concat (map (fun w => Worker.handleStart (fst w) (snd w)) workers) ->
  let result :=
    Orchestrator.finalize Math_sqrt durationSec
      (Orchestrator.handleAll messages Orchestrator.init) in
  Types.timeouts (Orchestrator.errors result)
    + Types.connectionErrors (Orchestrator.errors result)
    + Types.status_total (Types.byStatusCode (Orchestrator.errors result))
    = Orchestrator.failed (Orchestrator.requests result) /\
  Orchestrator.successful (Orchestrator.requests result)
    + Orchestrator.failed (Orchestrator.requests result)
    + Runs.pending_ticks_by workers
    = Orchestrator.total (Orchestrator.requests result) /\
  Orchestrator.successful (Orchestrator.requests result)
    + Orchestrator.failed (Orchestrator.requests result)
    <= Orchestrator.total (Orchestrator.requests result).
Proof.
  intros Hperm result. subst result.
  assert (Forall (fun m => forall p, Runs.payload m = Some p -> Runs.tally_ok p) messages)
    as Hall.
  { rewrite Hperm. apply Forall_concat, Forall_fmap, Forall_forall.
    intros [id events] _. apply handleStart_tallies. }
  pose proof (handleAll_snapshots messages Orchestrator.init) as Hagg.
  pose proof (addAll_unsettled (omap Runs.payload messages) MetricsAggregator.empty) as Hun.
  cbn zeta in Hun.
  rewrite (unsettled_in_perm _ _ (omap_Permutation Runs.payload _ _ Hperm)) in Hun.
  assert (Runs.unsettled_in
            (omap Runs.payload
               (concat (map (fun w => Worker.handleStart (fst w) (snd w)) workers)))
          = Runs.pending_ticks_by workers /\ 0 <= Runs.pending_ticks_by workers)
    as [Hpend Hnn].
  { clear. induction workers as [|[id events] workers [IH1 IH2]]; [done|].
    cbn [map concat fst snd Runs.pending_ticks_by foldr].
    rewrite omap_app, unsettled_in_app, worker_unsettled, IH1.
    fold (Runs.pending_ticks_by workers).
    pose proof (pending_ticks_nonneg events). split; [reflexivity|lia]. }
  rewrite Hpend in Hun.
  set (snapshots := omap Runs.payload messages) in *.
  assert (Forall Runs.tally_ok snapshots) as Hok.
  { subst snapshots. clear Hagg Hperm Hun.
    induction Hall as [|m ms Hm _ IH]; [constructor|].
    cbn [omap list_omap]. destruct (Runs.payload m) as [p|] eqn:Hp; [|exact IH].
    constructor; [by apply Hm|exact IH]. }
  pose proof (addAll_tallies snapshots Hok) as H1. cbn zeta in H1.
  unfold Orchestrator.finalize.
  cbn [Orchestrator.errors Orchestrator.requests Orchestrator.failed Orchestrator.successful
       Orchestrator.total MetricsAggregator.getMetrics MetricsAggregator.m_errors
       MetricsAggregator.m_failedRequests MetricsAggregator.m_successfulRequests
       MetricsAggregator.m_totalRequests Types.timeouts Types.connectionErrors
       Types.byStatusCode].
  rewrite copied_status_codes, Hagg. cbn [Orchestrator.init Orchestrator.aggregator].
  cbn [MetricsAggregator.empty MetricsAggregator.totalRequests
       MetricsAggregator.successfulRequests MetricsAggregator.failedRequests] in Hun.
  split; [exact H1|]. split; lia.
Qed.

Lemma result_tallies_add_up_witness :
  let events :=
    [RequestLoop.Cycle (HttpClient.Responded (HttpClient.mkResponse 500 10 1500));
     RequestLoop.Tick;
     RequestLoop.Pending 1 (HttpClient.Threw HttpClient.OtherValue)] in
  let result :=
    Orchestrator.finalize (fun x => x) 1
      (Orchestrator.handleAll (Worker.handleStart 0 events) Orchestrator.init) in
  Orchestrator.successful (Orchestrator.requests result)
    + Orchestrator.failed (Orchestrator.requests result) + 1
    = Orchestrator.total (Orchestrator.requests result).
Proof.
  intros events result.
  destruct (result_tallies_add_up (fun x => x) 1 [(0, events)]
              (Worker.handleStart 0 events)) as (_ & H & _).
  - cbn [map concat fst snd]. by rewrite app_nil_r.
  - exact H.
Defined.

End AggregatedResult.

(** ** Orchestrator: the reported total and the requests executed *)

Section ResultTotal.
Import Runs.

Lemma requests_in_app xs ys : requests_in (xs ++ ys) = requests_in xs + requests_in ys.
Proof. induction xs as [|x xs IH]; simpl; lia. Qed.

Lemma requests_in_perm xs ys : xs ≡ₚ ys -> requests_in xs = requests_in ys.
Proof. induction 1; simpl; lia. Qed.

Lemma requests_in_replicate (n : nat) s :
  requests_in (replicate n s) = Z.of_nat n * Types.requests s.
Proof.
  induction n as [|n IH]; [done|]. rewrite Nat2Z.inj_succ, Z.mul_succ_l.
  cbn [replicate]. unfold requests_in in *. cbn [foldr]. rewrite IH. lia.
Qed.

Lemma addAll_total snapshots a :
  MetricsAggregator.totalRequests (MetricsAggregator.addAll snapshots a) =
  MetricsAggregator.totalRequests a + requests_in snapshots.
Proof.
  revert a. induction snapshots as [|s snapshots IH]; intros a; simpl; [lia|].
  unfold MetricsAggregator.addAll in *. cbn [foldl]. rewrite IH. simpl. lia.
Qed.

Lemma step_reported id events acc :
  0 <= RequestLoop.requests (fst acc) ->
  let acc' := foldl (RequestLoop.step id) acc events in
  requests_in (snd acc) <= requests_in (snd acc') /\
  (Forall (fun ev => RequestLoop.isCycle ev = true) events -> snd acc' = snd acc).
Proof.
  revert acc. induction events as [|ev events IH]; intros acc Hacc; [done|].
  cbn [foldl]. destruct ev as [o| |ticks o].
  - destruct (IH (RequestLoop.step id acc (RequestLoop.Cycle o))) as [H1 H2].
    { cbn [RequestLoop.step fst]. rewrite executeRequest_requests. lia. }
    cbn zeta in *. split; [exact H1|].
    intros Hall. apply Forall_cons in Hall as [_ Hall]. by rewrite H2.
  - destruct (IH (RequestLoop.step id acc RequestLoop.Tick)) as [H1 H2]; [done|].
    cbn zeta in *. split.
    + etrans; [|exact H1]. cbn [RequestLoop.step snd]. rewrite requests_in_app.
      simpl. lia.
    + intros Hall. apply Forall_cons in Hall as [Hev _]. discriminate.
  - destruct (IH (RequestLoop.step id acc (RequestLoop.Pending ticks o))) as [H1 H2].
    { cbn [RequestLoop.step fst]. rewrite executeRequest_requests. lia. }
    cbn zeta in *. split.
    + etrans; [|exact H1]. cbn [RequestLoop.step snd].
      rewrite requests_in_app, requests_in_replicate. simpl. nia.
    + intros Hall. apply Forall_cons in Hall as [Hev _]. discriminate.
Qed.

Lemma worker_requests id events :
  let sent := omap payload (Worker.handleStart id events) in
  RequestLoop.executed events <= requests_in sent /\
  (Forall (fun ev => RequestLoop.isCycle ev = true) events ->
     requests_in sent = RequestLoop.executed events).
Proof.
  intros sent. subst sent. rewrite handleStart_payloads, requests_in_app.
  cbn [requests_in foldr]. rewrite final_snapshot_counts_all_requests.
  destruct (step_reported id events (RequestLoop.createInitialState, [])) as [H1 H2]; [done|].
  cbn zeta in *. unfold RequestLoop.run. cbn [fst snd] in *.
  split; [simpl in H1; lia|]. intros Hall. rewrite (H2 Hall). simpl. lia.
Qed.

(** X18.  The total the orchestrator reports is never below the number of
    requests the workers executed, whatever the order of arrival of their
    messages, and it is exactly that number when no worker sent a periodic
    snapshot (the run ended before the metrics interval elapsed). *)
Theorem result_total_counts_executed_requests
    (Math_sqrt : Q -> Q) (durationSec : Q)
    (workers : list (Z * list RequestLoop.Event)) (messages : list Types.WorkerResponse) :
  messages ≡ₚ concat (map (fun w => Worker.handleStart (fst w) (snd w)) workers) ->
  let result :=
    Orchestrator.finalize Math_sqrt durationSec
      (Orchestrator.handleAll messages Orchestrator.init) in
  executed_by workers <= Orchestrator.total (Orchestrator.requests result) /\
  (Forall (fun w => Forall (fun ev => RequestLoop.isCycle ev = true) (snd w)) workers ->
     Orchestrator.total (Orchestrator.requests result) = executed_by workers).
Proof.
  intros Hperm result. subst result.
  unfold Orchestrator.finalize.
  cbn [Orchestrator.requests Orchestrator.total MetricsAggregator.getMetrics
       MetricsAggregator.m_totalRequests].
  rewrite handleAll_snapshots, addAll_total.
  cbn [Orchestrator.init Orchestrator.aggregator MetricsAggregator.empty
       MetricsAggregator.totalRequests].
  rewrite (requests_in_perm _ _ (omap_Permutation payload _ _ Hperm)).
  clear Hperm messages.
  induction workers as [|[id events] workers [IH1 IH2]]; [done|].
  cbn [map concat fst snd executed_by foldr]. rewrite omap_app, requests_in_app.
  destruct (worker_requests id events) as [H1 H2]. cbn zeta in *.
  fold (executed_by workers).
  split; [lia|]. intros Hall. apply Forall_cons in Hall as [Hw Hall].
  cbn [snd] in Hw. specialize (H2 Hw). specialize (IH2 Hall). lia.
Qed.

Lemma result_total_counts_executed_requests_witness :
  let events :=
    [RequestLoop.Cycle (HttpClient.Responded (HttpClient.mkResponse 200 10 1500));
     RequestLoop.Cycle (HttpClient.Threw HttpClient.OtherValue)] in
  let result :=
    Orchestrator.finalize (fun x => x) 1
      (Orchestrator.handleAll (Worker.handleStart 0 events) Orchestrator.init) in
  Orchestrator.total (Orchestrator.requests result) = 2.
Proof.
  intros events result.
  destruct (result_total_counts_executed_requests (fun x => x) 1 [(0, events)]
              (Worker.handleStart 0 events)) as [_ H].
  - cbn [map concat fst snd]. by rewrite app_nil_r.
  - apply H. repeat constructor.
Defined.

End ResultTotal.

(** ** CLI: dispatch, positional arguments and the single-URL command *)

Section CliDispatch.
Import Constants Flags.
Variable parseInt10 : string -> Js.Num.
Variable parseFloat : string -> Js.Num.

Lemma flagsToConfig_url flags config :
  flagsToConfig flags = Some config -> head (urls flags) = Some (c_url config).
Proof.
  unfold flagsToConfig. destruct (urls flags) as [|u us]; [done|].
  by intros [= <-].
Qed.


Lemma not_dash_eqb (c : ascii) (s : string) :
  Js.startsWith "-" (String c s) = false -> Ascii.eqb c "-" = false.
Proof.
  unfold Js.startsWith. cbn [String.prefix].
  destruct (ascii_dec "-" c) as [<-|Hne].
  - by destruct s.
  - intros _. apply Ascii.eqb_neq. congruence.
Qed.

Lemma parse_arg_positional arg next flags :
  Js.startsWith "-" arg = false ->
  parse_arg parseInt10 parseFloat arg next flags = (set_urls (urls flags ++ [arg]) flags, false).
Proof.
  intros Hdash. unfold parse_arg. rewrite Hdash.
  destruct arg as [|c s]; [reflexivity|].
  apply not_dash_eqb in Hdash. cbn [String.eqb]. rewrite !Hdash. reflexivity.
Qed.

Lemma parse_loop_positional args flags :
  Forall (fun arg => Js.startsWith "-" arg = false) args ->
  parse_loop parseInt10 parseFloat args flags = set_urls (urls flags ++ args) flags.
Proof.
  revert flags. induction args as [|arg args IH]; intros flags Hargs.
  - rewrite app_nil_r. by destruct flags.
  - apply Forall_cons in Hargs as [Harg Hargs].
    destruct args as [|next rest].
    + cbn [parse_loop]. by rewrite parse_arg_positional.
    + rewrite parse_loop_unfold, parse_arg_positional by done. cbn [fst snd].
      rewrite IH by done. destruct flags. cbn. by rewrite <- app_assoc.
Qed.

(** X20.  Arguments that do not start with a dash are the URLs: they are
    all kept, in the order given, and every other setting keeps its default
    (GET, 50 connections, 10 s, 5000 ms timeout, console output). *)
Theorem positional_arguments_are_the_urls (args : list string) :
  Forall (fun arg => Js.startsWith "-" arg = false) args ->
  parseFlags parseInt10 parseFloat args = set_urls args defaults.
Proof. intros Hargs. unfold parseFlags. by rewrite parse_loop_positional. Qed.

End CliDispatch.

Lemma positional_arguments_are_the_urls_witness :
  Flags.urls (Flags.parseFlags (fun _ => Js.NaN) (fun _ => Js.NaN)
                ["http://a"; "http://b"]%string) = ["http://a"; "http://b"]%string.
Proof.
  rewrite (positional_arguments_are_the_urls (fun _ => Js.NaN) (fun _ => Js.NaN)
             ["http://a"; "http://b"]%string).
  - reflexivity.
  - repeat constructor.
Defined.

Section SingleRun.
Import Constants Flags Run.

Lemma checkThresholds_code result config :
  fst (checkThresholds result config) = SUCCESS /\ snd (checkThresholds result config) = [] \/
  fst (checkThresholds result config) = THRESHOLD_EXCEEDED /\
  (exists line, snd (checkThresholds result config) = [line]) /\
  (exists th, c_thresholds config = Some th /\
              (is_Some (th_p99 th) \/ is_Some (th_errorRate th))).
Proof.
  unfold checkThresholds.
  destruct (c_thresholds config) as [th|]; [|by left].
  destruct (th_p99 th) as [p99|] eqn:Hp.
  - destruct (Js.gt _ p99).
    + right. split; [done|]. split; [by eexists|]. exists th. split; [done|]. left. by eexists.
    + destruct (th_errorRate th) as [e|] eqn:He; [|by left].
      destruct (0 <? _); [|by left]. destruct (Js.gt _ e); [|by left].
      right. split; [done|]. split; [by eexists|]. exists th. split; [done|]. right. by eexists.
  - destruct (th_errorRate th) as [e|] eqn:He; [|by left].
    destruct (0 <? _); [|by left]. destruct (Js.gt _ e); [|by left].
    right. split; [done|]. split; [by eexists|]. exists th. split; [done|]. right. by eexists.
Qed.

(** X21.  [runCommand] exits with 0, 1 or 2.  It exits 2 exactly when the
    target is unreachable or the benchmark rejects, and then it writes
    nothing.  When the benchmark resolves and an output file is configured
    the report of the configured reporter is written, also when a
    threshold fails the run.  Exit code 1 needs a p99 or an error-rate
    threshold: p95 and minRps thresholds alone never fail a run.  Nothing
    is printed as an error exactly when the exit code is 0. *)
Theorem runCommand_exit_and_report (check : Probe) (bench : BenchOutcome) (config : BenchConfig) :
  let finished := runCommand check bench config in
  (exitCode finished = SUCCESS \/ exitCode finished = THRESHOLD_EXCEEDED \/
   exitCode finished = ERROR) /\
  (exitCode finished = ERROR <->
     (exists e, check = Unreachable e) \/ (exists err, bench = Rejected err)) /\
  (exitCode finished = ERROR -> written finished = None) /\
  (forall s result, check = Reachable s -> bench = Resolved result ->
     written finished =
       (fun file => (file, (getReporter (default "console"%string (c_output config)), result)))
         <$> c_outputFile config) /\
  (exitCode finished = THRESHOLD_EXCEEDED ->
     exists th, c_thresholds config = Some th /\
                (is_Some (th_p99 th) \/ is_Some (th_errorRate th))) /\
  (exitCode finished = SUCCESS <-> printed finished = []).
Proof.
  intros finished. subst finished. unfold runCommand.
  destruct check as [s|e].
  2:{ cbn [exitCode written printed]. unfold SUCCESS, THRESHOLD_EXCEEDED, ERROR.
      repeat split; try done; eauto. }
  destruct bench as [result|err].
  2:{ cbn [exitCode written printed]. unfold SUCCESS, THRESHOLD_EXCEEDED, ERROR.
      repeat split; try done; eauto. }
  pose proof (checkThresholds_code result config) as Hc.
  destruct (checkThresholds result config) as [code lines]. cbn [fst snd] in Hc.
  cbn [exitCode written printed].
  unfold SUCCESS, THRESHOLD_EXCEEDED, ERROR in *.
  destruct Hc as [[-> ->]|(-> & [line ->] & Hth)].
  - repeat split; try done; eauto.
    + by intros [[? ?]|[? ?]].
    + intros s' result' _ [= <-]. by destruct (c_outputFile config).
  - repeat split; try done; eauto.
    + by intros [[? ?]|[? ?]].
    + intros s' result' _ [= <-]. by destruct (c_outputFile config).
Qed.

End SingleRun.

(** ** Console reporter: the lines of a table have one length *)

Section TableLayout.
Import ConsoleTable.

Lemma repeat_length (c : Z) n : length (repeat [c] n) = n.
Proof. unfold repeat. induction n as [|n IH]; [done|]. simpl. by rewrite IH. Qed.

Lemma center_length s width :
  (length s <= width)%nat -> length (center s width) = width.
Proof.
  intros Hfit. unfold center. cbn zeta. rewrite !length_app, !repeat_length.
  assert ((width - length s) / 2 <= width - length s)%nat as Hhalf.
  { apply Nat.Div0.div_le_upper_bound; lia. }
  revert Hhalf. generalize ((width - length s) / 2)%nat. intros left Hhalf. lia.
Qed.

Lemma join_length (sep : str) (parts : list str) :
  length (join sep parts) =
  (sum_list (map length parts) + (length parts - 1) * length sep)%nat.
Proof.
  destruct parts as [|p ps]; [done|]. cbn [join map sum_list sum_list_with length].
  rewrite length_app. cbn [length].
  assert (length (concat (map (fun q => sep ++ q) ps)) =
          (sum_list (map length ps) + length ps * length sep)%nat) as ->.
  2:{ replace (S (length ps) - 1)%nat with (length ps) by lia. unfold id. lia. }
  induction ps as [|q ps IH]; [done|]. cbn [map concat length sum_list sum_list_with].
  rewrite !length_app, IH. unfold id. lia.
Qed.

Lemma formatted_lengths cells widths :
  fits cells widths ->
  map length (imap (fun i cell => center cell (default 10%nat (widths !! i))) cells) = widths.
Proof.
  intros Hfit. apply list_eq. intros i.
  rewrite list_lookup_fmap, list_lookup_imap.
  destruct (cells !! i) as [cell|] eqn:Hc; simpl.
  - destruct (Forall2_lookup_l _ _ _ _ _ Hfit Hc) as (w & Hw & Hle).
    rewrite Hw. simpl. by rewrite center_length.
  - symmetry. apply lookup_ge_None. apply lookup_ge_None in Hc.
    apply Forall2_length in Hfit. lia.
Qed.

Lemma tableRow_length cells widths :
  fits cells widths ->
  length (tableRow cells widths) = (sum_list widths + (length widths - 1) + 2)%nat.
Proof.
  intros Hfit. unfold tableRow. rewrite !length_app, join_length, formatted_lengths by done.
  rewrite length_imap, (Forall2_length _ _ _ Hfit). simpl. lia.
Qed.

Lemma tableSeparator_length widths (l m r : Z) :
  length (tableSeparator widths [l] [m] [r]) = (sum_list widths + (length widths - 1) + 2)%nat.
Proof.
  unfold tableSeparator. rewrite !length_app, join_length, length_map.
  assert (map length (map (fun w => repeat horizontal w) widths) = widths) as ->.
  { induction widths as [|w ws IH]; [done|]. cbn [map]. rewrite IH.
    unfold horizontal. by rewrite repeat_length. }
  simpl. lia.
Qed.

Lemma lines_total_length (lines : list str) (W : nat) :
  Forall (fun line => length line = W) lines ->
  sum_list (map length lines) = (length lines * W)%nat.
Proof.
  induction 1 as [|line lines Hline _ IH]; [done|].
  cbn [map sum_list sum_list_with length]. unfold id. rewrite Hline.
  change (sum_list_with (fun x : nat => x) (map length lines)) with (sum_list (map length lines)).
  rewrite IH. lia.
Qed.

(** X22.  When the header and every row have one cell per column and no
    cell is longer than its column is wide, all the lines of the table
    that [createTable] builds have the same length W (in UTF-16 code
    units): the sum of the widths, one separator between two columns and
    the two border characters.  The rows line up with the borders; there
    are three border lines, the header and one line per row, and the
    table is these lines joined by line feeds. *)
Theorem table_lines_have_equal_length
    (headers : list str) (rows : list (list str)) (widths : list nat) :
  fits headers widths ->
  Forall (fun row => fits row widths) rows ->
  let W := (sum_list widths + (length widths - 1) + 2)%nat in
  Forall (fun line => length line = W) (tableLines headers rows widths) /\
  length (tableLines headers rows widths) = (length rows + 4)%nat /\
  length (createTable headers rows widths) = ((length rows + 4) * (W + 1) - 1)%nat.
Proof.
  intros Hh Hrows W.
  assert (Forall (fun line => length line = W) (tableLines headers rows widths)) as Hlines;
    [|assert (length (tableLines headers rows widths) = (length rows + 4)%nat) as Hcount;
      [|split; [exact Hlines|split; [exact Hcount|]]]].
  - unfold tableLines. cbn [app].
    apply Forall_cons_2; [apply tableSeparator_length|].
    apply Forall_cons_2; [by apply tableRow_length|].
    apply Forall_cons_2; [apply tableSeparator_length|].
    apply Forall_app_2.
    + apply Forall_fmap. eapply Forall_impl; [exact Hrows|].
      intros row Hrow. by apply tableRow_length.
    + apply Forall_cons_2; [apply tableSeparator_length|apply Forall_nil_2].
  - unfold tableLines. cbn [app length]. rewrite length_app, length_map. simpl. lia.
  - unfold createTable. rewrite join_length, (lines_total_length _ _ Hlines), Hcount.
    cbn [length]. nia.
Qed.

Lemma table_lines_have_equal_length_witness :
  Forall (fun line => length line = 10%nat)
         (tableLines [[97]; [98; 99]] [[[49; 50; 51]; []]] [3%nat; 4%nat]).
Proof.
  destruct (table_lines_have_equal_length [[97]; [98; 99]] [[[49; 50; 51]; []]] [3%nat; 4%nat])
    as [H _].
  - repeat constructor.
  - repeat constructor.
  - exact H.
Defined.

End TableLayout.

(** ** Connection pool: one client per worker *)

Section PoolClients.
Import ConnectionPool.

Lemma inv_create : inv create.
Proof. repeat split; intros *; cbn; by rewrite ?lookup_empty. Qed.

Lemma getClient_spec w p :
  inv p ->
  let '(c, p') := getClient w p in
  inv p' /\ clients p' !! w = Some c /\
  (forall w' c', clients p !! w' = Some c' -> clients p' !! w' = Some c') /\
  dom (clients p') = {[w]} ∪ dom (clients p).
Proof.
  intros (Hlt & Hinj & Hsize). unfold getClient.
  destruct (clients p !! w) as [c|] eqn:Hw.
  - split; [done|]. split; [done|]. split; [done|].
    apply elem_of_dom_2 in Hw. symmetry. apply subseteq_union_1_L.
    by apply singleton_subseteq_l.
  - split; [|split; [|split]].
    + split; [|split]; cbn [clients constructed].
      * intros w' c. destruct (decide (w' = w)) as [->|Hne].
        -- rewrite lookup_insert_eq. intros [= <-]. lia.
        -- rewrite lookup_insert_ne by done. intros Hc. specialize (Hlt _ _ Hc). lia.
      * intros w1 w2 c.
        destruct (decide (w1 = w)) as [->|Hne1]; destruct (decide (w2 = w)) as [->|Hne2];
          rewrite ?lookup_insert_eq, ?lookup_insert_ne by done; try done.
        -- intros [= <-] Hc. specialize (Hlt _ _ Hc). lia.
        -- intros Hc [= <-]. specialize (Hlt _ _ Hc). lia.
        -- apply Hinj.
      * unfold size in *. cbn [clients]. rewrite map_size_insert_None by done. lia.
    + cbn [clients]. by rewrite lookup_insert_eq.
    + intros w' c' Hc'. cbn [clients]. rewrite lookup_insert_ne; [done|]. congruence.
    + cbn [clients]. by rewrite dom_insert_L.
Qed.

Lemma getClients_spec ws p :
  inv p ->
  let '(cs, p') := getClients ws p in
  inv p' /\ length cs = length ws /\
  (forall w' c', clients p !! w' = Some c' -> clients p' !! w' = Some c') /\
  (forall i w, ws !! i = Some w -> cs !! i = clients p' !! w) /\
  dom (clients p') = list_to_set ws ∪ dom (clients p).
Proof.
  revert p. induction ws as [|w ws IH]; intros p Hok; cbn [getClients].
  - split; [done|]. split; [done|]. split; [done|]. split; [done|].
    cbn [list_to_set]. by rewrite union_empty_l_L.
  - pose proof (getClient_spec w p Hok) as H1.
    destruct (getClient w p) as [c p1]. destruct H1 as (Hok1 & Hw & Hkeep1 & Hdom1).
    specialize (IH p1 Hok1).
    destruct (getClients ws p1) as [cs p2].
    destruct IH as (Hok2 & Hlen & Hkeep2 & Hret & Hdom2).
    split; [done|]. split; [by cbn; rewrite Hlen|]. split; [by auto|]. split.
    + intros [|i] w'; cbn.
      * intros [= <-]. by rewrite (Hkeep2 _ _ Hw).
      * apply Hret.
    + rewrite Hdom2, Hdom1. cbn [list_to_set].
      by rewrite (assoc_L (∪)), (comm_L (∪) (list_to_set ws)).
Qed.

(** X23.  A pool that starts empty holds one client per worker: after any
    run of [getClient] calls, two calls returned the same client exactly
    when they were made for the same worker id, the pool constructed one
    [HttpClient] per distinct worker id and [size] is that number, and the
    ids it holds are the ids asked for. *)
Theorem pool_has_one_client_per_worker (workerIds : list Z) :
  let run := getClients workerIds create in
  length (fst run) = length workerIds /\
  (forall i j wi wj ci cj,
     workerIds !! i = Some wi -> workerIds !! j = Some wj ->
     fst run !! i = Some ci -> fst run !! j = Some cj ->
     (ci = cj <-> wi = wj)) /\
  dom (clients (snd run)) = list_to_set workerIds /\
  size (snd run) = constructed (snd run) /\
  size (snd run) = base.size (list_to_set workerIds : gset Z).
Proof.
  intros run. subst run.
  pose proof (getClients_spec workerIds create inv_create) as H.
  destruct (getClients workerIds create) as [cs p].
  destruct H as ((Hlt & Hinj & Hsize) & Hlen & _ & Hret & Hdom). cbn [fst snd].
  assert (dom (clients p) = list_to_set workerIds) as Hdom'.
  { rewrite Hdom. cbn [create clients]. by rewrite dom_empty_L, union_empty_r_L. }
  split; [|split; [|split; [|split]]]; try done.
  - intros i j wi wj ci cj Hi Hj Hci Hcj.
    pose proof (Hret _ _ Hi) as Hi'. pose proof (Hret _ _ Hj) as Hj'.
    rewrite Hci in Hi'. rewrite Hcj in Hj'. split.
    + intros ->. by eapply Hinj.
    + intros ->. congruence.
  - unfold size. by rewrite <- Hdom', size_dom.
Qed.

End PoolClients.

(** ** CSV reporter: fields are unambiguous *)

Section CsvFields.
Import CsvReporter.

Lemma includes_false c s : includes c s = false -> c ∉ s.
Proof.
  unfold includes. induction s as [|x s IH]; cbn [existsb].
  - intros _. apply not_elem_of_nil.
  - intros [Hx Hs]%orb_false_iff. apply not_elem_of_cons. split; [lia|by apply IH].
Qed.

Lemma includes_true c s : includes c s = true -> c ∈ s.
Proof.
  unfold includes. induction s as [|x s IH]; cbn [existsb]; [done|].
  intros [Hx|Hs]%orb_true_iff.
  - apply Z.eqb_eq in Hx as ->. apply elem_of_cons. by left.
  - apply elem_of_cons. right. by apply IH.
Qed.

Lemma doubleQuotes_inj s s' : doubleQuotes s = doubleQuotes s' -> s = s'.
Proof.
  revert s'. induction s as [|c s IH]; intros [|c' s']; cbn [doubleQuotes].
  - done.
  - by destruct (c' =? 34).
  - by destruct (c =? 34).
  - destruct (c =? 34) eqn:Hc; destruct (c' =? 34) eqn:Hc'.
    + intros [= H]. apply Z.eqb_eq in Hc, Hc'. subst. f_equal. by apply IH.
    + intros [= <- H]. done.
    + intros [= -> H]. done.
    + intros [= <- H]. f_equal. by apply IH.
Qed.

Lemma doubleQuotes_paired s : paired (doubleQuotes s) = true.
Proof.
  induction s as [|c s IH]; [done|]. cbn [doubleQuotes].
  destruct (c =? 34) eqn:Hc.
  - cbn [paired]. by rewrite Z.eqb_refl, IH.
  - cbn [paired]. by rewrite Hc.
Qed.

Lemma escapeCSV_Str_inj {Number} (toString : Number -> list Z) s s' :
  escapeCSV toString (Str s) = escapeCSV toString (Str s') -> s = s'.
Proof.
  unfold escapeCSV. cbn [String_of].
  destruct (includes 44 s || includes 34 s || includes 10 s) eqn:Hs;
    destruct (includes 44 s' || includes 34 s' || includes 10 s') eqn:Hs'.
  - intros [= H]. apply app_inj_tail in H as [H _]. by apply doubleQuotes_inj.
  - intros <-. apply orb_false_iff in Hs' as [[_ Hq]%orb_false_iff _].
    cbn in Hq. done.
  - intros ->. apply orb_false_iff in Hs as [[_ Hq]%orb_false_iff _].
    cbn in Hq. done.
  - done.
Qed.

Lemma escapeCSV_String_of {Number} (toString : Number -> list Z) v :
  escapeCSV toString v = escapeCSV toString (Str (String_of toString v)).
Proof. by destruct v. Qed.

(** X24.  [escapeCSV] maps two values, strings or numbers, to the same
    field exactly when [String(value)] is the same for both: two different
    strings never give the same field, while a number and the string that
    spells it do.  A value whose string has no comma, double quote or line
    feed is written as that string; any other is wrapped in double quotes,
    with each of its double quotes doubled, so that the quotes between the
    wrapping quotes come in pairs. *)
Theorem escapeCSV_unambiguous {Number} (toString : Number -> list Z) :
  (forall v v',
     escapeCSV toString v = escapeCSV toString v' <->
     String_of toString v = String_of toString v') /\
  (forall s s', escapeCSV toString (Str s) = escapeCSV toString (Str s') <-> s = s') /\
  (forall n, escapeCSV toString (Num n) = escapeCSV toString (Str (toString n))) /\
  (forall v,
     let s := String_of toString v in
     ((44 ∉ s) /\ (34 ∉ s) /\ (10 ∉ s) /\ escapeCSV toString v = s) \/
     ((44 ∈ s \/ 34 ∈ s \/ 10 ∈ s) /\
      exists body, escapeCSV toString v = [34] ++ body ++ [34] /\ paired body = true /\
                   length body = (length s + length (List.filter (Z.eqb 34) s))%nat)).
Proof.
  split; [|split; [|split]].
  - intros v v'. split.
    + rewrite (escapeCSV_String_of _ v), (escapeCSV_String_of _ v').
      apply escapeCSV_Str_inj.
    + intros Heq. unfold escapeCSV. by rewrite Heq.
  - intros s s'. split; [apply escapeCSV_Str_inj|by intros ->].
  - done.
  - intros v s. unfold escapeCSV. fold s.
    destruct (includes 44 s || includes 34 s || includes 10 s) eqn:Hs.
    + right. split.
      * apply orb_true_iff in Hs as [[H|H]%orb_true_iff|H];
          apply includes_true in H; tauto.
      * exists (doubleQuotes s). split; [done|]. split; [apply doubleQuotes_paired|].
        clear Hs. generalize s. clear s. intros s.
        induction s as [|c s IH]; [done|]. cbn [doubleQuotes List.filter].
        rewrite (Z.eqb_sym 34 c). destruct (c =? 34); cbn [length]; lia.
    + left. apply orb_false_iff in Hs as [[H1 H2]%orb_false_iff H3].
      by repeat split; try apply includes_false.
Qed.

End CsvFields.
